(** * A market-making loop for options: tick rounding, quoting and sizing

    Shallow embedding of [algorithm.py].  The script talks to an exchange
    through a client object, prices options through an external Black-Scholes
    module, and re-quotes a fixed list of options in an endless loop.  The
    embedding keeps that shape:

    - Python exceptions are an error monad ([result]);
    - the exchange client is an interface ([Exchange]) over an abstract
      exchange state; every call is recorded, with what it returned, in the
      list of events a computation emits ([M]);
    - Python [float]s are the kernel's binary64 numbers ([PrimFloat.float]),
      whose operations are specified by [SpecFloat]; Python [int]s are [Z];
    - the two tick-rounding functions are written once, over the arithmetic
      they use ([PyArith]), and instantiated at binary64 (what the script runs
      with) and at the rationals (the arithmetic their docstrings reason in).

    The theorems come in groups: the runs of [update_quotes] (sizing, order
    of the calls), market data and pricing, tick rounding in exact arithmetic
    and in binary64, and the rounding theory of binary64 that orders the bid
    price below the ask price; then what the script touches and how it fails
    ([update_quotes], [hedge_delta_position], the trade loop), the exceptions,
    the monotonicity and the sign of tick rounding on floats, the midpoint,
    and the bound on rounding errors that keeps the bid strictly below the
    ask. *)

From Stdlib Require Import ZArith QArith Qround String List Bool Lia Floats.
From Stdlib Require Import Reals Lra.
Import ListNotations.

#[local] Set Warnings "-inexact-float".
#[local] Open Scope Z_scope.

(** ** Exceptions *)

Inductive exn : Type :=
| ZeroDivisionError
| ValueError
| OverflowError
| IndexError
| KeyError (key : string)
| Exception (msg : string)
| ExchangeError (msg : string).

Inductive result (A : Type) : Type :=
| Ok (a : A)
| Raise (e : exn).

Arguments Ok {A} a.
Arguments Raise {A} e.

Definition rbind {A B : Type} (r : result A) (f : A -> result B) : result B :=
  match r with
  | Ok a => f a
  | Raise e => Raise e
  end.

Declare Scope result_scope.
Delimit Scope result_scope with result.
Notation "x <- r ;; k" := (rbind r (fun x => k))
  (at level 61, r at next level, right associativity) : result_scope.

Definition raises {A : Type} (r : result A) : Prop :=
  exists e, r = Raise e.

(** ** The arithmetic of the tick-rounding functions

    [round_down_to_tick] and [round_up_to_tick] use true division,
    [math.floor] / [math.ceil] (which return an [int]) and the product of an
    [int] with a price.  Each of them can raise. *)

Class PyArith (R : Type) : Type := {
  truediv : R -> R -> result R;
  floor : R -> result Z;
  ceil : R -> result Z;
  int_mul : Z -> R -> result R
}.

Section TickRounding.
Context {R : Type} `{PyArith R}.
Local Open Scope result_scope.

(** [return floor(price / tick_size) * tick_size] *)
Definition round_down_to_tick (price tick_size : R) : result R :=
  q <- truediv price tick_size ;;
  n <- floor q ;;
  int_mul n tick_size.

(** [return ceil(price / tick_size) * tick_size] *)
Definition round_up_to_tick (price tick_size : R) : result R :=
  q <- truediv price tick_size ;;
  n <- ceil q ;;
  int_mul n tick_size.
End TickRounding.

(** ** Binary64: the arithmetic of Python's [float] *)

Section Binary64.
Local Open Scope float_scope.

(** [x / y] on floats: [ZeroDivisionError] on a zero divisor of either sign,
    IEEE division otherwise. *)
Definition float_truediv (x y : float) : result float :=
  if is_zero y then Raise ZeroDivisionError else Ok (x / y).

(** The integer value of a finite float with sign [s], mantissa [m] and
    exponent [e] is [+-m * 2^e]; [Z.shiftl] with a negative shift divides
    rounding towards minus infinity. *)
Definition float_floor (x : float) : result Z :=
  match Prim2SF x with
  | S754_zero _ => Ok 0%Z
  | S754_finite s m e => Ok (Z.shiftl (if s then Z.neg m else Z.pos m) e)
  | S754_infinity _ => Raise OverflowError
  | S754_nan => Raise ValueError
  end.

Definition float_ceil (x : float) : result Z :=
  match Prim2SF x with
  | S754_zero _ => Ok 0%Z
  | S754_finite s m e => Ok (- Z.shiftl (if s then Z.pos m else Z.neg m) e)%Z
  | S754_infinity _ => Raise OverflowError
  | S754_nan => Raise ValueError
  end.

(** [float(n)]: the nearest float, [OverflowError] when there is none. *)
Definition float_of_int (n : Z) : result float :=
  let f := SF2Prim (binary_normalize prec emax n 0 false) in
  if is_infinity f then Raise OverflowError else Ok f.

(** [n * x] for an [int] [n] and a float [x]: [n] is converted first. *)
Definition float_int_mul (n : Z) (x : float) : result float :=
  rbind (float_of_int n) (fun f => Ok (f * x)).

#[global] Instance binary64 : PyArith float := {
  truediv := float_truediv;
  floor := float_floor;
  ceil := float_ceil;
  int_mul := float_int_mul
}.
End Binary64.

(** ** Exact arithmetic: the rationals *)

Definition Q_truediv (x y : Q) : result Q :=
  if Qeq_bool y 0 then Raise ZeroDivisionError else Ok (x / y)%Q.

#[global] Instance exact : PyArith Q := {
  truediv := Q_truediv;
  floor := fun x => Ok (Qfloor x);
  ceil := fun x => Ok (Qceiling x);
  int_mul := fun n x => Ok (inject_Z n * x)%Q
}.

(** ** Data of the exchange client

    The records hold the attributes the script reads. *)

(** A price level of an order book: [.price], [.volume]. *)
Record price_volume : Type := {
  pv_price : float;
  pv_volume : Z
}.

(** What [get_last_price_book] returns: [.bids] and [.asks], best price first. *)
Record price_book : Type := {
  bids : list price_volume;
  asks : list price_volume
}.

(** A fill, as [poll_new_trades] reports it. *)
Record trade : Type := {
  trade_volume : Z;
  trade_price : float;
  trade_side : string
}.

(** An outstanding order, as [get_outstanding_orders] reports it. *)
Record order : Type := {
  order_side : string;
  order_volume : Z;
  order_price : float
}.

(** A Python [dict] whose order of iteration matters: key-value pairs in
    insertion order. *)
Definition dict (K V : Type) : Type := list (K * V).

Fixpoint dict_get {V : Type} (d : dict string V) (k : string) : result V :=
  match d with
  | [] => Raise (KeyError k)
  | (k', v) :: d' => if String.eqb k' k then Ok v else dict_get d' k
  end.

(** [dt.datetime(year, month, day, hour, minute, second)] *)
Record datetime : Type := {
  dt_year : Z;
  dt_month : Z;
  dt_day : Z;
  dt_hour : Z;
  dt_minute : Z;
  dt_second : Z
}.

(** A number that the script writes as an [int] in one place and as a
    [float] in another (a strike, the argument of [time.sleep]). *)
Inductive number : Type :=
| PyInt (n : Z)
| PyFloat (x : float).

(** ** What a run does: the calls it makes and what they return

    A [print] is recorded with the values its f-string interpolates. *)

Inductive message : Type :=
| msg_traded (volume : Z) (option_id : string) (price : float) (side : string)
| msg_deleting (side option_id : string) (volume : Z) (price : float)
| msg_inserting_bid (option_id : string) (bid_volume : Z) (bid_price : float)
| msg_inserting_ask (option_id : string) (ask_volume : Z) (ask_price : float)
| msg_option_position (option_id : string) (position : Z)
| msg_stock_position (stock_id : string) (stock_position : Z)
| msg_hedge_not_implemented
| msg_blank
| msg_rule
| msg_iteration_entered
| msg_empty_stock_book
| msg_updating (option_id : string)
| msg_hedging
| msg_sleeping.

Inductive event : Type :=
| ev_get_last_price_book (instrument_id : string)
    (answer : result (option price_book))
| ev_poll_new_trades (instrument_id : string) (answer : result (list trade))
| ev_get_outstanding_orders (instrument_id : string)
    (answer : result (dict Z order))
| ev_delete_order (instrument_id : string) (order_id : Z) (answer : result unit)
| ev_get_positions (answer : result (dict string Z))
| ev_insert_order (instrument_id : string) (price : float) (volume : Z)
    (side order_type : string) (answer : result unit)
| ev_print (m : message)
| ev_sleep (seconds : number).

(** ** The exchange client, as the script uses it

    [X] is the state of the exchange (and of the connection to it): every call
    may change it, and may fail. *)

Class Exchange (X : Type) : Type := {
  get_last_price_book : string -> X -> result (option price_book) * X;
  poll_new_trades : string -> X -> result (list trade) * X;
  get_outstanding_orders : string -> X -> result (dict Z order) * X;
  delete_order : string -> Z -> X -> result unit * X;
  get_positions : X -> result (dict string Z) * X;
  insert_order : string -> float -> Z -> string -> string -> X -> result unit * X
}.

(** ** The monad of the script: exchange state, exceptions, emitted events *)

Section Script.
Context {X : Type} `{Exchange X}.

Definition M (A : Type) : Type := X -> result A * X * list event.

Definition ret {A : Type} (a : A) : M A := fun x => (Ok a, x, []).

Definition bind {A B : Type} (m : M A) (f : A -> M B) : M B :=
  fun x =>
    match m x with
    | (Ok a, x1, es1) =>
        let '(r, x2, es2) := f a x1 in (r, x2, es1 ++ es2)
    | (Raise e, x1, es1) => (Raise e, x1, es1)
    end.

Definition lift {A : Type} (r : result A) : M A := fun x => (r, x, []).

(** An exchange call: perform it, record it with what it returned. *)
Definition call {A : Type} (op : X -> result A * X)
    (record : result A -> event) : M A :=
  fun x => let '(r, x1) := op x in (r, x1, [record r]).

Definition emit (e : event) : M unit := fun x => (Ok tt, x, [e]).

Definition print (m : message) : M unit := emit (ev_print m).
Definition sleep (seconds : number) : M unit := emit (ev_sleep seconds).

Declare Scope script_scope.
Delimit Scope script_scope with script.
Notation "x <- m ;; k" := (bind m (fun x => k))
  (at level 61, m at next level, right associativity) : script_scope.
Notation "m ;; k" := (bind m (fun _ => k))
  (at level 61, right associativity) : script_scope.
Local Open Scope script_scope.

(** [for a in l: body(a)] *)
Fixpoint for_each {A : Type} (l : list A) (body : A -> M unit) : M unit :=
  match l with
  | [] => ret tt
  | a :: l' => body a ;; for_each l' body
  end.

Definition result_of {A : Type} (o : result A * X * list event) : result A :=
  fst (fst o).
Definition state_of {A : Type} (o : result A * X * list event) : X :=
  snd (fst o).
Definition events_of {A : Type} (o : result A * X * list event) : list event :=
  snd o.

(** *** [get_midpoint_value] *)

(** Truth value of a list: empty is false. *)
Definition truthy {A : Type} (l : list A) : bool :=
  match l with
  | [] => false
  | _ :: _ => true
  end.

(** [l[0]] *)
Definition first_item {A : Type} (l : list A) : result A :=
  match l with
  | [] => Raise IndexError
  | a :: _ => Ok a
  end.

(** The book is [None] or an object (which is true); [and] evaluates its
    right operand only when the left one is true. *)
Definition get_midpoint_value (instrument_id : string) : M (option float) :=
  order_book <- call (get_last_price_book instrument_id)
                  (ev_get_last_price_book instrument_id) ;;
  match order_book with
  | None => ret None
  | Some book =>
      if negb (truthy (bids book) && truthy (asks book)) then ret None
      else
        best_bid <- lift (first_item (bids book)) ;;
        best_ask <- lift (first_item (asks book)) ;;
        let midpoint := ((pv_price best_bid + pv_price best_ask) / 2.0)%float in
        ret (Some midpoint)
  end.

(** *** The pricing functions

    [black_scholes] and [libs] are imported modules: their functions are
    parameters of the development. *)

Variable calculate_current_time_to_date : datetime -> float.
Variables call_value put_value call_delta put_delta :
  float -> number -> float -> float -> float -> float.

Definition unexpected_callput (callput : string) : string :=
  ("Got unexpected value for callput argument, should be 'call' or 'put' but was "
     ++ callput ++ ".")%string.

Definition calculate_theoretical_option_value (expiry_date : datetime)
    (strike : number) (callput : string)
    (stock_value interest_rate volatility : float) : result float :=
  let time_to_expiry := calculate_current_time_to_date expiry_date in
  if String.eqb callput "call" then
    Ok (call_value stock_value strike time_to_expiry interest_rate volatility)
  else if String.eqb callput "put" then
    Ok (put_value stock_value strike time_to_expiry interest_rate volatility)
  else Raise (Exception (unexpected_callput callput)).

Definition calculate_option_delta (expiry_date : datetime)
    (strike : number) (callput : string)
    (stock_value interest_rate volatility : float) : result float :=
  let time_to_expiry := calculate_current_time_to_date expiry_date in
  if String.eqb callput "call" then
    Ok (call_delta stock_value strike time_to_expiry interest_rate volatility)
  else if String.eqb callput "put" then
    Ok (put_delta stock_value strike time_to_expiry interest_rate volatility)
  else Raise (Exception (unexpected_callput callput)).

(** *** [update_quotes] *)

Definition update_quotes (option_id : string)
    (theoretical_price credit : float) (volume position_limit : Z)
    (tick_size : float) : M unit :=
  (* Print any new trades *)
  trades <- call (poll_new_trades option_id) (ev_poll_new_trades option_id) ;;
  for_each trades (fun t =>
    print (msg_traded (trade_volume t) option_id (trade_price t)
             (trade_side t))) ;;
  (* Pull (remove) all existing outstanding orders *)
  orders <- call (get_outstanding_orders option_id)
              (ev_get_outstanding_orders option_id) ;;
  for_each orders (fun '(order_id, o) =>
    print (msg_deleting (order_side o) option_id (order_volume o)
             (order_price o)) ;;
    call (delete_order option_id order_id)
      (ev_delete_order option_id order_id)) ;;
  (* Calculate bid and ask price *)
  bid_price <- lift (round_down_to_tick (theoretical_price - credit)%float
                       tick_size) ;;
  ask_price <- lift (round_up_to_tick (theoretical_price + credit)%float
                       tick_size) ;;
  (* Calculate bid and ask volumes, taking into account the position_limit *)
  positions <- call get_positions ev_get_positions ;;
  position <- lift (dict_get positions option_id) ;;
  let max_volume_to_buy := position_limit - position in
  let max_volume_to_sell := position_limit + position in
  let bid_volume := Z.min volume max_volume_to_buy in
  let ask_volume := Z.min volume max_volume_to_sell in
  (* Insert new limit orders *)
  (if 0 <? bid_volume then
     print (msg_inserting_bid option_id bid_volume bid_price) ;;
     call (insert_order option_id bid_price bid_volume "bid" "limit")
       (ev_insert_order option_id bid_price bid_volume "bid" "limit")
   else ret tt) ;;
  (if 0 <? ask_volume then
     print (msg_inserting_ask option_id ask_volume ask_price) ;;
     call (insert_order option_id ask_price ask_volume "ask" "limit")
       (ev_insert_order option_id ask_price ask_volume "ask" "limit")
   else ret tt).

(** *** [hedge_delta_position] *)

(** An entry of [OPTIONS]: keys ['id'], ['expiry_date'], ['strike'],
    ['callput']. *)
Record option_entry : Type := {
  opt_id : string;
  opt_expiry_date : datetime;
  opt_strike : number;
  opt_callput : string
}.

Definition hedge_delta_position (stock_id : string)
    (options : list option_entry) (stock_value : float) : M unit :=
  positions <- call get_positions ev_get_positions ;;
  for_each options (fun option =>
    position <- lift (dict_get positions (opt_id option)) ;;
    print (msg_option_position (opt_id option) position)) ;;
  stock_position <- lift (dict_get positions stock_id) ;;
  print (msg_stock_position stock_id stock_position) ;;
  print msg_hedge_not_implemented.

(** *** The trade loop *)

Definition STOCK_ID : string := "BMW".

Definition noon (year month day : Z) : datetime :=
  {| dt_year := year; dt_month := month; dt_day := day;
     dt_hour := 12; dt_minute := 0; dt_second := 0 |}.

Definition OPTIONS : list option_entry :=
  [ {| opt_id := "BMW-2021_12_10-075C"; opt_expiry_date := noon 2021 12 10;
       opt_strike := PyInt 75; opt_callput := "call" |};
    {| opt_id := "BMW-2021_12_10-075P"; opt_expiry_date := noon 2021 12 10;
       opt_strike := PyInt 75; opt_callput := "put" |};
    {| opt_id := "BMW-2022_01_14-075C"; opt_expiry_date := noon 2022 1 14;
       opt_strike := PyInt 75; opt_callput := "call" |};
    {| opt_id := "BMW-2022_01_14-075P"; opt_expiry_date := noon 2022 1 14;
       opt_strike := PyInt 75; opt_callput := "put" |} ].

(** The body of [while True]: one pass, up to the [continue] or to the end of
    the body. *)
Definition trade_loop_iteration : M unit :=
  print msg_blank ;;
  print msg_rule ;;
  print msg_iteration_entered ;;
  print msg_rule ;;
  stock_value <- get_midpoint_value STOCK_ID ;;
  match stock_value with
  | None =>
      print msg_empty_stock_book ;;
      sleep (PyInt 4)
  | Some stock_value =>
      for_each OPTIONS (fun option =>
        print (msg_updating (opt_id option)) ;;
        theoretical_value <-
          lift (calculate_theoretical_option_value (opt_expiry_date option)
                  (opt_strike option) (opt_callput option) stock_value
                  0.0%float 3.0%float) ;;
        update_quotes (opt_id option) theoretical_value 0.15%float 3 100
          0.10%float ;;
        (* Wait 1/10th of a second *)
        sleep (PyFloat 0.10%float)) ;;
      print msg_hedging ;;
      hedge_delta_position STOCK_ID OPTIONS stock_value ;;
      print msg_sleeping ;;
      sleep (PyInt 4)
  end.

(** [while True: ...], unrolled [n] times: the loop has no exit of its own,
    an exception apart. *)
Fixpoint trade_loop (n : nat) : M unit :=
  match n with
  | O => ret tt
  | S n' => trade_loop_iteration ;; trade_loop n'
  end.

End Script.

(** ** An exchange to run the script against

    A book-keeping exchange without matching: books and positions are fixed,
    fills are handed out once, orders are kept until deleted. *)

Record sim : Type := {
  sim_books : dict string price_book;
  sim_trades : list (string * trade);
  sim_orders : list (string * (Z * order));
  sim_positions : dict string Z;
  sim_next_order_id : Z
}.

Definition for_instrument {A : Type} (instrument_id : string)
    (l : list (string * A)) : list A :=
  map snd (filter (fun p => String.eqb (fst p) instrument_id) l).

Definition not_for_instrument {A : Type} (instrument_id : string)
    (l : list (string * A)) : list (string * A) :=
  filter (fun p => negb (String.eqb (fst p) instrument_id)) l.

Definition sim_get_last_price_book (instrument_id : string) (x : sim)
    : result (option price_book) * sim :=
  (Ok match dict_get (sim_books x) instrument_id with
      | Ok book => Some book
      | Raise _ => None
      end, x).

Definition sim_poll_new_trades (instrument_id : string) (x : sim)
    : result (list trade) * sim :=
  (Ok (for_instrument instrument_id (sim_trades x)),
   {| sim_books := sim_books x;
      sim_trades := not_for_instrument instrument_id (sim_trades x);
      sim_orders := sim_orders x;
      sim_positions := sim_positions x;
      sim_next_order_id := sim_next_order_id x |}).

Definition sim_get_outstanding_orders (instrument_id : string) (x : sim)
    : result (dict Z order) * sim :=
  (Ok (for_instrument instrument_id (sim_orders x)), x).

Definition sim_delete_order (instrument_id : string) (order_id : Z) (x : sim)
    : result unit * sim :=
  (Ok tt,
   {| sim_books := sim_books x;
      sim_trades := sim_trades x;
      sim_orders :=
        filter (fun p => negb (String.eqb (fst p) instrument_id
                               && Z.eqb (fst (snd p)) order_id))
          (sim_orders x);
      sim_positions := sim_positions x;
      sim_next_order_id := sim_next_order_id x |}).

Definition sim_get_positions (x : sim) : result (dict string Z) * sim :=
  (Ok (sim_positions x), x).

Definition sim_insert_order (instrument_id : string) (price : float)
    (volume : Z) (side order_type : string) (x : sim) : result unit * sim :=
  (Ok tt,
   {| sim_books := sim_books x;
      sim_trades := sim_trades x;
      sim_orders :=
        sim_orders x ++
        [(instrument_id,
          (sim_next_order_id x,
           {| order_side := side; order_volume := volume;
              order_price := price |}))];
      sim_positions := sim_positions x;
      sim_next_order_id := sim_next_order_id x + 1 |}).

#[global] Instance sim_exchange : Exchange sim := {
  get_last_price_book := sim_get_last_price_book;
  poll_new_trades := sim_poll_new_trades;
  get_outstanding_orders := sim_get_outstanding_orders;
  delete_order := sim_delete_order;
  get_positions := sim_get_positions;
  insert_order := sim_insert_order
}.

(** ** Reading a list of events *)

Definition is_insert (e : event) : bool :=
  match e with
  | ev_insert_order _ _ _ _ _ _ => true
  | _ => false
  end.

Definition is_delete (e : event) : bool :=
  match e with
  | ev_delete_order _ _ _ => true
  | _ => false
  end.

(** The calls that touch trades, orders or positions. *)
Definition is_trading_call (e : event) : bool :=
  match e with
  | ev_poll_new_trades _ _ | ev_get_outstanding_orders _ _
  | ev_delete_order _ _ _ | ev_get_positions _
  | ev_insert_order _ _ _ _ _ _ => true
  | _ => false
  end.

(** The [insert_order] calls of a run, in order: side, volume, price. *)
Fixpoint inserted (es : list event) : list (string * Z * float) :=
  match es with
  | [] => []
  | ev_insert_order _ price volume side _ _ :: es' =>
      (side, volume, price) :: inserted es'
  | _ :: es' => inserted es'
  end.

(** The volume a run has put on one side of the book. *)
Fixpoint placed_volume (side : string) (es : list event) : Z :=
  match es with
  | [] => 0
  | ev_insert_order _ _ volume side' _ _ :: es' =>
      (if String.eqb side' side then volume else 0) + placed_volume side es'
  | _ :: es' => placed_volume side es'
  end.

(** The position of [option_id] a run has read from the exchange. *)
Fixpoint position_read (option_id : string) (es : list event) : option Z :=
  match es with
  | [] => None
  | ev_get_positions (Ok positions) :: es' =>
      match dict_get positions option_id with
      | Ok position => Some position
      | Raise _ => position_read option_id es'
      end
  | _ :: es' => position_read option_id es'
  end.

(** The order ids a run has been told are outstanding. *)
Fixpoint outstanding_read (es : list event) : list Z :=
  match es with
  | [] => []
  | ev_get_outstanding_orders _ (Ok orders) :: es' =>
      map fst orders ++ outstanding_read es'
  | _ :: es' => outstanding_read es'
  end.

(** The order ids a run has deleted. *)
Fixpoint deleted (es : list event) : list Z :=
  match es with
  | [] => []
  | ev_delete_order _ order_id (Ok _) :: es' => order_id :: deleted es'
  | _ :: es' => deleted es'
  end.

(** Comparison of floats as Python's [<=]: false when either side is NaN. *)
Definition float_le (x y : float) : Prop := (x <=? y)%float = true.

(** ** A logic of emitted events

    [emits m P]: whatever the exchange answers, the outcome of [m] and the
    events it emits satisfy [P]. *)

Section Emits.
Context {X : Type} `{Exchange X}.

Definition emits {A : Type} (m : M (X := X) A)
    (P : result A -> list event -> Prop) : Prop :=
  forall x, P (result_of (m x)) (events_of (m x)).

End Emits.

(** ** The runs of [update_quotes]

    The events of the phase that cancels: the fills reported, then every
    outstanding order announced and deleted. *)

Definition trade_prints (option_id : string) (trades : list trade)
    : list event :=
  map (fun t => ev_print (msg_traded (trade_volume t) option_id
                            (trade_price t) (trade_side t))) trades.

Definition delete_events (option_id : string) (orders : dict Z order)
    : list event :=
  flat_map (fun p =>
    [ev_print (msg_deleting (order_side (snd p)) option_id
                 (order_volume (snd p)) (order_price (snd p)));
     ev_delete_order option_id (fst p) (Ok tt)]) orders.

Definition pull_events (option_id : string) (trades : list trade)
    (orders : dict Z order) : list event :=
  ev_poll_new_trades option_id (Ok trades) :: trade_prints option_id trades
  ++ ev_get_outstanding_orders option_id (Ok orders)
     :: delete_events option_id orders.

Definition bid_events (option_id : string) (bid_volume : Z) (bid_price : float)
    (answer : result unit) : list event :=
  [ev_print (msg_inserting_bid option_id bid_volume bid_price);
   ev_insert_order option_id bid_price bid_volume "bid" "limit" answer].

Definition ask_events (option_id : string) (ask_volume : Z) (ask_price : float)
    (answer : result unit) : list event :=
  [ev_print (msg_inserting_ask option_id ask_volume ask_price);
   ev_insert_order option_id ask_price ask_volume "ask" "limit" answer].

(** The phase that inserts, for bid and ask volumes [bv] and [av]: the bid
    first, and the ask only when the bid has not raised. *)
Inductive insert_phase (option_id : string) (bv av : Z) (bid ask : float)
    : result unit -> list event -> Prop :=
| ins_bid_raises e :
    0 < bv ->
    insert_phase option_id bv av bid ask (Raise e)
      (bid_events option_id bv bid (Raise e))
| ins_bid_only :
    0 < bv -> av <= 0 ->
    insert_phase option_id bv av bid ask (Ok tt)
      (bid_events option_id bv bid (Ok tt))
| ins_both answer :
    0 < bv -> 0 < av ->
    insert_phase option_id bv av bid ask answer
      (bid_events option_id bv bid (Ok tt)
       ++ ask_events option_id av ask answer)
| ins_ask_only answer :
    bv <= 0 -> 0 < av ->
    insert_phase option_id bv av bid ask answer
      (ask_events option_id av ask answer)
| ins_none :
    bv <= 0 -> av <= 0 ->
    insert_phase option_id bv av bid ask (Ok tt) [].

(** A run either stops with an exception before any order is inserted, or
    cancels everything, computes both prices, reads the position and goes
    through the insert phase. *)
Inductive update_quotes_run (option_id : string)
    (theoretical_price credit : float) (volume position_limit : Z)
    (tick_size : float) : result unit -> list event -> Prop :=
| run_stops_early e es :
    Forall (fun ev => is_insert ev = false) es ->
    position_read option_id es = None ->
    update_quotes_run option_id theoretical_price credit volume position_limit
      tick_size (Raise e) es
| run_inserts trades orders bid ask positions position r ins :
    round_down_to_tick (theoretical_price - credit)%float tick_size = Ok bid ->
    round_up_to_tick (theoretical_price + credit)%float tick_size = Ok ask ->
    dict_get positions option_id = Ok position ->
    insert_phase option_id
      (Z.min volume (position_limit - position))
      (Z.min volume (position_limit + position)) bid ask r ins ->
    update_quotes_run option_id theoretical_price credit volume position_limit
      tick_size r
      (pull_events option_id trades orders
       ++ ev_get_positions (Ok positions) :: ins).

(** ** Exchange states for the examples *)

Definition level (price : float) (volume : Z) : price_volume :=
  {| pv_price := price; pv_volume := volume |}.

(** The first option of [OPTIONS]. *)
Definition EXAMPLE_OPTION : string := "BMW-2021_12_10-075C".

(** An exchange where the stock trades 74.90 bid, 75.10 ask, the first option
    has two outstanding orders and the position [position]. *)
Definition sim_quoted (position : Z) : sim :=
  {| sim_books :=
       [(STOCK_ID, {| bids := [level 74.90 10; level 74.80 25];
                      asks := [level 75.10 12] |})];
     sim_trades :=
       [(EXAMPLE_OPTION, {| trade_volume := 3; trade_price := 9.8%float;
                            trade_side := "bid" |})];
     sim_orders :=
       [(EXAMPLE_OPTION, (1, {| order_side := "bid"; order_volume := 3;
                                order_price := 9.8%float |}));
        (EXAMPLE_OPTION, (2, {| order_side := "ask"; order_volume := 3;
                                order_price := 10.2%float |}))];
     sim_positions := [(EXAMPLE_OPTION, position); (STOCK_ID, 0)];
     sim_next_order_id := 3 |}.

(** The same exchange with nobody offering the stock. *)
Definition sim_no_asks : sim :=
  {| sim_books :=
       [(STOCK_ID, {| bids := [level 74.90 10]; asks := [] |})];
     sim_trades := [];
     sim_orders :=
       [(EXAMPLE_OPTION, (1, {| order_side := "bid"; order_volume := 3;
                                order_price := 9.8%float |}))];
     sim_positions := [(EXAMPLE_OPTION, 0); (STOCK_ID, 0)];
     sim_next_order_id := 2 |}.

(** ** Binary64 numbers as reals

    What the proofs about rounding speak of: the value of a float, the set
    of reals the format holds, and what it means to round to nearest. *)

Section RoundingDefinitions.
Local Open Scope Z_scope.

(** The record of [a / B]: quotient, round bit, sticky bit. *)
Definition rec_of (a B : Z) : shr_record :=
  {| shr_m := a / B;
     shr_r := B <=? 2 * (a mod B);
     shr_s := negb (a mod B =? 0) && negb (2 * (a mod B) =? B) |}.

(** Where [a / b] lies between [a / b] and its successor. *)
Definition loc (a b : Z) : location :=
  if a mod b =? 0 then loc_Exact else loc_Inexact (2 * (a mod b) ?= b).

(** The integer nearest to [a / b], ties to even. *)
Definition rne (a b : Z) : Z := round_nearest_even (a / b) (loc a b).

End RoundingDefinitions.

Section RealDefinitions.
Local Open Scope R_scope.

(** [2^e], for an exponent of any sign. *)
Definition pow2 (e : Z) : R := powerRZ 2 e.

(** A scaled integer [m * 2^e]. *)
Definition F2R (m e : Z) : R := IZR m * pow2 e.

(** The numbers of the format, exponent unbounded above: 53 bits of
    mantissa, exponents from -1074. *)
Definition fmt (x : R) : Prop :=
  exists m e : Z, x = F2R m e /\ (Z.abs m < 2 ^ 53)%Z /\ (-1074 <= e)%Z.

(** [f] is a number of the format at the least distance from [u]. *)
Definition nearest (f u : R) : Prop :=
  fmt f /\ forall g, fmt g -> Rabs (f - u) <= Rabs (g - u).

(** [z] is a rounding to nearest of the magnitude [u], with sign [sx]. *)
Definition rounds_to (z : spec_float) (sx : bool) (u : R) : Prop :=
  match z with
  | S754_zero s => s = sx /\ nearest 0 u
  | S754_finite s m e => s = sx /\ nearest (F2R (Z.pos m) e) u
  | S754_infinity s => s = sx /\ exists f, nearest f u /\ pow2 1024 <= f
  | S754_nan => False
  end.

(** The real value of a float that has one (0 otherwise). *)
Definition B2R (z : spec_float) : R :=
  match z with
  | S754_finite s m e => if s then - F2R (Z.pos m) e else F2R (Z.pos m) e
  | _ => 0
  end.

(** [z] is a rounding to nearest of [u]; an infinity stands for a nearest
    number of magnitude [2^1024] or more. *)
Definition rounds (z : spec_float) (u : R) : Prop :=
  match z with
  | S754_zero _ => nearest 0 u
  | S754_finite _ _ _ => nearest (B2R z) u
  | S754_infinity s =>
      exists f, nearest f u
                /\ (if s then f <= - pow2 1024 else pow2 1024 <= f)
  | S754_nan => False
  end.

(** A zero or a finite number. *)
Definition is_fin (z : spec_float) : Prop :=
  match z with
  | S754_zero _ | S754_finite _ _ _ => True
  | _ => False
  end.

(** A float in canonical form, as every primitive float is. *)
Definition valid (z : spec_float) : Prop :=
  SpecFloat.valid_binary prec emax z = true.

End RealDefinitions.

(** ** Exceptions, sleeps and instruments of a list of events *)

(** The exception an exchange call was answered with, if it was. *)
Definition event_raised (ev : event) : option exn :=
  match ev with
  | ev_get_last_price_book _ (Raise e) => Some e
  | ev_poll_new_trades _ (Raise e) => Some e
  | ev_get_outstanding_orders _ (Raise e) => Some e
  | ev_delete_order _ _ (Raise e) => Some e
  | ev_get_positions (Raise e) => Some e
  | ev_insert_order _ _ _ _ _ (Raise e) => Some e
  | _ => None
  end.

(** The last event is an exchange call that raised [e]. *)
Definition exchange_raised (e : exn) (es : list event) : Prop :=
  exists es' ev, es = es' ++ [ev] /\ event_raised ev = Some e.

Definition is_print (ev : event) : bool :=
  match ev with
  | ev_print _ => true
  | _ => false
  end.

Definition is_get_positions (ev : event) : bool :=
  match ev with
  | ev_get_positions _ => true
  | _ => false
  end.

(** The arguments of the [time.sleep] calls of a run, in order. *)
Fixpoint sleeps (es : list event) : list number :=
  match es with
  | [] => []
  | ev_sleep seconds :: es' => seconds :: sleeps es'
  | _ :: es' => sleeps es'
  end.

(** What a run of [update_quotes] for [option_id] with volume [volume] may
    emit: calls about [option_id] only, no query of a book, no sleep, and
    only limit orders of a volume from 1 to [volume]. *)
Definition quoting_event (option_id : string) (volume : Z) (ev : event)
    : Prop :=
  match ev with
  | ev_get_last_price_book _ _ => False
  | ev_poll_new_trades i _ => i = option_id
  | ev_get_outstanding_orders i _ => i = option_id
  | ev_delete_order i _ _ => i = option_id
  | ev_get_positions _ => True
  | ev_insert_order i _ v side order_type _ =>
      i = option_id /\ 0 < v <= volume /\ order_type = "limit"%string
      /\ (side = "bid"%string \/ side = "ask"%string)
  | ev_print _ => True
  | ev_sleep _ => False
  end.

(** What the trade loop may emit: the book of the stock is the only book it
    queries; trades, orders and deletions concern the options of [OPTIONS],
    never the stock; orders are limit orders of 1 to 3 lots. *)
Definition loop_event (ev : event) : Prop :=
  match ev with
  | ev_get_last_price_book i _ => i = STOCK_ID
  | ev_poll_new_trades i _ => In i (map opt_id OPTIONS) /\ i <> STOCK_ID
  | ev_get_outstanding_orders i _ => In i (map opt_id OPTIONS) /\ i <> STOCK_ID
  | ev_delete_order i _ _ => In i (map opt_id OPTIONS) /\ i <> STOCK_ID
  | ev_get_positions _ => True
  | ev_insert_order i _ v side order_type _ =>
      (In i (map opt_id OPTIONS) /\ i <> STOCK_ID)
      /\ 0 < v <= 3 /\ order_type = "limit"%string
      /\ (side = "bid"%string \/ side = "ask"%string)
  | ev_print _ => True
  | ev_sleep _ => True
  end.

(** The exceptions the script raises by itself, the exchange client apart:
    from rounding a price that is NaN or infinite, and from looking up the
    position of an instrument the exchange does not report. *)
Definition own_exception (e : exn) : Prop :=
  e = ValueError \/ e = OverflowError
  \/ exists k, e = KeyError k /\ (k = STOCK_ID \/ In k (map opt_id OPTIONS)).

Section Invariants.
Context {X : Type} `{Exchange X}.

(** Every event [m] emits satisfies [Q], whatever the exchange answers. *)
Definition always {A : Type} (Q : event -> Prop) (m : M (X := X) A) : Prop :=
  emits m (fun _ es => Forall Q es).

(** When [m] raises, the exception comes from the exchange call it made last
    or satisfies [own]. *)
Definition fails_only {A : Type} (own : exn -> Prop) (m : M (X := X) A)
    : Prop :=
  emits m (fun r es =>
    forall e, r = Raise e -> exchange_raised e es \/ own e).

(** When [m] returns, the sleeps it made satisfy [L]. *)
Definition sleeps_when_done {A : Type} (L : list number -> Prop)
    (m : M (X := X) A) : Prop :=
  emits m (fun r es => forall a, r = Ok a -> L (sleeps es)).

End Invariants.

(** The sleeps of an iteration of the trade loop: 4 seconds when the stock
    has no midpoint; 0.10 seconds after each of the four options and 4
    seconds at the end otherwise. *)
Definition iteration_sleeps (l : list number) : Prop :=
  l = [PyInt 4]
  \/ l = [PyFloat 0.10; PyFloat 0.10; PyFloat 0.10; PyFloat 0.10; PyInt 4].


(** ** The outcomes of [update_quotes], exception by exception *)

(** What the cancel phase may emit. *)
Definition cancel_event (option_id : string) (ev : event) : Prop :=
  match ev with
  | ev_poll_new_trades i _ => i = option_id
  | ev_get_outstanding_orders i _ => i = option_id
  | ev_delete_order i _ _ => i = option_id
  | ev_print _ => True
  | _ => False
  end.

(** The exception of the first price that cannot be computed, the bid price
    first. *)
Definition price_error (theoretical_price credit tick_size : float)
    : option exn :=
  match round_down_to_tick (theoretical_price - credit)%float tick_size with
  | Raise e => Some e
  | Ok _ =>
      match round_up_to_tick (theoretical_price + credit)%float tick_size with
      | Raise e => Some e
      | Ok _ => None
      end
  end.

(** The five ways a run can go: the exchange raises while the run cancels;
    a price cannot be computed; [get_positions] raises; the positions do not
    include the option; or the run reaches the insert phase. *)
Inductive update_quotes_trace (option_id : string)
    (theoretical_price credit : float) (volume position_limit : Z)
    (tick_size : float) : result unit -> list event -> Prop :=
| trace_cancel_raises e es :
    exchange_raised e es ->
    Forall (cancel_event option_id) es ->
    update_quotes_trace option_id theoretical_price credit volume
      position_limit tick_size (Raise e) es
| trace_price_raises trades orders e :
    price_error theoretical_price credit tick_size = Some e ->
    update_quotes_trace option_id theoretical_price credit volume
      position_limit tick_size (Raise e)
      (pull_events option_id trades orders)
| trace_positions_raise trades orders e :
    price_error theoretical_price credit tick_size = None ->
    update_quotes_trace option_id theoretical_price credit volume
      position_limit tick_size (Raise e)
      (pull_events option_id trades orders ++ [ev_get_positions (Raise e)])
| trace_unknown_option trades orders positions e :
    price_error theoretical_price credit tick_size = None ->
    dict_get positions option_id = Raise e ->
    update_quotes_trace option_id theoretical_price credit volume
      position_limit tick_size (Raise (KeyError option_id))
      (pull_events option_id trades orders ++ [ev_get_positions (Ok positions)])
| trace_inserts trades orders bid ask positions position r ins :
    round_down_to_tick (theoretical_price - credit)%float tick_size = Ok bid ->
    round_up_to_tick (theoretical_price + credit)%float tick_size = Ok ask ->
    dict_get positions option_id = Ok position ->
    insert_phase option_id
      (Z.min volume (position_limit - position))
      (Z.min volume (position_limit + position)) bid ask r ins ->
    update_quotes_trace option_id theoretical_price credit volume
      position_limit tick_size r
      (pull_events option_id trades orders
       ++ ev_get_positions (Ok positions) :: ins).

(** ** Positions the exchange reports *)

(** [k in d] *)
Definition has_key {V : Type} (d : dict string V) (k : string) : bool :=
  match dict_get d k with
  | Ok _ => true
  | Raise _ => false
  end.

(** The lines [hedge_delta_position] prints for the options [ids], whose
    positions are [position_of]. *)
Definition option_position_prints (position_of : string -> Z)
    (ids : list string) : list event :=
  map (fun k => ev_print (msg_option_position k (position_of k))) ids.

(** An exchange where the stock trades 74.90 bid, 75.10 ask, nothing is
    outstanding and every option of [OPTIONS] has the position [position]. *)
Definition sim_all_options (position : Z) : sim :=
  {| sim_books :=
       [(STOCK_ID, {| bids := [level 74.90 10; level 74.80 25];
                      asks := [level 75.10 12] |})];
     sim_trades := [];
     sim_orders := [];
     sim_positions :=
       map (fun o => (opt_id o, position)) OPTIONS ++ [(STOCK_ID, 0)];
     sim_next_order_id := 1 |}.

(** ** The volume a run puts into one instrument *)

(** The lots a run has put on one side of the book of one instrument. *)
Fixpoint placed_volume_in (instrument_id side : string) (es : list event) : Z :=
  match es with
  | [] => 0
  | ev_insert_order i _ volume side' _ _ :: es' =>
      (if String.eqb i instrument_id && String.eqb side' side then volume
       else 0)
      + placed_volume_in instrument_id side es'
  | _ :: es' => placed_volume_in instrument_id side es'
  end.

(** Three lots for every entry of [options] that is about [instrument_id]. *)
Fixpoint quota (options : list option_entry) (instrument_id : string) : Z :=
  match options with
  | [] => 0
  | o :: options' =>
      (if String.eqb (opt_id o) instrument_id then 3 else 0)
      + quota options' instrument_id
  end.

Section VolumeInvariants.
Context {X : Type} `{Exchange X}.

(** Whatever the exchange answers, [m] puts at most [bound i] lots on either
    side of the instrument [i], and never a negative number. *)
Definition places_at_most {A : Type} (bound : string -> Z)
    (m : M (X := X) A) : Prop :=
  emits m (fun _ es =>
    forall instrument_id side,
      0 <= placed_volume_in instrument_id side es <= bound instrument_id).

End VolumeInvariants.

(** * Theorems *)

(** ** Rules of the logic of emitted events *)

Section EmitsRules.
Context {X : Type} `{Exchange X}.

Lemma emits_ret {A : Type} (a : A) (P : result A -> list event -> Prop) :
  P (Ok a) [] -> emits (X := X) (ret a) P.
Proof. intros HP x. exact HP. Qed.

Lemma emits_lift {A : Type} (r : result A)
    (P : result A -> list event -> Prop) :
  P r [] -> emits (X := X) (lift r) P.
Proof. intros HP x. exact HP. Qed.

Lemma emits_emit (e : event) (P : result unit -> list event -> Prop) :
  P (Ok tt) [e] -> emits (X := X) (emit e) P.
Proof. intros HP x. exact HP. Qed.

Lemma emits_call {A : Type} (op : X -> result A * X)
    (record : result A -> event) (P : result A -> list event -> Prop) :
  (forall r, P r [record r]) -> emits (call op record) P.
Proof.
  intros HP x. unfold call, result_of, events_of.
  destruct (op x) as [r x1]. apply HP.
Qed.

Lemma emits_bind {A B : Type} (m : M (X := X) A) (f : A -> M (X := X) B)
    (P : result B -> list event -> Prop) :
  emits m (fun r es =>
    match r with
    | Ok a => emits (f a) (fun r' es' => P r' (es ++ es'))
    | Raise e => P (Raise e) es
    end) ->
  emits (bind m f) P.
Proof.
  intros Hm x. specialize (Hm x).
  unfold bind, result_of, events_of in *.
  destruct (m x) as [[[a | e] x1] es1]; simpl in Hm.
  - specialize (Hm x1). unfold result_of, events_of in Hm.
    destruct (f a x1) as [[r x2] es2]. exact Hm.
  - exact Hm.
Qed.

Lemma emits_weaken {A : Type} (m : M (X := X) A)
    (P Q : result A -> list event -> Prop) :
  emits m P -> (forall r es, P r es -> Q r es) -> emits m Q.
Proof. intros Hm HPQ x. apply HPQ, Hm. Qed.

(** A loop whose body only prints never raises and emits one event per item. *)
Lemma emits_for_each_print {A : Type} (l : list A) (g : A -> message) :
  emits (X := X) (for_each l (fun a => print (g a)))
    (fun r es => r = Ok tt /\ es = map (fun a => ev_print (g a)) l).
Proof.
  induction l as [| a l IH]; simpl.
  - apply emits_ret. split; reflexivity.
  - apply emits_bind. apply emits_emit.
    eapply emits_weaken; [exact IH |].
    intros r es [-> ->]. split; reflexivity.
Qed.

End EmitsRules.

(** ** Reading a concatenation of events *)

Lemma inserted_app (es1 es2 : list event) :
  inserted (es1 ++ es2) = inserted es1 ++ inserted es2.
Proof.
  induction es1 as [| e es1 IH]; simpl; [reflexivity |].
  destruct e; simpl; rewrite ?IH; reflexivity.
Qed.

Lemma placed_volume_app (side : string) (es1 es2 : list event) :
  placed_volume side (es1 ++ es2)
  = placed_volume side es1 + placed_volume side es2.
Proof.
  induction es1 as [| e es1 IH]; simpl; [reflexivity |].
  destruct e; simpl; rewrite ?IH; lia.
Qed.

Lemma position_read_app (option_id : string) (es1 es2 : list event) :
  position_read option_id (es1 ++ es2)
  = match position_read option_id es1 with
    | Some p => Some p
    | None => position_read option_id es2
    end.
Proof.
  induction es1 as [| e es1 IH]; simpl; [reflexivity |].
  destruct e; simpl; try exact IH.
  destruct answer as [positions | e]; [| exact IH].
  destruct (dict_get positions option_id); [reflexivity | exact IH].
Qed.

Lemma deleted_app (es1 es2 : list event) :
  deleted (es1 ++ es2) = deleted es1 ++ deleted es2.
Proof.
  induction es1 as [| e es1 IH]; simpl; [reflexivity |].
  destruct e; simpl; rewrite ?IH; try reflexivity.
  destruct answer; simpl; rewrite ?IH; reflexivity.
Qed.

Lemma outstanding_read_app (es1 es2 : list event) :
  outstanding_read (es1 ++ es2) = outstanding_read es1 ++ outstanding_read es2.
Proof.
  induction es1 as [| e es1 IH]; simpl; [reflexivity |].
  destruct e; simpl; rewrite ?IH; try reflexivity.
  destruct answer; simpl; rewrite ?IH, ?app_assoc; reflexivity.
Qed.

(** ** What the cancel phase emits *)

Lemma trade_prints_quiet (option_id : string) (trades : list trade) :
  Forall (fun ev => is_trading_call ev = false) (trade_prints option_id trades).
Proof.
  induction trades; simpl; constructor; [reflexivity | assumption].
Qed.

Lemma quiet_no_insert (es : list event) :
  Forall (fun ev => is_trading_call ev = false) es ->
  Forall (fun ev => is_insert ev = false) es.
Proof.
  apply Forall_impl. intros [] Hq; simpl in *; congruence.
Qed.

Lemma quiet_no_position (option_id : string) (es : list event) :
  Forall (fun ev => is_trading_call ev = false) es ->
  position_read option_id es = None.
Proof.
  induction 1 as [| e es He _ IH]; simpl; [reflexivity |].
  destruct e; simpl in *; try exact IH; discriminate.
Qed.

Lemma delete_events_no_insert (option_id : string) (orders : dict Z order) :
  Forall (fun ev => is_insert ev = false) (delete_events option_id orders).
Proof.
  induction orders; simpl; repeat constructor; assumption.
Qed.

Lemma delete_events_no_position (option_id id : string)
    (orders : dict Z order) :
  position_read id (delete_events option_id orders) = None.
Proof. induction orders; simpl; [reflexivity | assumption]. Qed.

Lemma delete_events_deleted (option_id : string) (orders : dict Z order) :
  deleted (delete_events option_id orders) = map fst orders.
Proof. induction orders; simpl; [reflexivity | congruence]. Qed.

Section DeleteLoop.
Context {X : Type} `{Exchange X}.

(** The loop over the outstanding orders deletes them all, in order, or stops
    at the first deletion that raises. *)
Lemma emits_delete_loop (option_id : string) (orders : dict Z order) :
  emits (X := X)
    (for_each orders (fun '(order_id, o) =>
       bind (print (msg_deleting (order_side o) option_id (order_volume o)
                      (order_price o)))
         (fun _ => call (delete_order option_id order_id)
                     (ev_delete_order option_id order_id))))
    (fun r es =>
       match r with
       | Ok _ => es = delete_events option_id orders
       | Raise _ =>
           Forall (fun ev => is_insert ev = false) es
           /\ position_read option_id es = None
       end).
Proof.
  induction orders as [| [order_id o] orders IH]; simpl.
  - apply emits_ret. reflexivity.
  - apply emits_bind, emits_bind, emits_emit, emits_call.
    intros [[] | e]; simpl.
    + eapply emits_weaken; [exact IH |].
      intros [[] | e] es; simpl.
      * intros ->. reflexivity.
      * intros [Hins Hpos]. split; [repeat constructor; assumption | assumption].
    + split; [repeat constructor | reflexivity].
Qed.

End DeleteLoop.

Lemma pull_events_then (option_id : string) (trades : list trade)
    (orders : dict Z order) (tail : list event) :
  ev_poll_new_trades option_id (Ok trades)
  :: trade_prints option_id trades
     ++ ev_get_outstanding_orders option_id (Ok orders)
        :: delete_events option_id orders ++ tail
  = pull_events option_id trades orders ++ tail.
Proof. unfold pull_events. simpl. rewrite <- app_assoc. reflexivity. Qed.

(** Brings the events emitted so far into the form [pull_events ... ++ tail]. *)
Ltac fold_pull :=
  cbv beta; simpl app; rewrite ?app_nil_r;
  match goal with
  | |- context [ev_poll_new_trades ?id (Ok ?t)
                :: map ?f ?t
                   ++ ev_get_outstanding_orders ?id (Ok ?o)
                      :: delete_events ?id ?o ++ ?tail] =>
      change (ev_poll_new_trades id (Ok t)
              :: map f t
                 ++ ev_get_outstanding_orders id (Ok o)
                    :: delete_events id o ++ tail)
        with (ev_poll_new_trades id (Ok t)
              :: trade_prints id t
                 ++ ev_get_outstanding_orders id (Ok o)
                    :: delete_events id o ++ tail);
      rewrite (pull_events_then id t o tail)
  | |- context [ev_poll_new_trades ?id (Ok ?t)
                :: map ?f ?t
                   ++ ev_get_outstanding_orders ?id (Ok ?o)
                      :: delete_events ?id ?o] =>
      change (ev_poll_new_trades id (Ok t)
              :: map f t
                 ++ ev_get_outstanding_orders id (Ok o)
                    :: delete_events id o)
        with (pull_events id t o)
  end.

Section RunShapes.
Context {X : Type} `{Exchange X}.

Lemma insert_phase_emits (option_id : string) (bv av : Z) (bid ask : float) :
  emits (X := X)
    (bind
       (if 0 <? bv then
          bind (print (msg_inserting_bid option_id bv bid))
            (fun _ => call (insert_order option_id bid bv "bid" "limit")
                        (ev_insert_order option_id bid bv "bid" "limit"))
        else ret tt)
       (fun _ =>
          if 0 <? av then
            bind (print (msg_inserting_ask option_id av ask))
              (fun _ => call (insert_order option_id ask av "ask" "limit")
                          (ev_insert_order option_id ask av "ask" "limit"))
          else ret tt))
    (insert_phase option_id bv av bid ask).
Proof.
  apply emits_bind.
  destruct (Z.ltb_spec 0 bv) as [Hb | Hb].
  - apply emits_bind, emits_emit, emits_call.
    intros [[] | e]; simpl.
    + destruct (Z.ltb_spec 0 av) as [Ha | Ha].
      * apply emits_bind, emits_emit, emits_call.
        intros r. apply (ins_both option_id bv av bid ask r Hb Ha).
      * apply emits_ret. apply (ins_bid_only option_id bv av bid ask Hb Ha).
    + apply (ins_bid_raises option_id bv av bid ask e Hb).
  - apply emits_ret.
    destruct (Z.ltb_spec 0 av) as [Ha | Ha].
    + apply emits_bind, emits_emit, emits_call.
      intros r. apply (ins_ask_only option_id bv av bid ask r Hb Ha).
    + apply emits_ret. apply (ins_none option_id bv av bid ask Hb Ha).
Qed.

(** Every run of [update_quotes] has one of the two shapes of
    [update_quotes_run]. *)
Lemma update_quotes_runs (option_id : string)
    (theoretical_price credit : float) (volume position_limit : Z)
    (tick_size : float) :
  emits (X := X)
    (update_quotes option_id theoretical_price credit volume position_limit
       tick_size)
    (update_quotes_run option_id theoretical_price credit volume
       position_limit tick_size).
Proof.
  unfold update_quotes.
  apply emits_bind, emits_call. intros [trades | e].
  2:{ apply run_stops_early; [repeat constructor | reflexivity]. }
  apply emits_bind.
  eapply emits_weaken; [apply emits_for_each_print |].
  intros r es [-> ->].
  apply emits_bind, emits_call. intros [orders | e].
  2:{ apply run_stops_early.
      - constructor; [reflexivity |]. apply Forall_app. split.
        + apply quiet_no_insert, trade_prints_quiet.
        + repeat constructor.
      - simpl. rewrite position_read_app.
        rewrite (quiet_no_position _ _ (trade_prints_quiet option_id trades)).
        reflexivity. }
  apply emits_bind.
  eapply emits_weaken; [apply emits_delete_loop |].
  intros [[] | e] es.
  2:{ intros [Hins Hpos]. apply run_stops_early.
      - constructor; [reflexivity |]. apply Forall_app. split.
        + apply quiet_no_insert, trade_prints_quiet.
        + constructor; [reflexivity | assumption].
      - simpl. rewrite position_read_app.
        rewrite (quiet_no_position _ _ (trade_prints_quiet option_id trades)).
        simpl. exact Hpos. }
  intros ->.
  assert (Hpull_ins : Forall (fun ev => is_insert ev = false)
                        (pull_events option_id trades orders)).
  { constructor; [reflexivity |]. apply Forall_app. split.
    - apply quiet_no_insert, trade_prints_quiet.
    - constructor; [reflexivity | apply delete_events_no_insert]. }
  assert (Hpull_pos : position_read option_id
                        (pull_events option_id trades orders) = None).
  { simpl. rewrite position_read_app.
    rewrite (quiet_no_position _ _ (trade_prints_quiet option_id trades)).
    simpl. apply delete_events_no_position. }
  apply emits_bind, emits_lift.
  destruct (round_down_to_tick (theoretical_price - credit)%float tick_size)
    as [bid | e] eqn:Hbid.
  2:{ fold_pull. apply run_stops_early; assumption. }
  apply emits_bind, emits_lift.
  destruct (round_up_to_tick (theoretical_price + credit)%float tick_size)
    as [ask | e] eqn:Hask.
  2:{ fold_pull. apply run_stops_early; assumption. }
  apply emits_bind, emits_call. intros [positions | e].
  2:{ fold_pull. apply run_stops_early.
      - apply Forall_app. split; [assumption | repeat constructor].
      - rewrite position_read_app, Hpull_pos. reflexivity. }
  apply emits_bind, emits_lift.
  destruct (dict_get positions option_id) as [position | e] eqn:Hposition.
  2:{ fold_pull. apply run_stops_early.
      - apply Forall_app. split; [assumption | repeat constructor].
      - rewrite position_read_app, Hpull_pos. simpl. rewrite Hposition.
        reflexivity. }
  cbv zeta.
  eapply emits_weaken; [apply insert_phase_emits |].
  intros r ins Hins. fold_pull.
  eapply run_inserts; eassumption.
Qed.

End RunShapes.

Lemma no_insert_inserted (es : list event) :
  Forall (fun ev => is_insert ev = false) es -> inserted es = [].
Proof.
  induction 1 as [| e es He _ IH]; simpl; [reflexivity |].
  destruct e; simpl in *; try exact IH; discriminate.
Qed.

Lemma no_insert_placed (side : string) (es : list event) :
  Forall (fun ev => is_insert ev = false) es -> placed_volume side es = 0.
Proof.
  induction 1 as [| e es He _ IH]; simpl; [reflexivity |].
  destruct e; simpl in *; try exact IH; discriminate.
Qed.

Lemma pull_events_no_insert (option_id : string) (trades : list trade)
    (orders : dict Z order) :
  Forall (fun ev => is_insert ev = false) (pull_events option_id trades orders).
Proof.
  constructor; [reflexivity |]. apply Forall_app. split.
  - apply quiet_no_insert, trade_prints_quiet.
  - constructor; [reflexivity | apply delete_events_no_insert].
Qed.

Lemma pull_events_no_position (option_id : string) (trades : list trade)
    (orders : dict Z order) :
  position_read option_id (pull_events option_id trades orders) = None.
Proof.
  simpl. rewrite position_read_app.
  rewrite (quiet_no_position _ _ (trade_prints_quiet option_id trades)).
  simpl. apply delete_events_no_position.
Qed.

Lemma pull_events_deleted (option_id : string) (trades : list trade)
    (orders : dict Z order) :
  deleted (pull_events option_id trades orders) = map fst orders.
Proof.
  unfold pull_events. simpl. rewrite deleted_app. simpl.
  rewrite delete_events_deleted.
  replace (deleted (trade_prints option_id trades)) with (@nil Z);
    [reflexivity |].
  induction trades; simpl; [reflexivity | assumption].
Qed.

Lemma pull_events_outstanding (option_id : string) (trades : list trade)
    (orders : dict Z order) :
  outstanding_read (pull_events option_id trades orders) = map fst orders.
Proof.
  unfold pull_events. simpl. rewrite outstanding_read_app. simpl.
  replace (outstanding_read (trade_prints option_id trades)) with (@nil Z).
  - replace (outstanding_read (delete_events option_id orders)) with (@nil Z).
    + rewrite app_nil_r. reflexivity.
    + induction orders; simpl; [reflexivity | assumption].
  - induction trades; simpl; [reflexivity | assumption].
Qed.

(** The insert phase calls [insert_order] for the bid when the bid volume is
    positive, and then for the ask when the ask volume is positive, unless the
    bid insertion raised. *)
Lemma insert_phase_inserted (option_id : string) (bv av : Z) (bid ask : float)
    (r : result unit) (ins : list event) :
  insert_phase option_id bv av bid ask r ins ->
  let quotes :=
    (if 0 <? bv then [("bid"%string, bv, bid)] else [])
    ++ (if 0 <? av then [("ask"%string, av, ask)] else []) in
  (r = Ok tt -> inserted ins = quotes)
  /\ (exists rest, quotes = inserted ins ++ rest)
  /\ placed_volume "bid" ins = (if 0 <? bv then bv else 0)
  /\ (placed_volume "ask" ins = 0
      \/ 0 < av /\ placed_volume "ask" ins = av)
  /\ Forall (fun ev => is_delete ev = false) ins.
Proof.
  intros Hphase quotes. subst quotes.
  destruct Hphase as [e Hb | Hb Ha | answer Hb Ha | answer Hb Ha | Hb Ha];
    simpl;
    repeat match goal with
    | Hlt : 0 < ?v |- context [0 <? ?v] =>
        rewrite (proj2 (Z.ltb_lt 0 v) Hlt)
    | Hle : ?v <= 0 |- context [0 <? ?v] =>
        rewrite (proj2 (Z.ltb_ge 0 v) Hle)
    end; simpl.
  - split; [discriminate |]. split; [eexists; reflexivity |].
    split; [lia |]. split; [left; reflexivity | repeat constructor].
  - split; [reflexivity |]. split; [exists []; reflexivity |].
    split; [lia |]. split; [left; reflexivity | repeat constructor].
  - split; [reflexivity |]. split; [exists []; reflexivity |].
    split; [lia |]. split; [right; lia | repeat constructor].
  - split; [reflexivity |]. split; [exists []; reflexivity |].
    split; [lia |]. split; [right; lia | repeat constructor].
  - split; [reflexivity |]. split; [exists []; reflexivity |].
    split; [reflexivity |]. split; [left; reflexivity | constructor].
Qed.

(** The run shapes, read off the outcome of a run from any exchange state. *)
Lemma update_quotes_shape {X : Type} {E : Exchange X} (option_id : string)
    (theoretical_price credit : float) (volume position_limit : Z)
    (tick_size : float) (x : X) :
  update_quotes_run option_id theoretical_price credit volume position_limit
    tick_size
    (result_of (update_quotes option_id theoretical_price credit volume
                  position_limit tick_size x))
    (events_of (update_quotes option_id theoretical_price credit volume
                  position_limit tick_size x)).
Proof. apply update_quotes_runs. Qed.

(** ** Sizing against the position limit *)

(** C1: when the position [p] that a run of [update_quotes] reads is within
    the limit, the bid volume it places is at most [position_limit - p], the
    ask volume at most [position_limit + p], and no fills [b] and [a] of the
    placed volumes take [p + b - a] outside the limit. *)
Theorem update_quotes_keeps_position_limit {X : Type} {E : Exchange X}
    (option_id : string) (theoretical_price credit : float)
    (volume position_limit : Z) (tick_size : float) (x : X) (p : Z) :
  let es := events_of (update_quotes option_id theoretical_price credit volume
                         position_limit tick_size x) in
  position_read option_id es = Some p ->
  Z.abs p <= position_limit ->
  placed_volume "bid" es <= position_limit - p
  /\ placed_volume "ask" es <= position_limit + p
  /\ forall b a : Z,
       0 <= b <= placed_volume "bid" es ->
       0 <= a <= placed_volume "ask" es ->
       Z.abs (p + b - a) <= position_limit.
Proof.
  intros es Hread Hlimit. subst es.
  pose proof (update_quotes_shape option_id theoretical_price credit volume
                position_limit tick_size x) as Hrun.
  destruct Hrun as [e es Hno Hnone
                   | trades orders bid ask positions position r ins
                       Hbid Hask Hposition Hphase].
  - rewrite Hnone in Hread. discriminate.
  - rewrite position_read_app, pull_events_no_position in Hread.
    simpl in Hread. rewrite Hposition in Hread.
    injection Hread as ->.
    rewrite !placed_volume_app.
    rewrite !(no_insert_placed _ _ (pull_events_no_insert _ _ _)).
    simpl.
    destruct (insert_phase_inserted _ _ _ _ _ _ _ Hphase)
      as (_ & _ & Hbv & Hav & _).
    rewrite Hbv.
    destruct (Z.ltb_spec 0 (Z.min volume (position_limit - p)));
      destruct Hav as [-> | [Hpos ->]];
      (split; [| split; [| intros b a Hb Ha]]); lia.
Qed.


(** ** Order of the calls *)

(** A loop whose body only prints leaves the exchange alone. *)
Lemma for_each_print_run {X : Type} {E : Exchange X} {A : Type} (l : list A)
    (g : A -> message) (x : X) :
  for_each l (fun a => print (g a)) x
  = (Ok tt, x, map (fun a => ev_print (g a)) l).
Proof.
  induction l as [| a l IH]; [reflexivity |].
  cbn [for_each]. unfold bind at 1. unfold print at 1, emit at 1.
  cbv beta iota. rewrite IH. reflexivity.
Qed.

(** The first calls of a run, with what the exchange answers them: the poll
    of the trades from the state the run starts in, and the query of the
    outstanding orders from the state the poll leaves. *)
Lemma update_quotes_begins {X : Type} {E : Exchange X} (option_id : string)
    (theoretical_price credit : float) (volume position_limit : Z)
    (tick_size : float) (x : X) :
  exists rest,
    events_of (update_quotes option_id theoretical_price credit volume
                 position_limit tick_size x)
    = ev_poll_new_trades option_id (fst (poll_new_trades option_id x))
      :: match fst (poll_new_trades option_id x) with
         | Ok trades =>
             trade_prints option_id trades
             ++ ev_get_outstanding_orders option_id
                  (fst (get_outstanding_orders option_id
                          (snd (poll_new_trades option_id x))))
                :: rest
         | Raise _ => []
         end.
Proof.
  unfold update_quotes. unfold bind at 1. unfold call at 1.
  destruct (poll_new_trades option_id x) as [[trades | e] x1]; cbn [fst snd].
  2:{ exists []. reflexivity. }
  cbv beta iota. unfold bind at 1.
  rewrite (for_each_print_run trades
             (fun t => msg_traded (trade_volume t) option_id (trade_price t)
                         (trade_side t)) x1).
  cbv beta iota. unfold bind at 1. unfold call at 1.
  destruct (get_outstanding_orders option_id x1) as [ro x2]; cbn [fst snd].
  cbv beta iota.
  destruct ro as [orders | e].
  - match goal with
    | |- context [bind ?m ?f x2] => destruct (bind m f x2) as [[r3 x3] es3]
    end.
    exists es3. reflexivity.
  - exists []. reflexivity.
Qed.

(** C5: the events of a run of [update_quotes] split into a part without
    [insert_order] followed by a part without [delete_order]; and when the
    second part inserts, the first part is the whole cancel phase: the poll
    of the trades, the query of the outstanding orders of [option_id], which
    the exchange answers with [orders] from the state the poll left, and then,
    for every order of [orders] in turn, a [delete_order] call that the
    exchange answered without an exception. *)
Theorem update_quotes_cancels_before_inserting {X : Type} {E : Exchange X}
    (option_id : string) (theoretical_price credit : float)
    (volume position_limit : Z) (tick_size : float) (x : X) :
  let es := events_of (update_quotes option_id theoretical_price credit volume
                         position_limit tick_size x) in
  let polled := poll_new_trades option_id x in
  let queried := get_outstanding_orders option_id (snd polled) in
  exists before after : list event,
    es = before ++ after
    /\ Forall (fun ev => is_insert ev = false) before
    /\ Forall (fun ev => is_delete ev = false) after
    /\ (inserted after <> [] ->
        exists trades orders,
          fst polled = Ok trades
          /\ fst queried = Ok orders
          /\ before = pull_events option_id trades orders
          /\ deleted before = map fst orders).
Proof.
  intros es polled queried. subst es polled queried.
  pose proof (update_quotes_shape option_id theoretical_price credit volume
                position_limit tick_size x) as Hrun.
  destruct (update_quotes_begins option_id theoretical_price credit volume
              position_limit tick_size x) as [rest Hbegin].
  destruct Hrun as [e es Hno Hnone
                   | trades orders bid ask positions p r ins
                       Hbid Hask Hposition Hphase].
  - exists es, []. rewrite app_nil_r.
    split; [reflexivity |]. split; [assumption |].
    split; [constructor |]. intros Hins. contradiction Hins. reflexivity.
  - exists (pull_events option_id trades orders),
      (ev_get_positions (Ok positions) :: ins).
    split; [reflexivity |]. split; [apply pull_events_no_insert |].
    split.
    + constructor; [reflexivity |].
      apply (insert_phase_inserted _ _ _ _ _ _ _ Hphase).
    + intros _. exists trades, orders.
      unfold pull_events in Hbegin. cbn [app] in Hbegin.
      injection Hbegin as Hpoll Htail.
      rewrite <- Hpoll in Htail. rewrite <- app_assoc in Htail.
      apply app_inv_head in Htail. cbn [app] in Htail.
      injection Htail as Hquery _.
      split; [symmetry; exact Hpoll |]. split; [symmetry; exact Hquery |].
      split; [reflexivity | apply pull_events_deleted].
Qed.

Section CancelExample.
Local Open Scope float_scope.

(** A run at position 0 on the exchange with two outstanding orders: before
    anything else, the fill is reported and the orders 1 and 2 are deleted. *)
Lemma update_quotes_cancels_before_inserting_example :
  exists after,
    events_of (update_quotes EXAMPLE_OPTION 10 0.15 3 100 0.10 (sim_quoted 0))
    = pull_events EXAMPLE_OPTION
        [{| trade_volume := 3; trade_price := 9.8; trade_side := "bid" |}]
        [(1%Z, {| order_side := "bid"; order_volume := 3;
                  order_price := 9.8 |});
         (2%Z, {| order_side := "ask"; order_volume := 3;
                  order_price := 10.2 |})]
      ++ after
    /\ Forall (fun ev => is_delete ev = false) after.
Proof.
  destruct (update_quotes_cancels_before_inserting (E := sim_exchange)
              EXAMPLE_OPTION 10 0.15 3 100 0.10 (sim_quoted 0))
    as (before & after & Hes & Hno_insert & Hno_delete & Hcancel).
  assert (Hins : inserted after <> []).
  { intros Hnil.
    pose proof (inserted_app before after) as Happ.
    rewrite <- Hes, (no_insert_inserted _ Hno_insert), Hnil in Happ.
    vm_compute in Happ. discriminate Happ. }
  destruct (Hcancel Hins) as (trades & orders & Hp & Hq & Hb & _).
  vm_compute in Hp. injection Hp as <-.
  vm_compute in Hq. injection Hq as <-.
  exists after. split; [| exact Hno_delete].
  rewrite Hes, Hb. reflexivity.
Defined.

End CancelExample.

(** C10: a run of [update_quotes] calls [insert_order] at most twice: not at
    all, once for a bid, once for an ask, or for a bid and then an ask. *)
Theorem update_quotes_inserts_at_most_bid_then_ask {X : Type} {E : Exchange X}
    (option_id : string) (theoretical_price credit : float)
    (volume position_limit : Z) (tick_size : float) (x : X) :
  let es := events_of (update_quotes option_id theoretical_price credit volume
                         position_limit tick_size x) in
  exists (bid_volume ask_volume : Z) (bid_price ask_price : float),
    inserted es = []
    \/ inserted es = [("bid"%string, bid_volume, bid_price)]
    \/ inserted es = [("ask"%string, ask_volume, ask_price)]
    \/ inserted es = [("bid"%string, bid_volume, bid_price);
                      ("ask"%string, ask_volume, ask_price)].
Proof.
  intros es. subst es.
  pose proof (update_quotes_shape option_id theoretical_price credit volume
                position_limit tick_size x) as Hrun.
  destruct Hrun as [e es Hno Hnone
                   | trades orders bid ask positions p r ins
                       Hbid Hask Hposition Hphase].
  - exists 0, 0, 0%float, 0%float. left.
    apply no_insert_inserted. assumption.
  - exists (Z.min volume (position_limit - p)),
      (Z.min volume (position_limit + p)), bid, ask.
    rewrite inserted_app.
    rewrite (no_insert_inserted _ (pull_events_no_insert _ _ _)).
    simpl.
    destruct Hphase; simpl; auto.
Qed.

(** At a position of 98 under a limit of 100: the bid is for 2, the ask for
    3, and no fills leave the limit. *)
Lemma update_quotes_keeps_position_limit_example :
  let es := events_of (update_quotes EXAMPLE_OPTION 10 0.15 3 100 0.10
                         (sim_quoted 98)) in
  placed_volume "bid" es <= 100 - 98
  /\ placed_volume "ask" es <= 100 + 98
  /\ forall b a : Z,
       0 <= b <= placed_volume "bid" es ->
       0 <= a <= placed_volume "ask" es ->
       Z.abs (98 + b - a) <= 100.
Proof.
  apply (update_quotes_keeps_position_limit (E := sim_exchange)
           EXAMPLE_OPTION 10 0.15 3 100 0.10 (sim_quoted 98) 98).
  - vm_compute. reflexivity.
  - lia.
Defined.


(** ** Market data *)

(** C6: when the exchange hands out a book, [get_midpoint_value] returns the
    mean of the best bid and the best ask if both sides have a level, and
    [None] otherwise (no book, no bids or no asks); it does not raise. *)
Theorem get_midpoint_value_book {X : Type} {E : Exchange X}
    (instrument_id : string) (x x1 : X) (book : option price_book) :
  get_last_price_book instrument_id x = (Ok book, x1) ->
  (forall b bs a aa,
      book = Some {| bids := b :: bs; asks := a :: aa |} ->
      result_of (get_midpoint_value instrument_id x)
      = Ok (Some ((pv_price b + pv_price a) / 2)%float))
  /\ (book = None
      \/ (exists ob, book = Some ob /\ (bids ob = [] \/ asks ob = [])) ->
      result_of (get_midpoint_value instrument_id x) = Ok None).
Proof.
  intros Hbook.
  unfold get_midpoint_value, bind, call, result_of. rewrite Hbook.
  split.
  - intros b bs a aa ->. reflexivity.
  - intros [-> | (ob & -> & [Hside | Hside])]; [reflexivity | |].
    + rewrite Hside. reflexivity.
    + rewrite Hside. destruct (bids ob); reflexivity.
Qed.

(** Best bid 74.90 and best ask 75.10 give 75.00; a book without asks gives
    [None]. *)
Lemma get_midpoint_value_examples :
  result_of (get_midpoint_value STOCK_ID (sim_quoted 0)) = Ok (Some 75%float)
  /\ result_of (get_midpoint_value STOCK_ID sim_no_asks) = Ok None.
Proof.
  split.
  - apply (proj1 (get_midpoint_value_book (E := sim_exchange) STOCK_ID (sim_quoted 0)
                    (sim_quoted 0)
                    (Some {| bids := [level 74.90 10; level 74.80 25];
                             asks := [level 75.10 12] |})
                    (eq_refl _))
             (level 74.90 10) [level 74.80 25] (level 75.10 12) []).
    reflexivity.
  - refine (proj2 (get_midpoint_value_book (E := sim_exchange) STOCK_ID sim_no_asks sim_no_asks
                     (Some {| bids := [level 74.90 10]; asks := [] |})
                     (eq_refl _)) _).
    right. eexists. split; [reflexivity |]. right. reflexivity.
Defined.

(** ** Pricing *)

(** C7: [calculate_theoretical_option_value] calls [call_value] for ['call'],
    [put_value] for ['put'], and raises the exception of its last branch
    exactly for any other string; [calculate_option_delta] does the same with
    [call_delta] and [put_delta]. *)
Theorem pricing_dispatches_on_callput
    (calculate_current_time_to_date : datetime -> float)
    (call_value put_value call_delta put_delta :
       float -> number -> float -> float -> float -> float)
    (expiry_date : datetime) (strike : number) (callput : string)
    (stock_value interest_rate volatility : float) :
  let value :=
    calculate_theoretical_option_value calculate_current_time_to_date
      call_value put_value expiry_date strike callput stock_value
      interest_rate volatility in
  let delta :=
    calculate_option_delta calculate_current_time_to_date
      call_delta put_delta expiry_date strike callput stock_value
      interest_rate volatility in
  let time_to_expiry := calculate_current_time_to_date expiry_date in
  (callput = "call"%string ->
     value = Ok (call_value stock_value strike time_to_expiry interest_rate
                   volatility)
     /\ delta = Ok (call_delta stock_value strike time_to_expiry interest_rate
                      volatility))
  /\ (callput = "put"%string ->
        value = Ok (put_value stock_value strike time_to_expiry interest_rate
                      volatility)
        /\ delta = Ok (put_delta stock_value strike time_to_expiry
                         interest_rate volatility))
  /\ (raises value <-> callput <> "call"%string /\ callput <> "put"%string)
  /\ (raises delta <-> callput <> "call"%string /\ callput <> "put"%string)
  /\ (callput <> "call"%string -> callput <> "put"%string ->
        value = Raise (Exception (unexpected_callput callput))
        /\ delta = Raise (Exception (unexpected_callput callput))).
Proof.
  intros value delta time_to_expiry. subst value delta time_to_expiry.
  unfold calculate_theoretical_option_value, calculate_option_delta, raises.
  destruct (String.eqb_spec callput "call") as [-> | Hcall];
    [| destruct (String.eqb_spec callput "put") as [-> | Hput]];
    simpl; repeat split;
    solve [ intros; congruence
          | intros [e He]; discriminate
          | intros [Hc Hp]; congruence
          | intros; eexists; reflexivity
          | match goal with
            | Hr : exists _, _ |- _ => destruct Hr; discriminate
            end ].
Qed.

(** ** The trade loop *)

(** C8: when the stock has no midpoint, an iteration of the loop makes one
    call, the query of the stock's book, prints, sleeps 4 seconds and ends
    normally: it polls no trades, reads no orders or positions, deletes and
    inserts nothing, and the next iteration starts from the exchange state
    that query left. *)
Theorem trade_loop_skips_without_midpoint {X : Type} {E : Exchange X}
    (calculate_current_time_to_date : datetime -> float)
    (call_value put_value : float -> number -> float -> float -> float -> float)
    (x : X) :
  result_of (get_midpoint_value STOCK_ID x) = Ok None ->
  let book := fst (get_last_price_book STOCK_ID x) in
  let x1 := snd (get_last_price_book STOCK_ID x) in
  let es := [ev_print msg_blank; ev_print msg_rule;
             ev_print msg_iteration_entered; ev_print msg_rule;
             ev_get_last_price_book STOCK_ID book;
             ev_print msg_empty_stock_book; ev_sleep (PyInt 4)] in
  trade_loop_iteration calculate_current_time_to_date call_value put_value x
  = (Ok tt, x1, es)
  /\ Forall (fun ev => is_trading_call ev = false) es
  /\ forall n : nat,
       trade_loop calculate_current_time_to_date call_value put_value (S n) x
       = let '(r, x2, es') :=
           trade_loop calculate_current_time_to_date call_value put_value n x1
         in (r, x2, es ++ es').
Proof.
  intros Hnone book x1 es. subst book x1 es.
  assert (Hiter :
    trade_loop_iteration calculate_current_time_to_date call_value put_value x
    = (Ok tt, snd (get_last_price_book STOCK_ID x),
       [ev_print msg_blank; ev_print msg_rule;
        ev_print msg_iteration_entered; ev_print msg_rule;
        ev_get_last_price_book STOCK_ID (fst (get_last_price_book STOCK_ID x));
        ev_print msg_empty_stock_book; ev_sleep (PyInt 4)])).
  { unfold trade_loop_iteration.
    unfold get_midpoint_value, bind, call, result_of, print, emit in *.
    simpl in *.
    destruct (get_last_price_book STOCK_ID x) as [[[book |] | e] x1];
      simpl in *; try discriminate; try reflexivity.
    destruct (truthy (bids book) && truthy (asks book)); simpl in *;
      [| reflexivity].
    destruct (first_item (bids book)); simpl in *; [| discriminate].
    destruct (first_item (asks book)); simpl in *; discriminate. }
  split; [exact Hiter |]. split; [repeat constructor |].
  intros n. simpl trade_loop. unfold bind at 1. rewrite Hiter. reflexivity.
Qed.

(** An iteration on the exchange where nobody offers the stock. *)
Lemma trade_loop_skips_without_midpoint_example :
  trade_loop_iteration (fun _ => 0.05%float)
    (fun _ _ _ _ _ => 10%float) (fun _ _ _ _ _ => 10%float) sim_no_asks
  = (Ok tt, sim_no_asks,
     [ev_print msg_blank; ev_print msg_rule;
      ev_print msg_iteration_entered; ev_print msg_rule;
      ev_get_last_price_book STOCK_ID
        (Ok (Some {| bids := [level 74.90 10]; asks := [] |}));
      ev_print msg_empty_stock_book; ev_sleep (PyInt 4)]).
Proof.
  exact (proj1 (trade_loop_skips_without_midpoint (E := sim_exchange) (fun _ => 0.05%float)
                  (fun _ _ _ _ _ => 10%float) (fun _ _ _ _ _ => 10%float)
                  sim_no_asks eq_refl)).
Defined.

(** ** Tick rounding in exact arithmetic *)

Section ExactTicks.
Local Open Scope Q_scope.

Lemma exact_round_down_to_tick_eq (price tick_size : Q) :
  0 < tick_size ->
  round_down_to_tick price tick_size
  = Ok (inject_Z (Qfloor (price / tick_size)) * tick_size).
Proof.
  intros Ht. unfold round_down_to_tick. simpl. unfold Q_truediv.
  destruct (Qeq_bool tick_size 0) eqn:Hz; [| reflexivity].
  apply Qeq_bool_iff in Hz. rewrite Hz in Ht. discriminate.
Qed.

Lemma exact_round_up_to_tick_eq (price tick_size : Q) :
  0 < tick_size ->
  round_up_to_tick price tick_size
  = Ok (inject_Z (Qceiling (price / tick_size)) * tick_size).
Proof.
  intros Ht. unfold round_up_to_tick. simpl. unfold Q_truediv.
  destruct (Qeq_bool tick_size 0) eqn:Hz; [| reflexivity].
  apply Qeq_bool_iff in Hz. rewrite Hz in Ht. discriminate.
Qed.

Lemma Qdiv_tick (price tick_size : Q) :
  0 < tick_size -> price / tick_size * tick_size == price.
Proof.
  intros Ht. rewrite Qmult_comm. apply Qmult_div_r.
  intros Hz. rewrite Hz in Ht. discriminate.
Qed.

Lemma floor_tick_le (price tick_size : Q) :
  0 < tick_size ->
  inject_Z (Qfloor (price / tick_size)) * tick_size <= price.
Proof.
  intros Ht. rewrite <- (Qdiv_tick price tick_size Ht) at 2.
  apply Qmult_le_compat_r; [apply Qfloor_le | apply Qlt_le_weak, Ht].
Qed.

Lemma floor_tick_lt (price tick_size : Q) :
  0 < tick_size ->
  price < inject_Z (Qfloor (price / tick_size)) * tick_size + tick_size.
Proof.
  intros Ht. rewrite <- (Qdiv_tick price tick_size Ht) at 1.
  setoid_replace (inject_Z (Qfloor (price / tick_size)) * tick_size + tick_size)
    with (inject_Z (Qfloor (price / tick_size) + 1) * tick_size)
    by (rewrite inject_Z_plus; ring).
  apply Qmult_lt_compat_r; [exact Ht | apply Qlt_floor].
Qed.

Lemma ceiling_tick_ge (price tick_size : Q) :
  0 < tick_size ->
  price <= inject_Z (Qceiling (price / tick_size)) * tick_size.
Proof.
  intros Ht. rewrite <- (Qdiv_tick price tick_size Ht) at 1.
  apply Qmult_le_compat_r; [apply Qle_ceiling | apply Qlt_le_weak, Ht].
Qed.

Lemma ceiling_tick_gt (price tick_size : Q) :
  0 < tick_size ->
  inject_Z (Qceiling (price / tick_size)) * tick_size - tick_size < price.
Proof.
  intros Ht. rewrite <- (Qdiv_tick price tick_size Ht) at 2.
  setoid_replace (inject_Z (Qceiling (price / tick_size)) * tick_size - tick_size)
    with (inject_Z (Qceiling (price / tick_size) - 1) * tick_size)
    by (unfold Z.sub; rewrite inject_Z_plus; simpl; ring).
  apply Qmult_lt_compat_r; [exact Ht | apply Qceiling_lt].
Qed.

Lemma multiple_le_floor_tick (price tick_size : Q) (n : Z) :
  0 < tick_size ->
  inject_Z n * tick_size <= price ->
  inject_Z n * tick_size
  <= inject_Z (Qfloor (price / tick_size)) * tick_size.
Proof.
  intros Ht Hn.
  apply Qmult_le_compat_r; [| apply Qlt_le_weak, Ht].
  rewrite <- Zle_Qle. rewrite <- (Qfloor_Z n).
  apply Qfloor_resp_le. apply Qle_shift_div_l; assumption.
Qed.

Lemma multiple_ge_ceiling_tick (price tick_size : Q) (n : Z) :
  0 < tick_size ->
  price <= inject_Z n * tick_size ->
  inject_Z (Qceiling (price / tick_size)) * tick_size
  <= inject_Z n * tick_size.
Proof.
  intros Ht Hn.
  apply Qmult_le_compat_r; [| apply Qlt_le_weak, Ht].
  rewrite <- Zle_Qle. rewrite <- (Qceiling_Z n).
  apply Qceiling_resp_le. apply Qle_shift_div_r; assumption.
Qed.

(** In exact arithmetic [round_down_to_tick] returns the largest multiple of
    the tick that is at most the price, and [round_up_to_tick] the smallest
    multiple that is at least the price. *)
Theorem exact_tick_rounding_contract (price tick_size : Q) :
  0 < tick_size ->
  exists down up : Q,
    round_down_to_tick price tick_size = Ok down
    /\ round_up_to_tick price tick_size = Ok up
    /\ (exists n : Z, down == inject_Z n * tick_size)
    /\ down <= price < down + tick_size
    /\ (forall n : Z, inject_Z n * tick_size <= price ->
          inject_Z n * tick_size <= down)
    /\ (exists n : Z, up == inject_Z n * tick_size)
    /\ up - tick_size < price <= up
    /\ (forall n : Z, price <= inject_Z n * tick_size ->
          up <= inject_Z n * tick_size).
Proof.
  intros Ht.
  exists (inject_Z (Qfloor (price / tick_size)) * tick_size),
    (inject_Z (Qceiling (price / tick_size)) * tick_size).
  split; [apply exact_round_down_to_tick_eq, Ht |].
  split; [apply exact_round_up_to_tick_eq, Ht |].
  split; [eexists; reflexivity |].
  split; [split; [apply floor_tick_le | apply floor_tick_lt]; exact Ht |].
  split; [intros n; apply multiple_le_floor_tick, Ht |].
  split; [eexists; reflexivity |].
  split; [split; [apply ceiling_tick_gt | apply ceiling_tick_ge]; exact Ht |].
  intros n. apply multiple_ge_ceiling_tick, Ht.
Qed.

(** The price 0.97 on a tick of 0.10, as exact fractions. *)
Lemma exact_tick_rounding_contract_example :
  exists down up : Q,
    round_down_to_tick (97 # 100) (1 # 10) = Ok down
    /\ round_up_to_tick (97 # 100) (1 # 10) = Ok up
    /\ (exists n : Z, down == inject_Z n * (1 # 10))
    /\ down <= 97 # 100 < down + (1 # 10)
    /\ (forall n : Z, inject_Z n * (1 # 10) <= 97 # 100 ->
          inject_Z n * (1 # 10) <= down)
    /\ (exists n : Z, up == inject_Z n * (1 # 10))
    /\ up - (1 # 10) < 97 # 100 <= up
    /\ (forall n : Z, 97 # 100 <= inject_Z n * (1 # 10) ->
          up <= inject_Z n * (1 # 10)).
Proof.
  apply (exact_tick_rounding_contract (97 # 100) (1 # 10)). reflexivity.
Defined.

(** In exact arithmetic rounding down twice is rounding down once. *)
Theorem exact_round_down_idempotent (x t : Q) :
  0 < t ->
  exists once twice : Q,
    round_down_to_tick x t = Ok once
    /\ round_down_to_tick once t = Ok twice
    /\ twice == once.
Proof.
  intros Ht.
  exists (inject_Z (Qfloor (x / t)) * t),
    (inject_Z (Qfloor (inject_Z (Qfloor (x / t)) * t / t)) * t).
  split; [apply exact_round_down_to_tick_eq, Ht |].
  split; [apply exact_round_down_to_tick_eq, Ht |].
  assert (Hq : inject_Z (Qfloor (x / t)) * t / t == inject_Z (Qfloor (x / t))).
  { apply Qdiv_mult_l. intros Hz. rewrite Hz in Ht. discriminate. }
  rewrite Hq, Qfloor_Z. reflexivity.
Qed.

(** The price 8.2 on a tick of 0.1, as exact fractions. *)
Lemma exact_round_down_idempotent_example :
  exists once twice : Q,
    round_down_to_tick (82 # 10) (1 # 10) = Ok once
    /\ round_down_to_tick once (1 # 10) = Ok twice
    /\ twice == once.
Proof.
  apply (exact_round_down_idempotent (82 # 10) (1 # 10)). reflexivity.
Defined.

(** In exact arithmetic a positive credit over a positive tick puts the bid
    price at or below the ask price. *)
Theorem exact_bid_le_ask (theoretical_price credit tick_size : Q) :
  0 < credit -> 0 < tick_size ->
  exists bid_price ask_price : Q,
    round_down_to_tick (theoretical_price - credit) tick_size = Ok bid_price
    /\ round_up_to_tick (theoretical_price + credit) tick_size = Ok ask_price
    /\ bid_price <= ask_price.
Proof.
  intros Hc Ht.
  eexists. eexists.
  split; [apply exact_round_down_to_tick_eq, Ht |].
  split; [apply exact_round_up_to_tick_eq, Ht |].
  apply Qle_trans with (theoretical_price - credit);
    [apply floor_tick_le, Ht |].
  apply Qle_trans with (theoretical_price + credit);
    [| apply ceiling_tick_ge, Ht].
  apply Qplus_le_r. apply Qle_trans with 0.
  - apply (Qopp_le_compat 0 credit). apply Qlt_le_weak, Hc.
  - apply Qlt_le_weak, Hc.
Qed.

(** A price of 10 with a credit of 0.15 on a tick of 0.10, as exact
    fractions. *)
Lemma exact_bid_le_ask_example :
  exists bid_price ask_price : Q,
    round_down_to_tick ((10 # 1) - (15 # 100)) (1 # 10) = Ok bid_price
    /\ round_up_to_tick ((10 # 1) + (15 # 100)) (1 # 10) = Ok ask_price
    /\ bid_price <= ask_price.
Proof.
  apply (exact_bid_le_ask (10 # 1) (15 # 100) (1 # 10)); reflexivity.
Defined.

End ExactTicks.

(** ** Tick rounding in binary64 *)

Section FloatTicks.
Local Open Scope float_scope.

(** The examples of the docstrings: 0.97 goes down to 0.90, but 1.34 goes up
    to the float after 1.40. *)
Lemma docstring_examples_binary64 :
  round_down_to_tick 0.97 0.10 = Ok 0.90
  /\ round_up_to_tick 1.34 0.10 = Ok 1.4000000000000001
  /\ (1.4000000000000001 =? 1.40) = false.
Proof. repeat split; vm_compute; reflexivity. Qed.

(** C4: on floats the contract of the tick-rounding functions fails:
    [round_down_to_tick(1.7, 0.1)] is above 1.7, [round_down_to_tick(0.6, 0.1)]
    is [0.5] with [0.5 + 0.1] not above 0.6, and
    [round_up_to_tick(0.9000000000000001, 0.1)] is below its argument. *)
Theorem tick_rounding_contract_fails_binary64 :
  round_down_to_tick 1.7 0.1 = Ok 1.7000000000000002
  /\ (1.7000000000000002 <=? 1.7) = false
  /\ round_down_to_tick 0.6 0.1 = Ok 0.5
  /\ (0.6 <? 0.5 + 0.1) = false
  /\ round_up_to_tick 0.9000000000000001 0.1 = Ok 0.9
  /\ (0.9000000000000001 <=? 0.9) = false.
Proof. repeat split; vm_compute; reflexivity. Qed.

(** C9: on floats rounding down twice is not rounding down once:
    8.2 goes to 8.1, and 8.1 goes to 8.0. *)
Theorem round_down_not_idempotent_binary64 :
  round_down_to_tick 8.2 0.1 = Ok 8.1
  /\ round_down_to_tick 8.1 0.1 = Ok 8.0
  /\ (8.0 =? 8.1) = false.
Proof. repeat split; vm_compute; reflexivity. Qed.

(** C3 as stated fails: an infinite tick is positive, and makes both prices
    NaN, which is not below or equal to itself. *)
Lemma bid_not_le_ask_infinite_tick :
  (0 <? 0.15) = true
  /\ (0 <? infinity) = true
  /\ round_down_to_tick (10 - 0.15) infinity = Ok nan
  /\ round_up_to_tick (10 + 0.15) infinity = Ok nan
  /\ ~ float_le nan nan.
Proof.
  repeat split; try (vm_compute; reflexivity).
  unfold float_le. vm_compute. discriminate.
Qed.

End FloatTicks.

Section ShiftRecords.
Local Open Scope Z_scope.

(** ** Rounding in [SpecFloat]: the integer side *)

Lemma digits2_pos_size (p : positive) : digits2_pos p = Pos.size p.
Proof. induction p; simpl; congruence. Qed.

Lemma Zdigits2_bounds (m : Z) :
  0 < m -> 2 ^ (Zdigits2 m - 1) <= m < 2 ^ Zdigits2 m.
Proof.
  destruct m as [| p | p]; try lia. intros _.
  change (Zdigits2 (Z.pos p)) with (Z.pos (digits2_pos p)).
  rewrite digits2_pos_size.
  pose proof (Pos.size_gt p) as Hgt. pose proof (Pos.size_le p) as Hle.
  apply Pos2Z.pos_lt_pos in Hgt. apply Pos2Z.pos_le_pos in Hle.
  rewrite Pos2Z.inj_pow in Hgt, Hle.
  split; [| exact Hgt].
  replace (Z.pos (Pos.size p)) with (Z.succ (Z.pos (Pos.size p) - 1)) in Hle
    by lia.
  rewrite Z.pow_succ_r in Hle by lia.
  change (Z.pos p~0) with (2 * Z.pos p) in Hle. lia.
Qed.

Lemma Zdigits2_nonneg (m : Z) : 0 <= Zdigits2 m.
Proof. destruct m; simpl; lia. Qed.

(** The number of digits is fixed by the binade. *)
Lemma Zdigits2_unique (m d : Z) :
  2 ^ (d - 1) <= m < 2 ^ d -> 0 < m -> 0 < d -> Zdigits2 m = d.
Proof.
  intros [Hlo Hhi] Hm Hd.
  pose proof (Zdigits2_bounds m Hm) as [Hlo' Hhi'].
  pose proof (Zdigits2_nonneg m) as Hn.
  assert (Hd1 : ~ Zdigits2 m < d).
  { intros Hlt.
    assert (2 ^ Zdigits2 m <= 2 ^ (d - 1)) by (apply Z.pow_le_mono_r; lia).
    lia. }
  assert (Hd2 : ~ d < Zdigits2 m).
  { intros Hlt.
    assert (2 ^ d <= 2 ^ (Zdigits2 m - 1)) by (apply Z.pow_le_mono_r; lia).
    lia. }
  lia.
Qed.


Lemma shr_1_fields (m : Z) (r s : bool) :
  0 <= m ->
  shr_1 {| shr_m := m; shr_r := r; shr_s := s |}
  = {| shr_m := m / 2; shr_r := Z.odd m; shr_s := r || s |}.
Proof.
  intros Hm. destruct m as [| p | p]; [reflexivity | | lia].
  destruct p as [p | p |]; simpl.
  - f_equal. rewrite Pos2Z.inj_xI.
    apply Z.div_unique with 1; lia.
  - f_equal. rewrite Pos2Z.inj_xO.
    apply Z.div_unique with 0; lia.
  - reflexivity.
Qed.

Lemma shr_1_rec_of (a B : Z) :
  0 <= a -> 0 < B -> shr_1 (rec_of a B) = rec_of a (2 * B).
Proof.
  intros Ha HB. unfold rec_of.
  rewrite shr_1_fields by (apply Z.div_pos; lia).
  assert (Hq : a / (2 * B) = a / B / 2).
  { rewrite (Z.mul_comm 2 B). symmetry. apply Z.div_div; lia. }
  assert (Hr : a mod (2 * B) = a mod B + B * ((a / B) mod 2)).
  { rewrite (Z.mul_comm 2 B). apply Z.rem_mul_r; lia. }
  pose proof (Z.mod_pos_bound a B HB) as Hrem.
  pose proof (Z.mod_pos_bound (a / B) 2 ltac:(lia)) as Hbit.
  rewrite Hq, Hr. f_equal.
  - rewrite Zodd_mod.
    assert (Hb : (a / B) mod 2 = 0 \/ (a / B) mod 2 = 1) by lia.
    destruct Hb as [-> | ->]; simpl Z.eqb; cbv iota;
      symmetry; [apply Z.leb_gt | apply Z.leb_le]; lia.
  - assert (Hs : (B <=? 2 * (a mod B))
                 || negb (a mod B =? 0) && negb (2 * (a mod B) =? B)
                 = negb (a mod B =? 0)).
    { destruct (Z.leb_spec B (2 * (a mod B)));
        destruct (Z.eqb_spec (a mod B) 0);
        destruct (Z.eqb_spec (2 * (a mod B)) B); simpl; try reflexivity; lia. }
    rewrite Hs.
    destruct (Z.eqb_spec (a mod B) 0) as [H0 | H0]; cbn [negb].
    + rewrite H0. symmetry. apply andb_false_iff.
      assert (Hb : (a / B) mod 2 = 0 \/ (a / B) mod 2 = 1) by lia.
      destruct Hb as [-> | ->].
      * left. rewrite Z.mul_0_r. reflexivity.
      * right. apply negb_false_iff, Z.eqb_eq. lia.
    + symmetry. apply andb_true_iff.
      assert (Hb : (a / B) mod 2 = 0 \/ (a / B) mod 2 = 1) by lia.
      destruct Hb as [-> | ->];
        split; apply negb_true_iff, Z.eqb_neq; lia.
Qed.

Lemma iter_pos_nat {A : Type} (f : A -> A) (p : positive) (x : A) :
  SpecFloat.iter_pos f p x = Nat.iter (Pos.to_nat p) f x.
Proof.
  revert x. induction p as [p IH | p IH |]; intros x; cbn [SpecFloat.iter_pos].
  - rewrite !IH, Pos2Nat.inj_xI.
    replace (S (2 * Pos.to_nat p)) with (Pos.to_nat p + S (Pos.to_nat p))%nat
      by lia.
    rewrite Nat.iter_add. f_equal.
    rewrite Nat.iter_succ_r. reflexivity.
  - rewrite !IH, Pos2Nat.inj_xO.
    replace (2 * Pos.to_nat p)%nat with (Pos.to_nat p + Pos.to_nat p)%nat
      by lia.
    rewrite Nat.iter_add. reflexivity.
  - reflexivity.
Qed.

Lemma iter_shr_1_rec_of (n : nat) (a B : Z) :
  0 <= a -> 0 < B ->
  Nat.iter n shr_1 (rec_of a B) = rec_of a (B * 2 ^ Z.of_nat n).
Proof.
  intros Ha HB. induction n as [| n IH].
  - simpl. rewrite Z.mul_1_r. reflexivity.
  - rewrite Nat2Z.inj_succ, Z.pow_succ_r by lia.
    rewrite Nat.iter_succ, IH.
    rewrite shr_1_rec_of by (try apply Z.mul_pos_pos; lia).
    f_equal. ring.
Qed.

(** Shifting the record of [a / B] right by [n] bits ([n] of any sign). *)
Lemma shr_rec_of (a B e n : Z) :
  0 <= a -> 0 < B ->
  shr (rec_of a B) e n = (rec_of a (B * 2 ^ Z.max n 0), e + Z.max n 0).
Proof.
  intros Ha HB. unfold shr. destruct n as [| p | p]; simpl Z.max.
  - rewrite Z.mul_1_r, Z.add_0_r. reflexivity.
  - rewrite iter_pos_nat, iter_shr_1_rec_of, positive_nat_Z by assumption.
    reflexivity.
  - rewrite Z.mul_1_r, Z.add_0_r. reflexivity.
Qed.

End ShiftRecords.

Section Format.
Local Open Scope R_scope.

(** ** Binary64 as a set of reals *)


Lemma pow2_pos (e : Z) : 0 < pow2 e.
Proof. apply powerRZ_lt. lra. Qed.

Lemma pow2_add (e1 e2 : Z) : pow2 (e1 + e2) = pow2 e1 * pow2 e2.
Proof. apply powerRZ_add. lra. Qed.

Lemma pow2_IZR (k : Z) : (0 <= k)%Z -> pow2 k = IZR (2 ^ k).
Proof.
  intros Hk. unfold pow2.
  rewrite <- (Z2Nat.id k Hk) at 1. rewrite <- pow_powerRZ.
  rewrite <- (Z2Nat.id k Hk) at 2. rewrite <- Zpower_nat_Z.
  generalize (Z.to_nat k). intros n. induction n as [| n IH].
  - reflexivity.
  - rewrite Zpower_nat_succ_r, mult_IZR, <- IH. reflexivity.
Qed.

Lemma pow2_le (e1 e2 : Z) : (e1 <= e2)%Z -> pow2 e1 <= pow2 e2.
Proof.
  intros He. replace e2 with (e1 + (e2 - e1))%Z by lia.
  rewrite pow2_add, (pow2_IZR (e2 - e1)) by lia.
  assert (1 <= IZR (2 ^ (e2 - e1))).
  { apply IZR_le. assert (0 < 2 ^ (e2 - e1))%Z by (apply Z.pow_pos_nonneg; lia).
    lia. }
  pose proof (pow2_pos e1). nra.
Qed.


Lemma F2R_shift (m e k : Z) :
  (0 <= k)%Z -> F2R (m * 2 ^ k) e = F2R m (e + k).
Proof.
  intros Hk. unfold F2R.
  rewrite mult_IZR, pow2_add, (pow2_IZR k Hk). ring.
Qed.



Lemma fmt_0 : fmt 0.
Proof. exists 0%Z, 0%Z. unfold F2R. split; [ring | split; [reflexivity | lia]]. Qed.

Lemma fmt_opp (x : R) : fmt x -> fmt (- x).
Proof.
  intros (m & e & -> & Hm & He). exists (- m)%Z, e.
  unfold F2R. rewrite opp_IZR. split; [ring | split; [lia | exact He]].
Qed.

Lemma nearest_opp (f u : R) : nearest f u -> nearest (- f) (- u).
Proof.
  intros [Hf Hn]. split; [apply fmt_opp, Hf |].
  intros g Hg. specialize (Hn (- g) (fmt_opp g Hg)).
  replace (- f - - u) with (- (f - u)) by ring.
  replace (g - - u) with (- (- g - u)) by ring.
  rewrite !Rabs_Ropp. exact Hn.
Qed.

Lemma nearest_exact (u : R) : fmt u -> nearest u u.
Proof.
  intros Hu. split; [exact Hu |]. intros g _.
  replace (u - u) with 0 by ring. rewrite Rabs_R0. apply Rabs_pos.
Qed.

(** Rounding to nearest is monotone, whatever it does on ties. *)
Lemma nearest_mono (f1 f2 u1 u2 : R) :
  nearest f1 u1 -> nearest f2 u2 -> u1 < u2 -> f1 <= f2.
Proof.
  intros [Hf1 Hn1] [Hf2 Hn2] Hu.
  specialize (Hn1 f2 Hf2). specialize (Hn2 f1 Hf1).
  destruct (Rle_or_lt f1 f2) as [Hle | Hlt]; [exact Hle | exfalso].
  revert Hn1 Hn2. unfold Rabs.
  repeat destruct Rcase_abs; lra.
Qed.

(** A real between two neighbours of the grid [2^E] rounds to the closer
    one, provided the format has no number strictly between them: the grid is
    the finest one, or the neighbours have 53 bits. *)
Lemma grid_nearest (m M E : Z) (u : R) :
  (0 <= m < 2 ^ 53)%Z -> (-1074 <= E)%Z ->
  (E = -1074 \/ 2 ^ 52 <= m)%Z ->
  F2R m E <= u <= F2R (m + 1) E ->
  (M = m /\ 2 * u <= F2R m E + F2R (m + 1) E
   \/ M = (m + 1)%Z /\ F2R m E + F2R (m + 1) E <= 2 * u) ->
  nearest (F2R M E) u.
Proof.
  intros Hm HE Hgap Hu HM.
  assert (Hfmt : fmt (F2R M E)).
  { destruct (Z.eq_dec M (2 ^ 53)) as [-> | HM53].
    - exists (2 ^ 52)%Z, (E + 1)%Z. split; [| split; [| lia]].
      + rewrite <- F2R_shift by lia. f_equal.
      + rewrite Z.abs_eq by lia. reflexivity.
    - exists M, E. split; [reflexivity | split; [lia | exact HE]]. }
  assert (Hout : forall g, fmt g -> g <= F2R m E \/ F2R (m + 1) E <= g).
  { intros g (n & k & -> & Hn & Hk).
    pose proof (pow2_pos E) as HpE. pose proof (pow2_pos k) as Hpk.
    destruct (Z_le_gt_dec n 0) as [Hneg | Hpos].
    { left. unfold F2R. apply IZR_le in Hneg.
      assert (0 <= IZR m) by (apply IZR_le; lia). nra. }
    destruct (Z_le_gt_dec E k) as [Hfine | Hcoarse].
    - replace k with (E + (k - E))%Z by lia.
      rewrite <- F2R_shift by lia.
      destruct (Z_le_gt_dec (n * 2 ^ (k - E)) m) as [Hj | Hj].
      + left. unfold F2R. apply IZR_le in Hj. nra.
      + right. unfold F2R.
        assert (Hj' : (m + 1 <= n * 2 ^ (k - E))%Z) by lia.
        apply IZR_le in Hj'. nra.
    - left. destruct Hgap as [-> | Hgap]; [lia |].
      unfold F2R.
      assert (Hn' : IZR n <= IZR (2 ^ 53)) by (apply IZR_le; lia).
      assert (Hm' : IZR (2 ^ 52) <= IZR m) by (apply IZR_le; exact Hgap).
      assert (Hk' : pow2 k * 2 <= pow2 E).
      { replace 2 with (pow2 1) by (unfold pow2; simpl; lra).
        rewrite <- pow2_add. apply pow2_le. lia. }
      change (2 ^ 53)%Z with (2 * 2 ^ 52)%Z in Hn'.
      rewrite mult_IZR in Hn'.
      assert (0 < IZR (2 ^ 52)) by (apply IZR_lt; reflexivity).
      assert (0 < IZR n) by (apply IZR_lt; lia).
      apply Rle_trans with (IZR (2 ^ 52) * pow2 E); [| nra].
      apply Rle_trans with (2 * IZR (2 ^ 52) * pow2 k); [nra | nra]. }
  split; [exact Hfmt |].
  intros g Hg. specialize (Hout g Hg).
  revert Hout.
  destruct HM as [[-> Hc] | [-> Hc]]; unfold Rabs;
    repeat destruct Rcase_abs; lra.
Qed.

End Format.

Section RoundAux.
Local Open Scope Z_scope.

(** ** What [binary_round_aux] computes *)

Lemma fexp_eq (x : Z) : fexp prec emax x = Z.max (x - 53) (-1074).
Proof. reflexivity. Qed.


Lemma shr_record_of_loc_rec_of (a b : Z) :
  0 < b -> shr_record_of_loc (a / b) (loc a b) = rec_of a b.
Proof.
  intros Hb. unfold loc, rec_of.
  pose proof (Z.mod_pos_bound a b Hb) as Hrem.
  destruct (Z.eqb_spec (a mod b) 0) as [H0 | H0]; cbn [negb andb].
  - rewrite H0. cbn [shr_record_of_loc]. f_equal.
    symmetry. apply Z.leb_gt. lia.
  - destruct (Z.compare_spec (2 * (a mod b)) b) as [Hc | Hc | Hc];
      cbn [shr_record_of_loc]; f_equal; symmetry;
      first [apply Z.leb_le; lia | apply Z.leb_gt; lia
            | apply negb_true_iff, Z.eqb_neq; lia
            | apply negb_false_iff, Z.eqb_eq; lia].
Qed.

Lemma loc_of_rec_of (a b : Z) :
  0 < b -> loc_of_shr_record (rec_of a b) = loc a b.
Proof.
  intros Hb. rewrite <- shr_record_of_loc_rec_of by assumption.
  destruct (loc a b) as [| []]; reflexivity.
Qed.


Lemma rne_cases (a b : Z) :
  0 < b ->
  rne a b = a / b /\ 2 * (a mod b) <= b
  \/ rne a b = a / b + 1 /\ b <= 2 * (a mod b).
Proof.
  intros Hb. unfold rne, loc.
  pose proof (Z.mod_pos_bound a b Hb) as Hrem.
  destruct (Z.eqb_spec (a mod b) 0) as [H0 | H0]; cbn [round_nearest_even].
  - left. lia.
  - destruct (Z.compare_spec (2 * (a mod b)) b) as [Hc | Hc | Hc].
    + destruct (Z.even (a / b)); [left | right]; lia.
    + left. lia.
    + right. lia.
Qed.

Lemma rne_exact (a b : Z) : 0 < b -> a mod b = 0 -> rne a b = a / b.
Proof.
  intros Hb H0. unfold rne, loc. rewrite H0. reflexivity.
Qed.

Lemma binary_round_aux_unfold (sx : bool) (a b ex : Z) :
  0 <= a -> 0 < b ->
  let N1 := Z.max (fexp prec emax (Zdigits2 (a / b) + ex) - ex) 0 in
  let M := rne a (b * 2 ^ N1) in
  let e1 := ex + N1 in
  let N2 := Z.max (fexp prec emax (Zdigits2 M + e1) - e1) 0 in
  binary_round_aux prec emax sx (a / b) ex (loc a b)
  = match M / 2 ^ N2 with
    | 0 => S754_zero sx
    | Z.pos m =>
        if e1 + N2 <=? emax - prec then S754_finite sx m (e1 + N2)
        else S754_infinity sx
    | Z.neg _ => S754_nan
    end.
Proof.
  intros Ha Hb N1 M e1 N2.
  assert (HB1 : 0 < b * 2 ^ N1).
  { apply Z.mul_pos_pos; [exact Hb | apply Z.pow_pos_nonneg; lia]. }
  unfold binary_round_aux, shr_fexp.
  rewrite shr_record_of_loc_rec_of, shr_rec_of by assumption.
  fold N1. rewrite loc_of_rec_of by exact HB1.
  change (shr_m (rec_of a (b * 2 ^ N1))) with (a / (b * 2 ^ N1)).
  fold (rne a (b * 2 ^ N1)). fold M. fold e1.
  assert (HM : 0 <= M).
  { destruct (rne_cases a (b * 2 ^ N1) HB1) as [[HMe _] | [HMe _]];
      fold M in HMe; rewrite HMe;
      assert (0 <= a / (b * 2 ^ N1)) by (apply Z.div_pos; lia); lia. }
  replace (shr_record_of_loc M loc_Exact) with (rec_of M 1).
  2:{ unfold rec_of. rewrite Z.div_1_r, Z.mod_1_r. reflexivity. }
  rewrite shr_rec_of by lia.
  fold N2. rewrite Z.mul_1_l.
  change (shr_m (rec_of M (2 ^ N2))) with (M / 2 ^ N2).
  reflexivity.
Qed.

End RoundAux.

Section RoundShape.
Local Open Scope Z_scope.

Lemma Zdigits2_le_53 (M : Z) : 0 <= M <= 2 ^ 52 -> Zdigits2 M + -1074 - 53 <= -1074.
Proof.
  intros [H0 HM].
  destruct (Z.eq_dec M 0) as [-> | Hnz]; [simpl; lia |].
  pose proof (Zdigits2_bounds M ltac:(lia)) as [Hlo _].
  destruct (Z_le_gt_dec (Zdigits2 M) 53) as [Hd | Hd]; [lia | exfalso].
  assert (2 ^ 53 <= 2 ^ (Zdigits2 M - 1)) by (apply Z.pow_le_mono_r; lia).
  assert (2 ^ 52 < 2 ^ 53) by reflexivity.
  lia.
Qed.

(** The shape of a rounding: the grid [2^e1] on which [a / b * 2^ex] is
    rounded to [M], between [m'] and [m' + 1], and the mantissa [M'] and
    exponent [e2] of the result. *)
Lemma round_aux_structure (sx : bool) (a b ex : Z) :
  0 <= a -> 0 < b ->
  ex <= fexp prec emax (Zdigits2 (a / b) + ex) ->
  exists N1 M' e2 : Z,
    let e1 := ex + N1 in
    let m' := a / (b * 2 ^ N1) in
    let M := rne a (b * 2 ^ N1) in
    0 <= N1 /\ 0 <= m' < 2 ^ 53 /\ -1074 <= e1
    /\ (e1 = -1074 \/ 2 ^ 52 <= m')
    /\ 0 <= M' /\ e1 <= e2 /\ M = M' * 2 ^ (e2 - e1)
    /\ (M' <> 0 -> fexp prec emax (Zdigits2 M' + e2) = e2)
    /\ binary_round_aux prec emax sx (a / b) ex (loc a b)
       = match M' with
         | 0 => S754_zero sx
         | Z.pos m =>
             if e2 <=? emax - prec then S754_finite sx m e2
             else S754_infinity sx
         | Z.neg _ => S754_nan
         end.
Proof.
  intros Ha Hb Hn1.
  rewrite binary_round_aux_unfold by assumption. cbv zeta.
  set (d := Zdigits2 (a / b)) in *.
  set (N1 := Z.max (fexp prec emax (d + ex) - ex) 0).
  assert (HN1 : N1 = fexp prec emax (d + ex) - ex) by (unfold N1; lia).
  set (B1 := b * 2 ^ N1).
  assert (Hpow : 0 < 2 ^ N1) by (apply Z.pow_pos_nonneg; lia).
  assert (HB1 : 0 < B1) by (apply Z.mul_pos_pos; assumption).
  set (M := rne a B1). set (e1 := ex + N1).
  assert (He1 : e1 = fexp prec emax (d + ex)) by (unfold e1; lia).
  assert (Hmx : 0 <= a / b) by (apply Z.div_pos; lia).
  assert (Hm' : a / B1 = a / b / 2 ^ N1).
  { unfold B1. symmetry. apply Z.div_div; lia. }
  assert (Hm'0 : 0 <= a / B1) by (apply Z.div_pos; lia).
  assert (HMc : M = a / B1 \/ M = a / B1 + 1).
  { destruct (rne_cases a B1 HB1) as [[HMe _] | [HMe _]]; fold M in HMe; lia. }
  rewrite fexp_eq in He1.
  destruct (Z_le_gt_dec (-1074) (d + ex - 53)) as [Hnormal | Hsub].
  - (* the grid of a binade: [m'] has 53 bits *)
    assert (Hd : 53 <= d) by lia.
    assert (Hmxpos : 0 < a / b).
    { destruct (Z.eq_dec (a / b) 0) as [Hz | Hz]; [| lia].
      unfold d in Hd. rewrite Hz in Hd. simpl in Hd. lia. }
    pose proof (Zdigits2_bounds (a / b) Hmxpos) as [Hlo Hhi]. fold d in Hlo, Hhi.
    assert (HN1d : N1 = d - 53) by lia.
    assert (Hm'lo : 2 ^ 52 <= a / B1).
    { rewrite Hm'. apply Z.div_le_lower_bound; [exact Hpow |].
      rewrite HN1d, Z.mul_comm, <- Z.pow_add_r by lia.
      replace (52 + (d - 53)) with (d - 1) by lia. exact Hlo. }
    assert (Hm'hi : a / B1 < 2 ^ 53).
    { rewrite Hm'. apply Z.div_lt_upper_bound; [exact Hpow |].
      rewrite HN1d, <- Z.pow_add_r by lia.
      replace (d - 53 + 53) with d by lia. exact Hhi. }
    destruct (Z.eq_dec M (2 ^ 53)) as [HM53 | HM53].
    + (* the rounding has carried into the next binade *)
      exists N1, (2 ^ 52), (e1 + 1). fold B1 M e1.
      repeat split; try lia.
      * rewrite HM53. replace (e1 + 1 - e1) with 1 by lia. reflexivity.
      * intros _. rewrite fexp_eq.
        change (Zdigits2 (2 ^ 52)) with 53. lia.
      * rewrite HM53. change (Zdigits2 (2 ^ 53)) with 54.
        rewrite fexp_eq.
        replace (Z.max (Z.max (54 + e1 - 53) (-1074) - e1) 0) with 1 by lia.
        reflexivity.
    + exists N1, M, e1. fold B1 M e1.
      assert (HdM : Zdigits2 M = 53).
      { apply Zdigits2_unique; [| lia | lia].
        change (53 - 1) with 52. lia. }
      repeat split; try lia.
      * rewrite Z.sub_diag. lia.
      * intros _. rewrite HdM, fexp_eq. lia.
      * rewrite HdM, fexp_eq.
        replace (Z.max (Z.max (53 + e1 - 53) (-1074) - e1) 0) with 0 by lia.
        rewrite Z.div_1_r, Z.add_0_r. reflexivity.
  - (* the finest grid: [m'] has fewer than 53 bits *)
    assert (He1' : e1 = -1074) by lia.
    assert (Hm'hi : a / B1 < 2 ^ 52).
    { destruct (Z.eq_dec (a / b) 0) as [Hz | Hz].
      - rewrite Hm', Hz, Z.div_0_l by lia. reflexivity.
      - pose proof (Zdigits2_bounds (a / b) ltac:(lia)) as [_ Hhi].
        fold d in Hhi.
        rewrite Hm'. apply Z.div_lt_upper_bound; [exact Hpow |].
        rewrite <- Z.pow_add_r by lia.
        apply Z.lt_le_trans with (2 ^ d); [exact Hhi |].
        apply Z.pow_le_mono_r; lia. }
    assert (H52 : 2 ^ 52 < 2 ^ 53) by reflexivity.
    exists N1, M, e1. fold B1 M e1.
    pose proof (Zdigits2_le_53 M ltac:(lia)) as HdM.
    repeat split; try lia.
    * rewrite Z.sub_diag. lia.
    * intros _. rewrite fexp_eq, He1'. lia.
    * rewrite fexp_eq, He1'.
      replace (Z.max (Z.max (Zdigits2 M + -1074 - 53) (-1074) - -1074) 0)
        with 0 by lia.
      rewrite Z.div_1_r, Z.add_0_r. reflexivity.
Qed.

End RoundShape.

Section RoundNearest.
Local Open Scope R_scope.

Lemma scaled_bounds (delta Bq rq P : R) :
  0 < Bq -> 0 < P -> delta * Bq = rq * P ->
  (0 <= rq -> 0 <= delta)
  /\ (rq <= Bq -> delta <= P)
  /\ (2 * rq <= Bq -> 2 * delta <= P)
  /\ (Bq <= 2 * rq -> P <= 2 * delta).
Proof.
  intros HB HP Heq.
  assert (Hd : delta = rq * P / Bq).
  { apply (Rmult_eq_reg_r Bq); [| lra]. rewrite Heq. field. lra. }
  assert (Hinv : 0 < / Bq) by (apply Rinv_0_lt_compat, HB).
  assert (Hd' : delta = rq * / Bq * P) by (rewrite Hd; unfold Rdiv; ring).
  assert (H1 : Bq * / Bq = 1) by (field; lra).
  repeat split; intros Hr; rewrite Hd'.
  - apply Rmult_le_pos; [apply Rmult_le_pos |]; lra.
  - assert (rq * / Bq <= 1) by nra. nra.
  - assert (2 * (rq * / Bq) <= 1) by nra. nra.
  - assert (1 <= 2 * (rq * / Bq)) by nra. nra.
Qed.

Theorem binary_round_aux_rounds (sx : bool) (a b ex : Z) (u : R) :
  (0 <= a)%Z -> (0 < b)%Z ->
  (ex <= fexp prec emax (Zdigits2 (a / b) + ex))%Z ->
  u * IZR b = IZR a * pow2 ex ->
  rounds_to (binary_round_aux prec emax sx (a / b) ex (loc a b)) sx u.
Proof.
  intros Ha Hb Hn1 Hu.
  destruct (round_aux_structure sx a b ex Ha Hb Hn1)
    as (N1 & M' & e2 & HN1 & Hm' & He1 & Hgap & HM' & He2 & HM & Hcan & ->).
  cbv zeta in *.
  set (e1 := (ex + N1)%Z) in *. set (B1 := (b * 2 ^ N1)%Z) in *.
  assert (Hpow : (0 < 2 ^ N1)%Z) by (apply Z.pow_pos_nonneg; lia).
  assert (HB1 : (0 < B1)%Z) by (apply Z.mul_pos_pos; assumption).
  (* [u] on the grid *)
  pose proof (Z.mod_pos_bound a B1 HB1) as Hrem.
  pose proof (Z.div_mod a B1 ltac:(lia)) as Hdiv.
  assert (HuB : (u - F2R (a / B1) e1) * IZR B1 = IZR (a mod B1) * pow2 e1).
  { unfold F2R, e1, B1. rewrite pow2_add, (pow2_IZR N1 HN1).
    rewrite mult_IZR.
    replace ((u - IZR (a / (b * 2 ^ N1)) * (pow2 ex * IZR (2 ^ N1)))
             * (IZR b * IZR (2 ^ N1)))
      with ((u * IZR b - IZR (a / (b * 2 ^ N1)) * IZR (b * 2 ^ N1) * pow2 ex)
            * IZR (2 ^ N1)) by (rewrite mult_IZR; ring).
    rewrite Hu. fold B1.
    replace (IZR a) with (IZR (B1 * (a / B1) + a mod B1)) by (f_equal; lia).
    rewrite plus_IZR, mult_IZR. ring. }
  pose proof (pow2_pos e1) as HP.
  assert (HBq : 0 < IZR B1) by (apply IZR_lt; exact HB1).
  destruct (scaled_bounds _ _ _ _ HBq HP HuB) as (Hlo & Hhi & Hlow & Hupp).
  assert (Hr0 : 0 <= IZR (a mod B1)) by (apply IZR_le; lia).
  assert (Hr1 : IZR (a mod B1) <= IZR B1) by (apply IZR_le; lia).
  specialize (Hlo Hr0). specialize (Hhi Hr1).
  assert (Hsucc : F2R (a / B1 + 1) e1 = F2R (a / B1) e1 + pow2 e1).
  { unfold F2R. rewrite plus_IZR. ring. }
  assert (Hnear : nearest (F2R (rne a B1) e1) u).
  { apply (grid_nearest (a / B1)); try assumption.
    - rewrite Hsucc. lra.
    - rewrite Hsucc.
      destruct (rne_cases a B1 HB1) as [[HMe Hc] | [HMe Hc]].
      + left. split; [exact HMe |].
        assert (2 * IZR (a mod B1) <= IZR B1).
        { rewrite <- mult_IZR. apply IZR_le. exact Hc. }
        specialize (Hlow H). lra.
      + right. split; [exact HMe |].
        assert (IZR B1 <= 2 * IZR (a mod B1)).
        { rewrite <- mult_IZR. apply IZR_le. exact Hc. }
        specialize (Hupp H). lra. }
  assert (Hval : F2R (rne a B1) e1 = F2R M' e2).
  { rewrite HM, F2R_shift by lia. f_equal. lia. }
  rewrite Hval in Hnear.
  destruct M' as [| m | m]; [| | lia].
  - split; [reflexivity |]. unfold F2R in Hnear. rewrite Rmult_0_l in Hnear.
    exact Hnear.
  - destruct (Z.leb_spec e2 (emax - prec)) as [Hfin | Hinf].
    + split; [reflexivity | exact Hnear].
    + split; [reflexivity |]. exists (F2R (Z.pos m) e2).
      split; [exact Hnear |].
      (* a canonical mantissa above the largest exponent has 53 bits *)
      specialize (Hcan ltac:(discriminate)). rewrite fexp_eq in Hcan.
      change (emax - prec)%Z with 971%Z in Hinf.
      assert (Hd : Zdigits2 (Z.pos m) = 53%Z) by lia.
      pose proof (Zdigits2_bounds (Z.pos m) ltac:(lia)) as [Hmlo _].
      rewrite Hd in Hmlo. change (53 - 1)%Z with 52%Z in Hmlo.
      unfold F2R. apply IZR_le in Hmlo.
      replace 1024%Z with (52 + 972)%Z by reflexivity.
      rewrite pow2_add, (pow2_IZR 52) by lia.
      assert (pow2 972 <= pow2 e2) by (apply pow2_le; lia).
      pose proof (pow2_pos 972).
      assert (0 < IZR (2 ^ 52)) by (apply IZR_lt; reflexivity).
      nra.
Qed.

(** The result of a rounding is a valid binary64 number. *)
Theorem binary_round_aux_valid (sx : bool) (a b ex : Z) :
  (0 <= a)%Z -> (0 < b)%Z ->
  (ex <= fexp prec emax (Zdigits2 (a / b) + ex))%Z ->
  SpecFloat.valid_binary prec emax
    (binary_round_aux prec emax sx (a / b) ex (loc a b)) = true.
Proof.
  intros Ha Hb Hn1.
  destruct (round_aux_structure sx a b ex Ha Hb Hn1)
    as (N1 & M' & e2 & HN1 & Hm' & He1 & Hgap & HM' & He2 & HM & Hcan & ->).
  destruct M' as [| m | m]; [reflexivity | | lia].
  destruct (Z.leb_spec e2 (emax - prec)) as [Hfin | Hinf]; [| reflexivity].
  specialize (Hcan ltac:(discriminate)).
  unfold SpecFloat.valid_binary, bounded, canonical_mantissa.
  apply andb_true_iff. split; [apply Z.eqb_eq, Hcan | apply Z.leb_le, Hfin].
Qed.

End RoundNearest.

Section SignedRounding.
Local Open Scope R_scope.

(** ** Signed values and roundings *)



Lemma rounds_of_rounds_to (z : spec_float) (sx : bool) (v : R) :
  rounds_to z sx v -> rounds z (if sx then - v else v).
Proof.
  destruct z as [s | s | | s m e]; simpl.
  - intros [_ Hn]. destruct sx; [| exact Hn].
    rewrite <- Ropp_0. apply nearest_opp, Hn.
  - intros [-> (f & Hn & Hf)]. destruct sx.
    + exists (- f). split; [apply nearest_opp, Hn | lra].
    + exists f. split; assumption.
  - intros [].
  - intros [-> Hn]. destruct sx; [apply nearest_opp, Hn | exact Hn].
Qed.

Lemma Zdigits2_shift (m k : Z) :
  (0 < m)%Z -> (0 <= k)%Z -> Zdigits2 (m * 2 ^ k) = (Zdigits2 m + k)%Z.
Proof.
  intros Hm Hk.
  pose proof (Zdigits2_bounds m Hm) as [Hlo Hhi].
  pose proof (Zdigits2_nonneg m) as Hd.
  assert (Hd1 : (0 < Zdigits2 m)%Z).
  { destruct m; simpl; lia. }
  assert (Hp : (0 < 2 ^ k)%Z) by (apply Z.pow_pos_nonneg; lia).
  apply Zdigits2_unique; [| nia | lia].
  replace (Zdigits2 m + k - 1)%Z with (Zdigits2 m - 1 + k)%Z by lia.
  rewrite !Z.pow_add_r by lia. nia.
Qed.

Lemma pos_iter_xO (m d : positive) :
  Z.pos (Pos.iter xO m d) = (Z.pos m * 2 ^ Z.pos d)%Z.
Proof.
  rewrite <- Z.shiftl_mul_pow2 by lia.
  change (Z.shiftl (Z.pos m) (Z.pos d)) with (Pos.iter (Z.mul 2) (Z.pos m) d).
  apply Pos.iter_swap_gen. reflexivity.
Qed.

Lemma loc_1 (a : Z) : loc a 1 = loc_Exact.
Proof. unfold loc. rewrite Z.mod_1_r. reflexivity. Qed.

(** [binary_round] rounds the magnitude [mx * 2^ex]. *)
Lemma binary_round_rounds (sx : bool) (mx : positive) (ex : Z) :
  rounds_to (binary_round prec emax sx mx ex) sx (F2R (Z.pos mx) ex)
  /\ SpecFloat.valid_binary prec emax (binary_round prec emax sx mx ex) = true.
Proof.
  unfold binary_round, shl_align.
  set (ex' := fexp prec emax (Z.pos (digits2_pos mx) + ex)).
  destruct (ex' - ex)%Z as [| d | d] eqn:Hd.
  - rewrite <- (Z.div_1_r (Z.pos mx)), <- (loc_1 (Z.pos mx)).
    assert (Hpre : (ex <= fexp prec emax (Zdigits2 (Z.pos mx / 1) + ex))%Z).
    { rewrite Z.div_1_r.
      change (Zdigits2 (Z.pos mx)) with (Z.pos (digits2_pos mx)).
      fold ex'. lia. }
    split; [apply binary_round_aux_rounds | apply binary_round_aux_valid];
      try lia; try exact Hpre.
    unfold F2R. rewrite ?Z.div_1_r. ring.
  - rewrite <- (Z.div_1_r (Z.pos mx)), <- (loc_1 (Z.pos mx)).
    assert (Hpre : (ex <= fexp prec emax (Zdigits2 (Z.pos mx / 1) + ex))%Z).
    { rewrite Z.div_1_r.
      change (Zdigits2 (Z.pos mx)) with (Z.pos (digits2_pos mx)).
      fold ex'. lia. }
    split; [apply binary_round_aux_rounds | apply binary_round_aux_valid];
      try lia; try exact Hpre.
    unfold F2R. rewrite ?Z.div_1_r. ring.
  - set (mz := Pos.iter xO mx d).
    assert (Hmz : Z.pos mz = (Z.pos mx * 2 ^ Z.pos d)%Z) by apply pos_iter_xO.
    rewrite <- (Z.div_1_r (Z.pos mz)), <- (loc_1 (Z.pos mz)).
    assert (Hpre : (ex' <= fexp prec emax (Zdigits2 (Z.pos mz / 1) + ex'))%Z).
    { rewrite Z.div_1_r, Hmz, Zdigits2_shift by lia.
      replace (Zdigits2 (Z.pos mx) + Z.pos d + ex')%Z
        with (Z.pos (digits2_pos mx) + ex)%Z
        by (change (Zdigits2 (Z.pos mx)) with (Z.pos (digits2_pos mx)); lia).
      fold ex'. lia. }
    split; [apply binary_round_aux_rounds | apply binary_round_aux_valid];
      try lia; try exact Hpre.
    rewrite ?Z.div_1_r, Hmz. replace ex with (ex' + Z.pos d)%Z by lia.
    rewrite <- F2R_shift by lia. unfold F2R. ring.
Qed.

(** [binary_normalize] rounds the integer [m] scaled by [2^e]. *)
Lemma binary_normalize_rounds (m e : Z) :
  rounds (binary_normalize prec emax m e false) (F2R m e)
  /\ SpecFloat.valid_binary prec emax (binary_normalize prec emax m e false)
     = true.
Proof.
  destruct m as [| p | p]; cbn [binary_normalize].
  - split; [| reflexivity]. simpl. unfold F2R. rewrite Rmult_0_l.
    apply nearest_exact, fmt_0.
  - destruct (binary_round_rounds false p e) as [Hr Hv].
    split; [| exact Hv]. exact (rounds_of_rounds_to _ false _ Hr).
  - destruct (binary_round_rounds true p e) as [Hr Hv].
    split; [| exact Hv].
    replace (F2R (Z.neg p) e) with (- F2R (Z.pos p) e).
    + exact (rounds_of_rounds_to _ true _ Hr).
    + unfold F2R. change (Z.neg p) with (- Z.pos p)%Z. rewrite opp_IZR. ring.
Qed.

End SignedRounding.

Section Multiplication.
Local Open Scope R_scope.

(** ** The operations of binary64 round their exact results *)



Lemma valid_finite (s : bool) (m : positive) (e : Z) :
  valid (S754_finite s m e) ->
  (-1074 <= e <= 971)%Z
  /\ (Zdigits2 (Z.pos m) <= 53)%Z
  /\ (Zdigits2 (Z.pos m) = 53 \/ e = -1074)%Z
  /\ fexp prec emax (Zdigits2 (Z.pos m) + e) = e.
Proof.
  unfold valid, SpecFloat.valid_binary, bounded, canonical_mantissa.
  intros Hv. apply andb_true_iff in Hv. destruct Hv as [Hc Hb].
  apply Z.eqb_eq in Hc. apply Z.leb_le in Hb.
  change (Z.pos (digits2_pos m)) with (Zdigits2 (Z.pos m)) in Hc.
  change (emax - prec)%Z with 971%Z in Hb.
  pose proof Hc as Hc'. rewrite fexp_eq in Hc'. lia.
Qed.

Lemma valid_fmt (z : spec_float) : valid z -> fmt (B2R z).
Proof.
  destruct z as [s | s | | s m e]; try (intros _; apply fmt_0).
  intros Hv. destruct (valid_finite s m e Hv) as (He & Hd & _ & _).
  pose proof (Zdigits2_bounds (Z.pos m) ltac:(lia)) as [_ Hhi].
  assert (Hm : (Z.pos m < 2 ^ 53)%Z).
  { apply Z.lt_le_trans with (2 ^ Zdigits2 (Z.pos m))%Z; [exact Hhi |].
    apply Z.pow_le_mono_r; lia. }
  assert (Hf : fmt (F2R (Z.pos m) e)).
  { exists (Z.pos m), e. split; [reflexivity | split; lia]. }
  simpl. destruct s; [apply fmt_opp |]; exact Hf.
Qed.

Lemma rounds_exact (z : spec_float) (u : R) :
  valid z -> is_fin z -> u = B2R z -> rounds z u.
Proof.
  intros Hv Hf ->. pose proof (valid_fmt z Hv) as Hfmt.
  destruct z as [s | s | | s m e]; try contradiction.
  - simpl. apply nearest_exact, fmt_0.
  - apply nearest_exact, Hfmt.
Qed.

Lemma Zdigits2_lower (m k : Z) :
  (0 <= k)%Z -> (2 ^ k <= m)%Z -> (k + 1 <= Zdigits2 m)%Z.
Proof.
  intros Hk Hm.
  assert (Hp : (0 < 2 ^ k)%Z) by (apply Z.pow_pos_nonneg; lia).
  pose proof (Zdigits2_bounds m ltac:(lia)) as [_ Hhi].
  pose proof (Zdigits2_nonneg m) as Hd.
  destruct (Z_le_gt_dec (k + 1) (Zdigits2 m)) as [Hle | Hgt]; [exact Hle |].
  exfalso.
  assert (2 ^ Zdigits2 m <= 2 ^ k)%Z by (apply Z.pow_le_mono_r; lia).
  lia.
Qed.

(** *** Multiplication *)

Lemma SFmul_rounds (x y : spec_float) :
  valid x -> valid y -> is_fin x -> is_fin y ->
  rounds (SFmul prec emax x y) (B2R x * B2R y).
Proof.
  intros Hvx Hvy Hfx Hfy.
  destruct x as [sx | sx | | sx mx ex]; try contradiction;
    destruct y as [sy | sy | | sy my ey]; try contradiction;
    try (simpl; rewrite ?Rmult_0_l, ?Rmult_0_r; apply nearest_exact, fmt_0).
  destruct (valid_finite sx mx ex Hvx) as (Hex & Hdx & Hcx & _).
  destruct (valid_finite sy my ey Hvy) as (Hey & Hdy & Hcy & _).
  cbn [SFmul].
  rewrite <- (Z.div_1_r (Z.pos (mx * my))), <- (loc_1 (Z.pos (mx * my))).
  assert (Hpre : (ex + ey
                  <= fexp prec emax
                       (Zdigits2 (Z.pos (mx * my) / 1) + (ex + ey)))%Z).
  { rewrite Z.div_1_r, fexp_eq.
    pose proof (Zdigits2_bounds (Z.pos mx) ltac:(lia)) as [Hlx _].
    pose proof (Zdigits2_bounds (Z.pos my) ltac:(lia)) as [Hly _].
    assert (Hdx1 : (1 <= Zdigits2 (Z.pos mx))%Z) by (simpl; lia).
    assert (Hdy1 : (1 <= Zdigits2 (Z.pos my))%Z) by (simpl; lia).
    assert (Hprod : (2 ^ (Zdigits2 (Z.pos mx) - 1 + (Zdigits2 (Z.pos my) - 1))
                     <= Z.pos (mx * my))%Z).
    { rewrite Z.pow_add_r, Pos2Z.inj_mul by lia.
      apply Z.mul_le_mono_nonneg; try assumption;
        apply Z.pow_nonneg; lia. }
    apply Zdigits2_lower in Hprod; lia. }
  pose proof (binary_round_aux_rounds (xorb sx sy) (Z.pos (mx * my)) 1
                (ex + ey) (F2R (Z.pos (mx * my)) (ex + ey))
                ltac:(lia) ltac:(lia) Hpre
                ltac:(unfold F2R; rewrite ?Z.div_1_r; ring)) as Hr.
  apply rounds_of_rounds_to in Hr.
  replace (B2R (S754_finite sx mx ex) * B2R (S754_finite sy my ey))
    with (if xorb sx sy then - F2R (Z.pos (mx * my)) (ex + ey)
          else F2R (Z.pos (mx * my)) (ex + ey)); [exact Hr |].
  unfold B2R, F2R. rewrite Pos2Z.inj_mul, mult_IZR, pow2_add.
  destruct sx, sy; simpl; ring.
Qed.

End Multiplication.

Section Division.
Local Open Scope R_scope.

(** *** Division *)

Lemma new_location_loc (nb k : Z) :
  (0 < nb)%Z -> (0 <= k < nb)%Z ->
  new_location nb k
  = if (k =? 0)%Z then loc_Exact else loc_Inexact (2 * k ?= nb)%Z.
Proof.
  intros Hnb Hk. unfold new_location.
  destruct (Z.even nb) eqn:Heven.
  - reflexivity.
  - unfold new_location_odd. destruct (k =? 0)%Z; [reflexivity |].
    f_equal.
    assert (Hodd : Z.odd nb = true) by (rewrite <- Z.negb_even, Heven; reflexivity).
    apply Z.odd_spec in Hodd. destruct Hodd as [j Hj].
    destruct (Z.compare_spec (2 * k + 1) nb);
      destruct (Z.compare_spec (2 * k) nb); try reflexivity; lia.
Qed.

Lemma SFdiv_core_binary_eq (m1 m2 : positive) (e1 e2 : Z) :
  let e' := Z.min (fexp prec emax
                     (Zdigits2 (Z.pos m1) + e1 - (Zdigits2 (Z.pos m2) + e2)))
              (e1 - e2) in
  let a := (Z.pos m1 * 2 ^ (e1 - e2 - e'))%Z in
  SFdiv_core_binary prec emax (Z.pos m1) e1 (Z.pos m2) e2
  = (a / Z.pos m2, e', loc a (Z.pos m2))%Z.
Proof.
  intros e' a. unfold SFdiv_core_binary. fold e'.
  assert (Hs : (0 <= e1 - e2 - e')%Z) by (unfold e'; lia).
  assert (Hm' : match (e1 - e2 - e')%Z with
                | Z.pos _ => Z.shiftl (Z.pos m1) (e1 - e2 - e')
                | 0%Z => Z.pos m1
                | Z.neg _ => 0%Z
                end = a).
  { unfold a. destruct (e1 - e2 - e')%Z as [| s | s] eqn:Hse.
    - rewrite Z.mul_1_r. reflexivity.
    - apply Z.shiftl_mul_pow2. lia.
    - lia. }
  rewrite Hm'.
  pose proof (Z.mod_pos_bound a (Z.pos m2) ltac:(lia)) as Hrem.
  unfold loc. rewrite <- new_location_loc by lia.
  unfold Z.div, Z.modulo. destruct (Z.div_eucl a (Z.pos m2)). reflexivity.
Qed.

Lemma SFdiv_rounds (x y : spec_float) :
  valid x -> valid y -> is_fin x ->
  (exists sy my ey, y = S754_finite sy my ey) ->
  rounds (SFdiv prec emax x y) (B2R x / B2R y).
Proof.
  intros Hvx Hvy Hfx (sy & my & ey & ->).
  destruct x as [sx | sx | | sx mx ex]; try contradiction.
  { simpl. unfold Rdiv. rewrite Rmult_0_l. apply nearest_exact, fmt_0. }
  cbn [SFdiv]. rewrite SFdiv_core_binary_eq.
  set (d1 := Zdigits2 (Z.pos mx)). set (d2 := Zdigits2 (Z.pos my)).
  set (e' := Z.min (fexp prec emax (d1 + ex - (d2 + ey))) (ex - ey)).
  set (s := (ex - ey - e')%Z).
  set (a := (Z.pos mx * 2 ^ s)%Z).
  assert (Hs : (0 <= s)%Z) by (unfold s, e'; lia).
  assert (Hps : (0 < 2 ^ s)%Z) by (apply Z.pow_pos_nonneg; lia).
  assert (Ha : (0 < a)%Z) by (unfold a; lia).
  pose proof (Zdigits2_bounds (Z.pos mx) ltac:(lia)) as [Hl1 _].
  pose proof (Zdigits2_bounds (Z.pos my) ltac:(lia)) as [_ Hh2].
  fold d1 in Hl1. fold d2 in Hh2.
  assert (Hd1 : (1 <= d1)%Z) by (unfold d1; simpl; lia).
  assert (Hd2 : (1 <= d2)%Z) by (unfold d2; simpl; lia).
  assert (Hq0 : (0 <= a / Z.pos my)%Z) by (apply Z.div_pos; lia).
  assert (Hdq : (d1 + s - d2 <= Zdigits2 (a / Z.pos my))%Z).
  { pose proof (Zdigits2_nonneg (a / Z.pos my)).
    destruct (Z_le_gt_dec (d1 + s - d2) 0) as [Hsmall | Hbig]; [lia |].
    assert (Hlow : (2 ^ (d1 + s - d2 - 1) <= a / Z.pos my)%Z).
    { apply Z.le_trans with (a / 2 ^ d2)%Z.
      - apply Z.div_le_lower_bound; [apply Z.pow_pos_nonneg; lia |].
        rewrite <- Z.pow_add_r by lia.
        replace (d2 + (d1 + s - d2 - 1))%Z with (d1 - 1 + s)%Z by lia.
        rewrite Z.pow_add_r by lia. unfold a.
        apply Z.mul_le_mono_nonneg_r; lia.
      - apply Z.div_le_compat_l; lia. }
    apply Zdigits2_lower in Hlow; lia. }
  assert (Hpre : (e' <= fexp prec emax (Zdigits2 (a / Z.pos my) + e'))%Z).
  { rewrite fexp_eq. unfold e' at 1. rewrite fexp_eq. unfold s in Hdq. lia. }
  assert (Hu : F2R (Z.pos mx) ex / F2R (Z.pos my) ey * IZR (Z.pos my)
               = IZR a * pow2 e').
  { unfold F2R, a. rewrite mult_IZR, <- (pow2_IZR s Hs).
    replace (IZR (Z.pos mx) * pow2 s * pow2 e')
      with (IZR (Z.pos mx) * pow2 (s + e')) by (rewrite pow2_add; ring).
    replace (s + e')%Z with (ex + - ey)%Z by (unfold s; lia).
    rewrite pow2_add. unfold pow2. rewrite powerRZ_neg'.
    assert (powerRZ 2 ey <> 0) by (apply powerRZ_NOR; lra).
    assert (IZR (Z.pos my) <> 0) by (apply not_0_IZR; lia).
    field. split; assumption. }
  pose proof (binary_round_aux_rounds (xorb sx sy) a (Z.pos my) e' _
                ltac:(lia) ltac:(lia) Hpre Hu) as Hr.
  apply rounds_of_rounds_to in Hr.
  replace (B2R (S754_finite sx mx ex) / B2R (S754_finite sy my ey))
    with (if xorb sx sy then - (F2R (Z.pos mx) ex / F2R (Z.pos my) ey)
          else F2R (Z.pos mx) ex / F2R (Z.pos my) ey); [exact Hr |].
  assert (F2R (Z.pos my) ey <> 0).
  { unfold F2R. pose proof (pow2_pos ey).
    assert (0 < IZR (Z.pos my)) by (apply IZR_lt; lia). nra. }
  unfold B2R. destruct sx, sy; simpl; field; assumption.
Qed.

End Division.

Section Addition.
Local Open Scope R_scope.

(** *** Addition and subtraction *)

Lemma shl_align_fst (mx : positive) (ex ez : Z) :
  (ez <= ex)%Z ->
  Z.pos (fst (shl_align mx ex ez)) = (Z.pos mx * 2 ^ (ex - ez))%Z.
Proof.
  intros Hle. unfold shl_align.
  destruct (ez - ex)%Z as [| d | d] eqn:Hd; cbn [fst].
  - replace (ex - ez)%Z with 0%Z by lia. lia.
  - lia.
  - rewrite pos_iter_xO. f_equal. f_equal. lia.
Qed.

Lemma F2R_aligned (s : bool) (mx : positive) (ex ez : Z) :
  (ez <= ex)%Z ->
  F2R (cond_Zopp s (Z.pos (fst (shl_align mx ex ez)))) ez
  = B2R (S754_finite s mx ex).
Proof.
  intros Hle. rewrite shl_align_fst by exact Hle.
  assert (Hv : F2R (Z.pos mx * 2 ^ (ex - ez)) ez = F2R (Z.pos mx) ex).
  { rewrite F2R_shift by lia. f_equal. lia. }
  unfold cond_Zopp, B2R. destruct s; [| exact Hv].
  rewrite <- Hv. unfold F2R. rewrite opp_IZR. ring.
Qed.

Lemma F2R_plus (m1 m2 e : Z) : F2R (m1 + m2) e = F2R m1 e + F2R m2 e.
Proof. unfold F2R. rewrite plus_IZR. ring. Qed.

Lemma F2R_minus (m1 m2 e : Z) : F2R (m1 - m2) e = F2R m1 e - F2R m2 e.
Proof. unfold F2R. rewrite minus_IZR. ring. Qed.

Lemma SFadd_rounds (x y : spec_float) :
  valid x -> valid y -> is_fin x -> is_fin y ->
  rounds (SFadd prec emax x y) (B2R x + B2R y).
Proof.
  intros Hvx Hvy Hfx Hfy.
  destruct x as [sx | sx | | sx mx ex]; try contradiction;
    destruct y as [sy | sy | | sy my ey]; try contradiction.
  - assert (Hz : rounds (S754_zero false) (0 + 0)).
    { simpl. rewrite Rplus_0_l. apply nearest_exact, fmt_0. }
    destruct sx, sy; exact Hz.
  - apply rounds_exact; [assumption | exact I |]. simpl. ring.
  - apply rounds_exact; [assumption | exact I |]. simpl. ring.
  - cbn [SFadd].
    rewrite <- (F2R_aligned sx mx ex (Z.min ex ey)) by lia.
    rewrite <- (F2R_aligned sy my ey (Z.min ex ey)) by lia.
    rewrite <- F2R_plus. apply binary_normalize_rounds.
Qed.

Lemma SFsub_rounds (x y : spec_float) :
  valid x -> valid y -> is_fin x -> is_fin y ->
  rounds (SFsub prec emax x y) (B2R x - B2R y).
Proof.
  intros Hvx Hvy Hfx Hfy.
  destruct x as [sx | sx | | sx mx ex]; try contradiction;
    destruct y as [sy | sy | | sy my ey]; try contradiction.
  - assert (Hz : rounds (S754_zero false) (0 - 0)).
    { simpl. rewrite Rminus_0_r. apply nearest_exact, fmt_0. }
    destruct sx, sy; exact Hz.
  - cbn [SFsub]. apply rounds_exact; [| exact I |].
    + exact Hvy.
    + simpl. destruct sy; simpl; ring.
  - apply rounds_exact; [assumption | exact I |]. simpl. ring.
  - cbn [SFsub].
    rewrite <- (F2R_aligned sx mx ex (Z.min ex ey)) by lia.
    rewrite <- (F2R_aligned sy my ey (Z.min ex ey)) by lia.
    rewrite <- F2R_minus. apply binary_normalize_rounds.
Qed.

End Addition.

Section Comparison.
Local Open Scope R_scope.

(** ** Comparison of valid floats *)

Lemma F2R_pos (m : positive) (e : Z) : 0 < F2R (Z.pos m) e.
Proof.
  unfold F2R. apply Rmult_lt_0_compat; [apply IZR_lt; lia | apply pow2_pos].
Qed.

Lemma F2R_digits (m : positive) (e : Z) :
  pow2 (Zdigits2 (Z.pos m) - 1 + e) <= F2R (Z.pos m) e
  < pow2 (Zdigits2 (Z.pos m) + e).
Proof.
  pose proof (Zdigits2_bounds (Z.pos m) ltac:(lia)) as [Hlo Hhi].
  assert (Hd : (1 <= Zdigits2 (Z.pos m))%Z) by (simpl; lia).
  rewrite !pow2_add.
  rewrite (pow2_IZR (Zdigits2 (Z.pos m) - 1)), (pow2_IZR (Zdigits2 (Z.pos m)))
    by lia.
  apply IZR_le in Hlo. apply IZR_lt in Hhi.
  pose proof (pow2_pos e). unfold F2R. split; nra.
Qed.

(** Among valid floats the smaller exponent is the smaller number. *)
Lemma valid_exp_lt (s1 s2 : bool) (m1 m2 : positive) (e1 e2 : Z) :
  valid (S754_finite s1 m1 e1) -> valid (S754_finite s2 m2 e2) ->
  (e1 < e2)%Z -> F2R (Z.pos m1) e1 < F2R (Z.pos m2) e2.
Proof.
  intros Hv1 Hv2 He.
  destruct (valid_finite _ _ _ Hv1) as (_ & _ & _ & Hc1).
  destruct (valid_finite _ _ _ Hv2) as (_ & _ & _ & Hc2).
  rewrite fexp_eq in Hc1, Hc2.
  destruct (F2R_digits m1 e1) as [_ Hhi]. destruct (F2R_digits m2 e2) as [Hlo _].
  assert (pow2 (Zdigits2 (Z.pos m1) + e1)
          <= pow2 (Zdigits2 (Z.pos m2) - 1 + e2)) by (apply pow2_le; lia).
  lra.
Qed.

Lemma F2R_lt_mantissa (m1 m2 e : Z) : F2R m1 e < F2R m2 e -> (m1 < m2)%Z.
Proof.
  unfold F2R. intros Hlt. pose proof (pow2_pos e).
  apply lt_IZR. nra.
Qed.

Lemma F2R_le_mantissa (m1 m2 e : Z) : F2R m1 e <= F2R m2 e -> (m1 <= m2)%Z.
Proof.
  unfold F2R. intros Hle. pose proof (pow2_pos e).
  apply le_IZR. nra.
Qed.

(** A valid float is determined by its value, the sign of zero apart. *)
Lemma B2R_inj (z1 z2 : spec_float) :
  valid z1 -> valid z2 -> is_fin z1 -> is_fin z2 -> B2R z1 = B2R z2 ->
  z1 = z2 \/ (exists s1 s2, z1 = S754_zero s1 /\ z2 = S754_zero s2).
Proof.
  intros Hv1 Hv2 Hf1 Hf2 Heq.
  destruct z1 as [s1 | s1 | | s1 m1 e1]; try contradiction;
    destruct z2 as [s2 | s2 | | s2 m2 e2]; try contradiction.
  - right. eauto.
  - exfalso. pose proof (F2R_pos m2 e2). simpl in Heq. destruct s2; lra.
  - exfalso. pose proof (F2R_pos m1 e1). simpl in Heq. destruct s1; lra.
  - left. pose proof (F2R_pos m1 e1). pose proof (F2R_pos m2 e2).
    assert (Hs : s1 = s2).
    { simpl in Heq. destruct s1, s2; try reflexivity; lra. }
    subst s2.
    assert (Hval : F2R (Z.pos m1) e1 = F2R (Z.pos m2) e2).
    { simpl in Heq. destruct s1; lra. }
    assert (He : e1 = e2).
    { destruct (Z.lt_trichotomy e1 e2) as [Hlt | [He | Hgt]]; [| exact He |].
      - pose proof (valid_exp_lt _ _ _ _ _ _ Hv1 Hv2 Hlt). lra.
      - pose proof (valid_exp_lt _ _ _ _ _ _ Hv2 Hv1 Hgt). lra. }
    subst e2.
    assert (Hm : Z.pos m1 = Z.pos m2).
    { apply Z.le_antisymm; apply (F2R_le_mantissa _ _ e1); lra. }
    injection Hm as ->. reflexivity.
Qed.

Lemma SFleb_le (z1 z2 : spec_float) :
  valid z1 -> valid z2 -> is_fin z1 -> is_fin z2 -> B2R z1 <= B2R z2 ->
  SFleb z1 z2 = true.
Proof.
  intros Hv1 Hv2 Hf1 Hf2 Hle.
  destruct z1 as [s1 | s1 | | s1 m1 e1]; try contradiction;
    destruct z2 as [s2 | s2 | | s2 m2 e2]; try contradiction.
  - reflexivity.
  - pose proof (F2R_pos m2 e2). simpl in Hle.
    destruct s2; [lra | reflexivity].
  - pose proof (F2R_pos m1 e1). simpl in Hle.
    destruct s1; [reflexivity | lra].
  - pose proof (F2R_pos m1 e1). pose proof (F2R_pos m2 e2).
    unfold SFleb, SFcompare. simpl in Hle.
    destruct s1, s2; try reflexivity; try lra.
    + destruct (Z.compare_spec e1 e2) as [He | He | He].
      * subst e2. fold (Pos.compare m1 m2).
        assert (Z.pos m2 <= Z.pos m1)%Z
          by (apply (F2R_le_mantissa _ _ e1); lra).
        destruct (Pos.compare_spec m1 m2); simpl; try reflexivity; lia.
      * pose proof (valid_exp_lt _ _ _ _ _ _ Hv1 Hv2 He). lra.
      * reflexivity.
    + destruct (Z.compare_spec e1 e2) as [He | He | He].
      * subst e2. fold (Pos.compare m1 m2).
        assert (Z.pos m1 <= Z.pos m2)%Z
          by (apply (F2R_le_mantissa _ _ e1); lra).
        destruct (Pos.compare_spec m1 m2); try reflexivity; lia.
      * reflexivity.
      * pose proof (valid_exp_lt _ _ _ _ _ _ Hv2 Hv1 He). lra.
Qed.

Lemma valid_below_overflow (z : spec_float) :
  valid z -> - pow2 1024 < B2R z < pow2 1024.
Proof.
  intros Hv. pose proof (pow2_pos 1024).
  destruct z as [s | s | | s m e]; cbn [B2R]; try lra.
  destruct (valid_finite _ _ _ Hv) as (He & Hd & _ & _).
  destruct (F2R_digits m e) as [_ Hhi]. pose proof (F2R_pos m e).
  assert (pow2 (Zdigits2 (Z.pos m) + e) <= pow2 1024) by (apply pow2_le; lia).
  destruct s; lra.
Qed.

(** Roundings of ordered reals are ordered as floats. *)
Lemma rounds_le (z1 z2 : spec_float) (u1 u2 : R) :
  valid z1 -> valid z2 -> rounds z1 u1 -> rounds z2 u2 -> u1 < u2 ->
  SFleb z1 z2 = true.
Proof.
  intros Hv1 Hv2 Hr1 Hr2 Hu.
  pose proof (valid_below_overflow z1 Hv1) as Hb1.
  pose proof (valid_below_overflow z2 Hv2) as Hb2.
  pose proof (pow2_pos 1024) as Hp.
  destruct z1 as [s1 | s1 | | s1 m1 e1]; cbn [rounds] in Hr1;
    try contradiction;
    destruct z2 as [s2 | s2 | | s2 m2 e2]; cbn [rounds] in Hr2;
    try contradiction;
    try destruct Hr1 as (f1 & Hr1 & Hf1);
    try destruct Hr2 as (f2 & Hr2 & Hf2);
    pose proof (nearest_mono _ _ _ _ Hr1 Hr2 Hu) as Hle;
    try (apply SFleb_le; try assumption; exact I);
    cbn [B2R] in Hb1, Hb2, Hle;
    repeat match goal with
    | s : bool |- _ => destruct s
    end;
    cbv iota in *;
    try reflexivity; lra.
Qed.

End Comparison.

Section FloorCeiling.
Local Open Scope R_scope.

(** ** Floor and ceiling of a scaled integer *)

Lemma shiftl_le_F2R (v e : Z) : IZR (Z.shiftl v e) <= F2R v e.
Proof.
  unfold F2R. destruct (Z_le_gt_dec 0 e) as [He | He].
  - rewrite Z.shiftl_mul_pow2, mult_IZR, <- pow2_IZR by lia. lra.
  - replace e with (- - e)%Z at 1 by lia.
    change (Z.shiftl v (- - e)) with (Z.shiftr v (- e)).
    rewrite Z.shiftr_div_pow2 by lia.
    assert (Hp : (0 < 2 ^ (- e))%Z) by (apply Z.pow_pos_nonneg; lia).
    pose proof (Z.mul_div_le v (2 ^ (- e)) Hp) as Hle.
    apply IZR_le in Hle. rewrite mult_IZR, <- pow2_IZR in Hle by lia.
    assert (Hinv : pow2 (- e) * pow2 e = 1).
    { rewrite <- pow2_add. replace (- e + e)%Z with 0%Z by lia. reflexivity. }
    pose proof (pow2_pos e). pose proof (pow2_pos (- e)).
    apply Rmult_le_reg_r with (pow2 (- e)); [assumption |].
    replace (IZR v * pow2 e * pow2 (- e)) with (IZR v * (pow2 (- e) * pow2 e))
      by ring.
    rewrite Hinv. lra.
Qed.

Lemma F2R_le_opp_shiftl (v e : Z) : F2R v e <= IZR (- Z.shiftl (- v) e).
Proof.
  pose proof (shiftl_le_F2R (- v) e) as Hle.
  unfold F2R in *. rewrite opp_IZR in *. lra.
Qed.

Lemma B2R_signed (s : bool) (m : positive) (e : Z) :
  B2R (S754_finite s m e) = F2R (if s then Z.neg m else Z.pos m) e.
Proof.
  unfold B2R, F2R. destruct s; [| reflexivity].
  change (Z.neg m) with (- Z.pos m)%Z. rewrite opp_IZR. ring.
Qed.

Lemma SFleb_refl (z : spec_float) : z <> S754_nan -> SFleb z z = true.
Proof.
  unfold SFleb, SFcompare.
  destruct z as [s | s | | s m e]; try reflexivity.
  - destruct s; reflexivity.
  - intros Hn. contradiction Hn. reflexivity.
  - intros _. rewrite Z.compare_refl. fold (Pos.compare m m).
    rewrite Pos.compare_refl. destruct s; reflexivity.
Qed.

End FloorCeiling.

Section PrimitiveFloats.
Local Open Scope R_scope.

(** ** Bid and ask prices in binary64 *)

Lemma is_fin_sub (x y : spec_float) :
  is_fin (SFsub prec emax x y) -> is_fin x /\ is_fin y.
Proof.
  destruct x as [sx | sx | | sx mx ex]; destruct y as [sy | sy | | sy my ey];
    simpl; try tauto; destruct sx, sy; simpl; tauto.
Qed.

Lemma is_fin_add (x y : spec_float) :
  is_fin (SFadd prec emax x y) -> is_fin x /\ is_fin y.
Proof.
  destruct x as [sx | sx | | sx mx ex]; destruct y as [sy | sy | | sy my ey];
    simpl; try tauto; destruct sx, sy; simpl; tauto.
Qed.

Lemma is_fin_div (x y : spec_float) (sy : bool) (my : positive) (ey : Z) :
  y = S754_finite sy my ey -> is_fin (SFdiv prec emax x y) -> is_fin x.
Proof.
  intros ->. destruct x as [sx | sx | | sx mx ex]; simpl; tauto.
Qed.

Lemma Prim2SF_valid' (x : float) : valid (Prim2SF x).
Proof. apply Prim2SF_valid. Qed.

(** A positive float is an infinity or a finite number of positive sign. *)
Lemma positive_float (x : float) :
  (0 <? x)%float = true ->
  Prim2SF x = S754_infinity false
  \/ exists m e, Prim2SF x = S754_finite false m e.
Proof.
  rewrite FloatAxioms.ltb_spec.
  change (Prim2SF 0%float) with (S754_zero false).
  unfold SFltb, SFcompare.
  destruct (Prim2SF x) as [s | s | | s m e]; try discriminate.
  - destruct s; [discriminate | left; reflexivity].
  - destruct s; [discriminate | right; eauto].
Qed.

Lemma finite_float (x : float) :
  is_finite x = true -> Prim2SF x <> S754_infinity false.
Proof.
  unfold is_finite, is_infinity. intros Hfin Hinf.
  apply negb_true_iff, orb_false_iff in Hfin. destruct Hfin as [_ Hni].
  rewrite FloatAxioms.eqb_spec, FloatAxioms.abs_spec, Hinf in Hni.
  change (Prim2SF infinity) with (S754_infinity false) in Hni.
  discriminate.
Qed.

Lemma float_floor_spec (x : float) (k : Z) :
  float_floor x = Ok k ->
  is_fin (Prim2SF x) /\ IZR k <= B2R (Prim2SF x).
Proof.
  unfold float_floor.
  destruct (Prim2SF x) as [s | s | | s m e]; try discriminate;
    intros Hk; injection Hk as <-.
  - split; [exact I |]. simpl. lra.
  - split; [exact I |]. rewrite B2R_signed. apply shiftl_le_F2R.
Qed.

Lemma float_ceil_spec (x : float) (k : Z) :
  float_ceil x = Ok k ->
  is_fin (Prim2SF x) /\ B2R (Prim2SF x) <= IZR k.
Proof.
  unfold float_ceil.
  destruct (Prim2SF x) as [s | s | | s m e]; try discriminate;
    intros Hk; injection Hk as <-.
  - split; [exact I |]. simpl. lra.
  - split; [exact I |]. rewrite B2R_signed.
    replace (if s then Z.pos m else Z.neg m)
      with (- (if s then Z.neg m else Z.pos m))%Z by (destruct s; reflexivity).
    apply F2R_le_opp_shiftl.
Qed.

Lemma float_of_int_spec (n : Z) (f : float) :
  float_of_int n = Ok f ->
  Prim2SF f = binary_normalize prec emax n 0 false
  /\ is_fin (Prim2SF f)
  /\ nearest (B2R (Prim2SF f)) (IZR n).
Proof.
  unfold float_of_int.
  destruct (binary_normalize_rounds n 0) as [Hr Hv].
  set (z := binary_normalize prec emax n 0 false) in *.
  assert (Hz : Prim2SF (SF2Prim z) = z) by (apply Prim2SF_SF2Prim, Hv).
  destruct (is_infinity (SF2Prim z)) eqn:Hinf; [discriminate |].
  intros Hf. injection Hf as <-. rewrite Hz.
  split; [reflexivity |].
  unfold is_infinity in Hinf. rewrite FloatAxioms.eqb_spec, FloatAxioms.abs_spec, Hz in Hinf.
  change (Prim2SF infinity) with (S754_infinity false) in Hinf.
  assert (Hn : F2R n 0 = IZR n) by (unfold F2R, pow2; simpl; ring).
  rewrite Hn in Hr.
  destruct z as [s | s | | s m e]; try contradiction.
  - split; [exact I | exact Hr].
  - destruct s; discriminate.
  - split; [exact I | exact Hr].
Qed.

End PrimitiveFloats.

Section BidAsk.
Local Open Scope R_scope.

Lemma rounds_fin (z : spec_float) (u : R) :
  rounds z u -> is_fin z -> nearest (B2R z) u.
Proof.
  destruct z as [s | s | | s m e]; try contradiction; intros Hr _; exact Hr.
Qed.

Lemma rounds_not_nan (z : spec_float) (u : R) : rounds z u -> z <> S754_nan.
Proof. intros Hr ->. exact Hr. Qed.

Lemma round_down_to_tick_inv (x t bid : float) :
  round_down_to_tick x t = Ok bid ->
  exists k f,
    float_floor (x / t) = Ok k /\ float_of_int k = Ok f
    /\ bid = (f * t)%float.
Proof.
  unfold round_down_to_tick, truediv, floor, int_mul, binary64.
  unfold float_truediv, float_int_mul, rbind.
  destruct (is_zero t); [discriminate |].
  destruct (float_floor (x / t)) as [k |]; [| discriminate].
  destruct (float_of_int k) as [f |] eqn:Hf; [| discriminate].
  intros Hb. injection Hb as <-. exists k, f. repeat split. exact Hf.
Qed.

Lemma round_up_to_tick_inv (x t ask : float) :
  round_up_to_tick x t = Ok ask ->
  exists k f,
    float_ceil (x / t) = Ok k /\ float_of_int k = Ok f
    /\ ask = (f * t)%float.
Proof.
  unfold round_up_to_tick, truediv, ceil, int_mul, binary64.
  unfold float_truediv, float_int_mul, rbind.
  destruct (is_zero t); [discriminate |].
  destruct (float_ceil (x / t)) as [k |]; [| discriminate].
  destruct (float_of_int k) as [f |] eqn:Hf; [| discriminate].
  intros Hb. injection Hb as <-. exists k, f. repeat split. exact Hf.
Qed.

(** Division by a positive finite float is monotone on values. *)
Lemma div_monotone (x1 x2 t : float) (mt : positive) (et : Z) :
  Prim2SF t = S754_finite false mt et ->
  is_fin (Prim2SF (x1 / t)) -> is_fin (Prim2SF (x2 / t)) ->
  B2R (Prim2SF x1) <= B2R (Prim2SF x2) ->
  B2R (Prim2SF (x1 / t)) <= B2R (Prim2SF (x2 / t)).
Proof.
  intros HT Hq1 Hq2 Hle.
  rewrite !div_spec in *. unfold SF64div in *.
  pose proof (Prim2SF_valid' x1) as Hv1. pose proof (Prim2SF_valid' x2) as Hv2.
  pose proof (Prim2SF_valid' t) as Hvt.
  pose proof (is_fin_div _ _ _ _ _ HT Hq1) as Hf1.
  pose proof (is_fin_div _ _ _ _ _ HT Hq2) as Hf2.
  assert (HTpos : 0 < B2R (Prim2SF t)) by (rewrite HT; apply F2R_pos).
  assert (HTfin : exists s m e, Prim2SF t = S754_finite s m e) by eauto.
  pose proof (rounds_fin _ _ (SFdiv_rounds _ _ Hv1 Hvt Hf1 HTfin) Hq1) as Hn1.
  pose proof (rounds_fin _ _ (SFdiv_rounds _ _ Hv2 Hvt Hf2 HTfin) Hq2) as Hn2.
  destruct Hle as [Hlt | Heq].
  - apply (nearest_mono _ _ _ _ Hn1 Hn2).
    unfold Rdiv. apply Rmult_lt_compat_r; [apply Rinv_0_lt_compat, HTpos |].
    exact Hlt.
  - destruct (B2R_inj _ _ Hv1 Hv2 Hf1 Hf2 Heq) as [HX | (s1 & s2 & H1 & H2)].
    + rewrite HX. lra.
    + rewrite H1, H2, HT. simpl. lra.
Qed.

(** Multiplication by a positive finite float is monotone. *)
Lemma mul_monotone (f1 f2 t : float) (mt : positive) (et : Z) :
  Prim2SF t = S754_finite false mt et ->
  is_fin (Prim2SF f1) -> is_fin (Prim2SF f2) ->
  B2R (Prim2SF f1) <= B2R (Prim2SF f2) ->
  float_le (f1 * t) (f2 * t).
Proof.
  intros HT Hf1 Hf2 Hle. unfold float_le.
  pose proof (Prim2SF_valid' (f1 * t)) as Hvb.
  pose proof (Prim2SF_valid' (f2 * t)) as Hva.
  rewrite leb_spec. rewrite !mul_spec in *. unfold SF64mul in *.
  pose proof (Prim2SF_valid' f1) as Hv1. pose proof (Prim2SF_valid' f2) as Hv2.
  pose proof (Prim2SF_valid' t) as Hvt.
  assert (HTpos : 0 < B2R (Prim2SF t)) by (rewrite HT; apply F2R_pos).
  assert (HTfin : is_fin (Prim2SF t)) by (rewrite HT; exact I).
  pose proof (SFmul_rounds _ _ Hv1 Hvt Hf1 HTfin) as Hr1.
  pose proof (SFmul_rounds _ _ Hv2 Hvt Hf2 HTfin) as Hr2.
  destruct Hle as [Hlt | Heq].
  - apply (rounds_le _ _ _ _ Hvb Hva Hr1 Hr2).
    apply Rmult_lt_compat_r; assumption.
  - destruct (B2R_inj _ _ Hv1 Hv2 Hf1 Hf2 Heq) as [HX | (s1 & s2 & H1 & H2)].
    + rewrite HX. apply SFleb_refl. exact (rounds_not_nan _ _ Hr2).
    + rewrite H1, H2, HT. reflexivity.
Qed.

(** Rounding down to a positive finite tick stays below rounding up a price
    that is not smaller. *)
Lemma round_down_le_round_up (x1 x2 tick_size down up : float) :
  (0 <? tick_size)%float = true ->
  is_finite tick_size = true ->
  (is_fin (Prim2SF x1) -> is_fin (Prim2SF x2) ->
   B2R (Prim2SF x1) <= B2R (Prim2SF x2)) ->
  round_down_to_tick x1 tick_size = Ok down ->
  round_up_to_tick x2 tick_size = Ok up ->
  float_le down up.
Proof.
  intros Ht Hfin HX Hdown Hup.
  destruct (round_down_to_tick_inv _ _ _ Hdown) as (k1 & f1 & Hk1 & Hf1 & ->).
  destruct (round_up_to_tick_inv _ _ _ Hup) as (k2 & f2 & Hk2 & Hf2 & ->).
  destruct (positive_float tick_size Ht) as [Hinf | (mt & et & HT)].
  { contradiction (finite_float tick_size Hfin). }
  destruct (float_floor_spec _ _ Hk1) as [Hq1 Hfloor].
  destruct (float_ceil_spec _ _ Hk2) as [Hq2 Hceil].
  (* both operands of the quotients are finite *)
  pose proof Hq1 as Hx1. rewrite div_spec in Hx1.
  apply (is_fin_div _ _ _ _ _ HT) in Hx1.
  pose proof Hq2 as Hx2. rewrite div_spec in Hx2.
  apply (is_fin_div _ _ _ _ _ HT) in Hx2.
  pose proof (div_monotone _ _ _ _ _ HT Hq1 Hq2 (HX Hx1 Hx2)) as HQ.
  assert (Hk : (k1 <= k2)%Z) by (apply le_IZR; lra).
  destruct (float_of_int_spec _ _ Hf1) as (_ & Hfin1 & Hn1).
  destruct (float_of_int_spec _ _ Hf2) as (_ & Hfin2 & Hn2).
  apply (mul_monotone _ _ _ _ _ HT Hfin1 Hfin2).
  destruct (Z.eq_dec k1 k2) as [Heq | Hne].
  - subst k2. rewrite Hf1 in Hf2. injection Hf2 as ->. lra.
  - apply (nearest_mono _ _ _ _ Hn1 Hn2). apply IZR_lt. lia.
Qed.

(** Taking a positive credit off a price gives at most what adding it
    gives. *)
Lemma credit_spread (theoretical_price credit : float) :
  (0 <? credit)%float = true ->
  is_fin (Prim2SF (theoretical_price - credit)) ->
  is_fin (Prim2SF (theoretical_price + credit)) ->
  B2R (Prim2SF (theoretical_price - credit))
  <= B2R (Prim2SF (theoretical_price + credit)).
Proof.
  intros Hc Hx1 Hx2.
  pose proof Hx1 as Hpc. rewrite sub_spec in Hpc.
  apply is_fin_sub in Hpc. destruct Hpc as [HP HC].
  destruct (positive_float credit Hc) as [HCinf | (mc & ec & HCfin)].
  { rewrite HCinf in HC. contradiction. }
  pose proof (Prim2SF_valid' theoretical_price) as Hvp.
  pose proof (Prim2SF_valid' credit) as Hvc.
  pose proof (SFsub_rounds _ _ Hvp Hvc HP HC) as Hr1.
  pose proof (SFadd_rounds _ _ Hvp Hvc HP HC) as Hr2.
  fold SF64sub in Hr1. fold SF64add in Hr2.
  rewrite <- sub_spec in Hr1. rewrite <- add_spec in Hr2.
  apply (nearest_mono _ _ _ _ (rounds_fin _ _ Hr1 Hx1)
           (rounds_fin _ _ Hr2 Hx2)).
  assert (0 < B2R (Prim2SF credit)) by (rewrite HCfin; apply F2R_pos).
  lra.
Qed.

(** C3, amended: for a positive credit and a positive finite tick, the bid
    price is below or equal to the ask price whenever both are computed. *)
Theorem bid_le_ask_binary64
    (theoretical_price credit tick_size bid_price ask_price : float) :
  (0 <? credit)%float = true ->
  (0 <? tick_size)%float = true ->
  is_finite tick_size = true ->
  round_down_to_tick (theoretical_price - credit)%float tick_size
    = Ok bid_price ->
  round_up_to_tick (theoretical_price + credit)%float tick_size
    = Ok ask_price ->
  float_le bid_price ask_price.
Proof.
  intros Hc Ht Hfin Hbid Hask.
  refine (round_down_le_round_up _ _ _ _ _ Ht Hfin _ Hbid Hask).
  intros Hx1 Hx2. apply credit_spread; assumption.
Qed.

(** In a run of [update_quotes] that inserts a bid and an ask, with a
    positive credit and a positive finite tick, the bid is priced at or below
    the ask. *)
Theorem update_quotes_bid_below_ask {X : Type} {E : Exchange X}
    (option_id : string) (theoretical_price credit : float)
    (volume position_limit : Z) (tick_size : float) (x : X)
    (bid_volume ask_volume : Z) (bid_price ask_price : float) :
  (0 <? credit)%float = true ->
  (0 <? tick_size)%float = true ->
  is_finite tick_size = true ->
  inserted (events_of (update_quotes option_id theoretical_price credit volume
                         position_limit tick_size x))
  = [("bid"%string, bid_volume, bid_price);
     ("ask"%string, ask_volume, ask_price)] ->
  float_le bid_price ask_price.
Proof.
  intros Hc Ht Hfin Hins.
  pose proof (update_quotes_shape option_id theoretical_price credit volume
                position_limit tick_size x) as Hrun.
  destruct Hrun as [e es Hno Hnone
                   | trades orders bid ask positions p r ins
                       Hbid Hask Hposition Hphase].
  - rewrite (no_insert_inserted _ Hno) in Hins. discriminate.
  - rewrite inserted_app in Hins.
    rewrite (no_insert_inserted _ (pull_events_no_insert _ _ _)) in Hins.
    assert (Hprices : bid_price = bid /\ ask_price = ask).
    { destruct Hphase; simpl in Hins; try discriminate.
      injection Hins as _ <- _ <-. split; reflexivity. }
    destruct Hprices as [-> ->].
    refine (round_down_le_round_up _ _ _ _ _ Ht Hfin _ Hbid Hask).
    intros Hx1 Hx2. apply credit_spread; assumption.
Qed.

(** On a positive finite tick, rounding a price down gives at most what
    rounding it up gives. *)
Theorem round_down_le_round_up_same (price tick_size down up : float) :
  (0 <? tick_size)%float = true ->
  is_finite tick_size = true ->
  round_down_to_tick price tick_size = Ok down ->
  round_up_to_tick price tick_size = Ok up ->
  float_le down up.
Proof.
  intros Ht Hfin Hdown Hup.
  refine (round_down_le_round_up _ _ _ _ _ Ht Hfin _ Hdown Hup).
  intros _ _. lra.
Qed.

End BidAsk.

Section BidAskExample.
Local Open Scope float_scope.

(** The quotes of the trade loop around a theoretical price of 10: credit
    0.15, tick 0.10, bid 9.8 and ask 10.200000000000001. *)
Lemma bid_le_ask_binary64_example :
  (0 <? 0.15) = true /\ (0 <? 0.10) = true /\ is_finite 0.10 = true
  /\ round_down_to_tick (10 - 0.15) 0.10 = Ok 9.8
  /\ round_up_to_tick (10 + 0.15) 0.10 = Ok 10.200000000000001
  /\ float_le 9.8 10.200000000000001.
Proof.
  assert (Hc : (0 <? 0.15) = true) by (vm_compute; reflexivity).
  assert (Ht : (0 <? 0.10) = true) by (vm_compute; reflexivity).
  assert (Hf : is_finite 0.10 = true) by (vm_compute; reflexivity).
  assert (Hb : round_down_to_tick (10 - 0.15) 0.10 = Ok 9.8)
    by (vm_compute; reflexivity).
  assert (Ha : round_up_to_tick (10 + 0.15) 0.10 = Ok 10.200000000000001)
    by (vm_compute; reflexivity).
  refine (conj Hc (conj Ht (conj Hf (conj Hb (conj Ha _))))).
  exact (bid_le_ask_binary64 10 0.15 0.10 9.8 10.200000000000001
           Hc Ht Hf Hb Ha).
Defined.

(** The price 0.97 on a tick of 0.1: down to 0.9, up to 1.0. *)
Lemma round_down_le_round_up_same_example :
  float_le 0.9 1.0.
Proof.
  apply (round_down_le_round_up_same 0.97 0.1 0.9 1.0);
    vm_compute; reflexivity.
Defined.

(** The quotes of a run at position 0. *)
Lemma update_quotes_bid_below_ask_example :
  float_le 9.8 10.200000000000001.
Proof.
  apply (update_quotes_bid_below_ask (E := sim_exchange) EXAMPLE_OPTION
           10 0.15 3 100 0.10 (sim_quoted 0) 3 3 9.8 10.200000000000001);
    vm_compute; reflexivity.
Defined.

End BidAskExample.

(** ** Lookups that fail *)

Lemma dict_get_raises {V : Type} (d : dict string V) (k : string) (e : exn) :
  dict_get d k = Raise e -> e = KeyError k.
Proof.
  induction d as [| [k' v] d IH]; simpl.
  - congruence.
  - destruct (String.eqb k' k); [discriminate | exact IH].
Qed.

Lemma has_key_false {V : Type} (d : dict string V) (k : string) :
  has_key d k = false -> dict_get d k = Raise (KeyError k).
Proof.
  unfold has_key. destruct (dict_get d k) as [v | e] eqn:Hget;
    [discriminate |].
  intros _. rewrite (dict_get_raises d k e Hget). reflexivity.
Qed.

(** ** Invariants of the emitted events *)

Lemma exchange_raised_app (e : exn) (es es' : list event) :
  exchange_raised e es' -> exchange_raised e (es ++ es').
Proof.
  intros (es1 & ev & -> & Hev). exists (es ++ es1), ev.
  split; [apply app_assoc | exact Hev].
Qed.

Lemma exchange_raised_cons (e : exn) (ev : event) (es : list event) :
  exchange_raised e es -> exchange_raised e (ev :: es).
Proof. apply (exchange_raised_app e [ev]). Qed.

Lemma exchange_raised_last (e : exn) (es : list event) (ev : event) :
  event_raised ev = Some e -> exchange_raised e (es ++ [ev]).
Proof. intros Hev. exists es, ev. split; [reflexivity | exact Hev]. Qed.

Lemma exchange_raised_one (e : exn) (ev : event) :
  event_raised ev = Some e -> exchange_raised e [ev].
Proof. apply (exchange_raised_last e []). Qed.

Section InvariantRules.
Context {X : Type} `{Exchange X}.

Lemma always_ret {A : Type} (Q : event -> Prop) (a : A) :
  always (X := X) Q (ret a).
Proof. apply emits_ret. constructor. Qed.

Lemma always_lift {A : Type} (Q : event -> Prop) (r : result A) :
  always (X := X) Q (lift r).
Proof. apply emits_lift. constructor. Qed.

Lemma always_emit (Q : event -> Prop) (e : event) :
  Q e -> always (X := X) Q (emit e).
Proof. intros He. apply emits_emit. repeat constructor. exact He. Qed.

Lemma always_print (Q : event -> Prop) (m : message) :
  Q (ev_print m) -> always (X := X) Q (print m).
Proof. apply always_emit. Qed.

Lemma always_call {A : Type} (Q : event -> Prop) (op : X -> result A * X)
    (record : result A -> event) :
  (forall r, Q (record r)) -> always Q (call op record).
Proof. intros HQ. apply emits_call. intros r. repeat constructor. apply HQ. Qed.

Lemma always_bind {A B : Type} (Q : event -> Prop) (m : M (X := X) A)
    (f : A -> M (X := X) B) :
  always Q m -> (forall a, always Q (f a)) -> always Q (bind m f).
Proof.
  intros Hm Hf. apply emits_bind.
  eapply emits_weaken; [exact Hm |].
  intros [a | e] es Hes; [| exact Hes].
  eapply emits_weaken; [apply Hf |].
  intros r es' Hes'. apply Forall_app. split; assumption.
Qed.

Lemma always_for_each {A : Type} (Q : event -> Prop) (l : list A)
    (body : A -> M (X := X) unit) :
  (forall a, In a l -> always Q (body a)) -> always Q (for_each l body).
Proof.
  induction l as [| a l IH]; intros Hbody; simpl.
  - apply always_ret.
  - apply always_bind; [apply Hbody; left; reflexivity |].
    intros _. apply IH. intros b Hb. apply Hbody. right. exact Hb.
Qed.

Lemma always_weaken {A : Type} (Q Q' : event -> Prop) (m : M (X := X) A) :
  (forall ev, Q ev -> Q' ev) -> always Q m -> always Q' m.
Proof.
  intros HQ Hm. eapply emits_weaken; [exact Hm |].
  intros r es. apply Forall_impl. exact HQ.
Qed.

Lemma fails_only_ret {A : Type} (own : exn -> Prop) (a : A) :
  fails_only (X := X) own (ret a).
Proof. apply emits_ret. discriminate. Qed.

Lemma fails_only_emit (own : exn -> Prop) (e : event) :
  fails_only (X := X) own (emit e).
Proof. apply emits_emit. discriminate. Qed.

Lemma fails_only_lift {A : Type} (own : exn -> Prop) (r : result A) :
  (forall e, r = Raise e -> own e) -> fails_only (X := X) own (lift r).
Proof. intros Hr. apply emits_lift. intros e He. right. apply Hr, He. Qed.

Lemma fails_only_call {A : Type} (own : exn -> Prop) (op : X -> result A * X)
    (record : result A -> event) :
  (forall e, event_raised (record (Raise e)) = Some e) ->
  fails_only own (call op record).
Proof.
  intros Hrec. apply emits_call. intros r e ->. left.
  apply exchange_raised_one, Hrec.
Qed.

Lemma fails_only_bind {A B : Type} (own : exn -> Prop) (m : M (X := X) A)
    (f : A -> M (X := X) B) :
  fails_only own m -> (forall a, fails_only own (f a)) ->
  fails_only own (bind m f).
Proof.
  intros Hm Hf. apply emits_bind.
  eapply emits_weaken; [exact Hm |].
  intros [a | e] es Hes.
  2:{ intros e' He'. injection He' as <-. apply Hes. reflexivity. }
  eapply emits_weaken; [apply Hf |].
  intros r es' Hes' e He. destruct (Hes' e He) as [Hx | Ho].
  - left. apply exchange_raised_app, Hx.
  - right. exact Ho.
Qed.

Lemma fails_only_for_each {A : Type} (own : exn -> Prop) (l : list A)
    (body : A -> M (X := X) unit) :
  (forall a, In a l -> fails_only own (body a)) ->
  fails_only own (for_each l body).
Proof.
  induction l as [| a l IH]; intros Hbody; simpl.
  - apply fails_only_ret.
  - apply fails_only_bind; [apply Hbody; left; reflexivity |].
    intros _. apply IH. intros b Hb. apply Hbody. right. exact Hb.
Qed.

Lemma fails_only_weaken {A : Type} (own own' : exn -> Prop)
    (m : M (X := X) A) :
  (forall e, own e -> own' e) -> fails_only own m -> fails_only own' m.
Proof.
  intros Ho Hm. eapply emits_weaken; [exact Hm |].
  intros r es Hr e He. destruct (Hr e He); [left | right]; auto.
Qed.

End InvariantRules.

(** ** The runs of [update_quotes], exception by exception *)

Lemma trade_prints_cancel (option_id : string) (trades : list trade) :
  Forall (cancel_event option_id) (trade_prints option_id trades).
Proof. induction trades; simpl; constructor; [exact I | assumption]. Qed.

Lemma delete_events_cancel (option_id : string) (orders : dict Z order) :
  Forall (cancel_event option_id) (delete_events option_id orders).
Proof.
  induction orders; simpl; repeat constructor; assumption.
Qed.

Lemma pull_events_cancel (option_id : string) (trades : list trade)
    (orders : dict Z order) :
  Forall (cancel_event option_id) (pull_events option_id trades orders).
Proof.
  constructor; [reflexivity |]. apply Forall_app. split.
  - apply trade_prints_cancel.
  - constructor; [reflexivity | apply delete_events_cancel].
Qed.

Lemma cancel_event_quiet (option_id : string) (es : list event) :
  Forall (cancel_event option_id) es ->
  Forall (fun ev => is_insert ev = false) es
  /\ Forall (fun ev => is_get_positions ev = false) es
  /\ sleeps es = [].
Proof.
  induction 1 as [| ev es Hev _ (IH1 & IH2 & IH3)].
  - repeat split; constructor.
  - destruct ev; simpl in Hev; try contradiction;
      (split; [constructor; [reflexivity | assumption] |]);
      (split; [constructor; [reflexivity | assumption] |]);
      simpl; exact IH3.
Qed.

Section QuotingRuns.
Context {X : Type} `{Exchange X}.

Lemma update_quotes_always_quoting (option_id : string)
    (theoretical_price credit : float) (volume position_limit : Z)
    (tick_size : float) :
  always (X := X) (quoting_event option_id volume)
    (update_quotes option_id theoretical_price credit volume position_limit
       tick_size).
Proof.
  unfold update_quotes.
  apply always_bind; [apply always_call; intros r; reflexivity |].
  intros trades.
  apply always_bind.
  { apply always_for_each. intros t _. apply always_print. exact I. }
  intros _.
  apply always_bind; [apply always_call; intros r; reflexivity |].
  intros orders.
  apply always_bind.
  { apply always_for_each. intros [order_id o] _.
    apply always_bind; [apply always_print; exact I |].
    intros _. apply always_call. intros r. reflexivity. }
  intros _.
  apply always_bind; [apply always_lift |]. intros bid.
  apply always_bind; [apply always_lift |]. intros ask.
  apply always_bind; [apply always_call; intros r; exact I |].
  intros positions.
  apply always_bind; [apply always_lift |]. intros position. cbv zeta.
  apply always_bind.
  - destruct (Z.ltb_spec 0 (Z.min volume (position_limit - position))).
    + apply always_bind; [apply always_print; exact I |].
      intros _. apply always_call. intros r. simpl.
      repeat split; try lia. left. reflexivity.
    + apply always_ret.
  - intros _.
    destruct (Z.ltb_spec 0 (Z.min volume (position_limit + position))).
    + apply always_bind; [apply always_print; exact I |].
      intros _. apply always_call. intros r. simpl.
      repeat split; try lia. right. reflexivity.
    + apply always_ret.
Qed.

(** The loop over the outstanding orders deletes them all, in order, or ends
    in the deletion that raised. *)
Lemma emits_delete_loop_raised (option_id : string) (orders : dict Z order) :
  emits (X := X)
    (for_each orders (fun '(order_id, o) =>
       bind (print (msg_deleting (order_side o) option_id (order_volume o)
                      (order_price o)))
         (fun _ => call (delete_order option_id order_id)
                     (ev_delete_order option_id order_id))))
    (fun r es =>
       match r with
       | Ok _ => es = delete_events option_id orders
       | Raise e =>
           exchange_raised e es /\ Forall (cancel_event option_id) es
       end).
Proof.
  induction orders as [| [order_id o] orders IH]; simpl.
  - apply emits_ret. reflexivity.
  - apply emits_bind, emits_bind, emits_emit, emits_call.
    intros [[] | e]; simpl.
    + eapply emits_weaken; [exact IH |].
      intros [[] | e] es; simpl.
      * intros ->. reflexivity.
      * intros [Hx Hc]. split.
        -- apply (exchange_raised_app e [_; _] es Hx).
        -- repeat constructor. exact Hc.
    + split.
      * apply (exchange_raised_last e [_]). reflexivity.
      * repeat constructor.
Qed.

Lemma insert_phase_raised (option_id : string) (bv av : Z) (bid ask : float)
    (e : exn) (ins : list event) :
  insert_phase option_id bv av bid ask (Raise e) ins ->
  exchange_raised e ins.
Proof.
  intros Hphase. inversion Hphase; subst.
  - apply (exchange_raised_last e [_]). reflexivity.
  - apply (exchange_raised_last e [_; _; _]). reflexivity.
  - apply (exchange_raised_last e [_]). reflexivity.
Qed.

(** Every run of [update_quotes] is one of the five of
    [update_quotes_trace]. *)
Lemma update_quotes_traces (option_id : string)
    (theoretical_price credit : float) (volume position_limit : Z)
    (tick_size : float) :
  emits (X := X)
    (update_quotes option_id theoretical_price credit volume position_limit
       tick_size)
    (update_quotes_trace option_id theoretical_price credit volume
       position_limit tick_size).
Proof.
  unfold update_quotes.
  apply emits_bind, emits_call. intros [trades | e].
  2:{ apply trace_cancel_raises.
      - apply exchange_raised_one. reflexivity.
      - repeat constructor. }
  apply emits_bind.
  eapply emits_weaken; [apply emits_for_each_print |].
  intros r es [-> ->].
  apply emits_bind, emits_call. intros [orders | e].
  2:{ apply trace_cancel_raises.
      - apply (exchange_raised_last e (_ :: _)). reflexivity.
      - constructor; [reflexivity |]. apply Forall_app. split.
        + apply trade_prints_cancel.
        + repeat constructor. }
  apply emits_bind.
  eapply emits_weaken; [apply emits_delete_loop_raised |].
  intros [[] | e] es.
  2:{ intros [Hx Hc]. apply trace_cancel_raises.
      - simpl. apply exchange_raised_cons, exchange_raised_app.
        apply exchange_raised_cons, Hx.
      - constructor; [reflexivity |]. apply Forall_app. split.
        + apply trade_prints_cancel.
        + constructor; [reflexivity | assumption]. }
  intros ->.
  apply emits_bind, emits_lift.
  destruct (round_down_to_tick (theoretical_price - credit)%float tick_size)
    as [bid | e] eqn:Hbid.
  2:{ fold_pull. apply trace_price_raises.
      unfold price_error. rewrite Hbid. reflexivity. }
  apply emits_bind, emits_lift.
  destruct (round_up_to_tick (theoretical_price + credit)%float tick_size)
    as [ask | e] eqn:Hask.
  2:{ fold_pull. apply trace_price_raises.
      unfold price_error. rewrite Hbid, Hask. reflexivity. }
  assert (Hprices : price_error theoretical_price credit tick_size = None).
  { unfold price_error. rewrite Hbid, Hask. reflexivity. }
  apply emits_bind, emits_call. intros [positions | e].
  2:{ fold_pull. apply trace_positions_raise. exact Hprices. }
  apply emits_bind, emits_lift.
  destruct (dict_get positions option_id) as [position | e] eqn:Hposition.
  2:{ fold_pull.
      pose proof (dict_get_raises _ _ _ Hposition) as He. subst e. eapply trace_unknown_option; eassumption. }
  cbv zeta.
  eapply emits_weaken; [apply insert_phase_emits |].
  intros r ins Hins. fold_pull.
  eapply trace_inserts; eassumption.
Qed.

End QuotingRuns.

Lemma update_quotes_trace_of {X : Type} {E : Exchange X} (option_id : string)
    (theoretical_price credit : float) (volume position_limit : Z)
    (tick_size : float) (x : X) :
  update_quotes_trace option_id theoretical_price credit volume position_limit
    tick_size
    (result_of (update_quotes option_id theoretical_price credit volume
                  position_limit tick_size x))
    (events_of (update_quotes option_id theoretical_price credit volume
                  position_limit tick_size x)).
Proof. apply update_quotes_traces. Qed.

(** ** What [update_quotes] touches, and how it fails *)

(** Whatever the exchange answers, [update_quotes] calls it about
    [option_id] only, queries no book and does not sleep, and every order it
    inserts is a limit order, bid or ask, of 1 to [volume] lots. *)
Theorem update_quotes_only_quotes_its_option {X : Type} {E : Exchange X}
    (option_id : string) (theoretical_price credit : float)
    (volume position_limit : Z) (tick_size : float) (x : X) :
  Forall (quoting_event option_id volume)
    (events_of (update_quotes option_id theoretical_price credit volume
                  position_limit tick_size x)).
Proof. apply update_quotes_always_quoting. Qed.

Lemma insert_phase_no_positions (option_id : string) (bv av : Z)
    (bid ask : float) (r : result unit) (ins : list event) :
  insert_phase option_id bv av bid ask r ins ->
  Forall (fun ev => is_get_positions ev = false) ins.
Proof. intros Hphase. destruct Hphase; repeat constructor. Qed.

Lemma no_positions_not_in (es : list event) (answer : result (dict string Z)) :
  Forall (fun ev => is_get_positions ev = false) es ->
  ~ In (ev_get_positions answer) es.
Proof.
  intros Hall Hin. rewrite Forall_forall in Hall.
  specialize (Hall _ Hin). discriminate.
Qed.

Lemma pull_events_no_positions (option_id : string) (trades : list trade)
    (orders : dict Z order) :
  Forall (fun ev => is_get_positions ev = false)
    (pull_events option_id trades orders).
Proof. apply (cancel_event_quiet option_id), pull_events_cancel. Qed.

(** When a price cannot be computed, a run inserts no order and does not ask
    for the positions.  It ends in the exception of the price, after it has
    deleted every order the exchange reported, unless the exchange itself
    raised while it cancelled. *)
Theorem update_quotes_without_prices {X : Type} {E : Exchange X}
    (option_id : string) (theoretical_price credit : float)
    (volume position_limit : Z) (tick_size : float) (x : X) (e : exn) :
  price_error theoretical_price credit tick_size = Some e ->
  let o := update_quotes option_id theoretical_price credit volume
             position_limit tick_size x in
  inserted (events_of o) = []
  /\ Forall (fun ev => is_get_positions ev = false) (events_of o)
  /\ ((result_of o = Raise e
       /\ exists trades orders,
            events_of o = pull_events option_id trades orders)
      \/ exists e', result_of o = Raise e' /\ exchange_raised e' (events_of o)).
Proof.
  intros Hprice o. subst o.
  destruct (update_quotes_trace_of option_id theoretical_price credit volume
              position_limit tick_size x)
    as [e' es Hx Hc | trades orders e' He' | trades orders e' He'
       | trades orders positions e' He' _
       | trades orders bid ask positions position r ins Hbid Hask _ _].
  - destruct (cancel_event_quiet _ _ Hc) as (Hins & Hpos & _).
    split; [apply no_insert_inserted, Hins |]. split; [exact Hpos |].
    right. exists e'. split; [reflexivity | exact Hx].
  - split; [apply no_insert_inserted, pull_events_no_insert |].
    split; [apply pull_events_no_positions |].
    left. split; [congruence | eauto].
  - congruence.
  - congruence.
  - unfold price_error in Hprice. rewrite Hbid, Hask in Hprice. discriminate.
Qed.

(** When the positions the exchange reports do not include [option_id], the
    run has deleted every order the exchange reported, inserts none and ends
    in [KeyError]. *)
Theorem update_quotes_unknown_option {X : Type} {E : Exchange X}
    (option_id : string) (theoretical_price credit : float)
    (volume position_limit : Z) (tick_size : float) (x : X)
    (positions : dict string Z) :
  let o := update_quotes option_id theoretical_price credit volume
             position_limit tick_size x in
  In (ev_get_positions (Ok positions)) (events_of o) ->
  has_key positions option_id = false ->
  result_of o = Raise (KeyError option_id)
  /\ inserted (events_of o) = []
  /\ exists trades orders,
       events_of o
       = pull_events option_id trades orders ++ [ev_get_positions (Ok positions)].
Proof.
  intros o. subst o. unfold has_key.
  destruct (update_quotes_trace_of option_id theoretical_price credit volume
              position_limit tick_size x)
    as [e' es Hx Hc | trades orders e' He' | trades orders e' He'
       | trades orders positions' e' He' Hget
       | trades orders bid ask positions' position r ins _ _ Hget Hphase];
    intros Hin Hkey.
  - destruct (cancel_event_quiet _ _ Hc) as (_ & Hpos & _).
    contradiction (no_positions_not_in _ _ Hpos Hin).
  - contradiction (no_positions_not_in _ _
                     (pull_events_no_positions _ _ _) Hin).
  - apply in_app_or in Hin. destruct Hin as [Hin | [Hin | []]].
    + contradiction (no_positions_not_in _ _
                       (pull_events_no_positions _ _ _) Hin).
    + discriminate.
  - apply in_app_or in Hin. destruct Hin as [Hin | [Hin | []]].
    + contradiction (no_positions_not_in _ _
                       (pull_events_no_positions _ _ _) Hin).
    + injection Hin as ->. split; [reflexivity |]. split; [| eauto].
      rewrite inserted_app.
      rewrite (no_insert_inserted _ (pull_events_no_insert _ _ _)).
      reflexivity.
  - apply in_app_or in Hin. destruct Hin as [Hin | [Hin | Hin]].
    + contradiction (no_positions_not_in _ _
                       (pull_events_no_positions _ _ _) Hin).
    + injection Hin as ->. rewrite Hget in Hkey. discriminate.
    + contradiction (no_positions_not_in _ _
                       (insert_phase_no_positions _ _ _ _ _ _ _ Hphase) Hin).
Qed.

Section QuotingExamples.
Local Open Scope float_scope.

(** A tick of zero: the two outstanding orders are deleted, then the division
    raises. *)
Lemma update_quotes_without_prices_example :
  let o := update_quotes EXAMPLE_OPTION 10 0.15 3 100 0 (sim_quoted 0) in
  inserted (events_of o) = []
  /\ Forall (fun ev => is_get_positions ev = false) (events_of o)
  /\ ((result_of o = Raise ZeroDivisionError
       /\ exists trades orders,
            events_of o = pull_events EXAMPLE_OPTION trades orders)
      \/ exists e', result_of o = Raise e' /\ exchange_raised e' (events_of o)).
Proof.
  apply (update_quotes_without_prices (E := sim_exchange) EXAMPLE_OPTION
           10 0.15 3 100 0 (sim_quoted 0) ZeroDivisionError).
  vm_compute. reflexivity.
Defined.

(** The second option of [OPTIONS] on an exchange that reports positions for
    the first option and the stock only. *)
Lemma update_quotes_unknown_option_example :
  let o := update_quotes "BMW-2021_12_10-075P" 10 0.15 3 100 0.10
             (sim_quoted 0) in
  result_of o = Raise (KeyError "BMW-2021_12_10-075P")
  /\ inserted (events_of o) = []
  /\ exists trades orders,
       events_of o
       = pull_events "BMW-2021_12_10-075P" trades orders
         ++ [ev_get_positions (Ok [(EXAMPLE_OPTION, 0%Z); (STOCK_ID, 0%Z)])].
Proof.
  apply (update_quotes_unknown_option (E := sim_exchange)
           "BMW-2021_12_10-075P" 10 0.15 3 100 0.10 (sim_quoted 0)
           [(EXAMPLE_OPTION, 0%Z); (STOCK_ID, 0%Z)]).
  - vm_compute. right. right. left. reflexivity.
  - vm_compute. reflexivity.
Defined.

End QuotingExamples.

(** ** [hedge_delta_position] *)

Section HedgeLoop.
Context {X : Type} `{Exchange X}.

(** The loop over the options, from positions that are known. *)
Lemma hedge_loop_reports (positions : dict string Z)
    (position_of : string -> Z) (options : list option_entry) (x : X) :
  (forall k, In k (map opt_id options) ->
             dict_get positions k = Ok (position_of k)) ->
  for_each options (fun option =>
    bind (lift (dict_get positions (opt_id option)))
      (fun position => print (msg_option_position (opt_id option) position)))
    x
  = (Ok tt, x, option_position_prints position_of (map opt_id options)).
Proof.
  induction options as [| o options IH]; intros Hknown.
  - reflexivity.
  - cbn [for_each]. unfold bind at 1. unfold bind at 1. unfold lift at 1.
    rewrite (Hknown (opt_id o)) by (left; reflexivity).
    cbv beta iota. unfold print at 1, emit at 1. cbv beta iota.
    rewrite IH by (intros k Hk; apply Hknown; right; exact Hk).
    reflexivity.
Qed.

(** The loop over the options stops at the first one without a position. *)
Lemma hedge_loop_missing (positions : dict string Z)
    (position_of : string -> Z) (known : list string) (k : string)
    (rest : list string) (options : list option_entry) (x : X) :
  map opt_id options = known ++ k :: rest ->
  (forall k', In k' known -> dict_get positions k' = Ok (position_of k')) ->
  has_key positions k = false ->
  for_each options (fun option =>
    bind (lift (dict_get positions (opt_id option)))
      (fun position => print (msg_option_position (opt_id option) position)))
    x
  = (Raise (KeyError k), x, option_position_prints position_of known).
Proof.
  revert options.
  induction known as [| k0 known IH]; intros options Hids Hknown Hmissing;
    destruct options as [| o options]; simpl in Hids; try discriminate;
    injection Hids as Hid Hids;
    cbn [for_each]; unfold bind at 1; unfold bind at 1; unfold lift at 1.
  - rewrite Hid, (has_key_false _ _ Hmissing). reflexivity.
  - rewrite Hid, (Hknown k0) by (left; reflexivity).
    cbv beta iota. unfold print at 1, emit at 1. cbv beta iota.
    rewrite (IH options Hids) by
      (try assumption; intros k' Hk'; apply Hknown; right; exact Hk').
    reflexivity.
Qed.

Lemma hedge_loop_quiet (positions : dict string Z)
    (options : list option_entry) (x : X) :
  exists r prints,
    for_each options (fun option =>
      bind (lift (dict_get positions (opt_id option)))
        (fun position =>
           print (msg_option_position (opt_id option) position))) x
    = (r, x, prints)
    /\ Forall (fun ev => is_print ev = true) prints.
Proof.
  induction options as [| o options (r & prints & IH & Hprints)].
  - exists (Ok tt), []. split; [reflexivity | constructor].
  - cbn [for_each]. unfold bind at 1. unfold bind at 1. unfold lift at 1.
    destruct (dict_get positions (opt_id o)) as [position | e].
    + cbv beta iota. unfold print at 1, emit at 1. cbv beta iota.
      rewrite IH. eexists. eexists. split; [reflexivity |].
      constructor; [reflexivity | exact Hprints].
    + eexists. eexists. split; [reflexivity | constructor].
Qed.

End HedgeLoop.

Lemma hedge_delta_position_quiet {X : Type} {E : Exchange X}
    (stock_id : string) (options : list option_entry) (stock_value : float)
    (x : X) :
  exists r prints,
    hedge_delta_position stock_id options stock_value x
    = (r, snd (get_positions x),
       ev_get_positions (fst (get_positions x)) :: prints)
    /\ Forall (fun ev => is_print ev = true) prints.
Proof.
  unfold hedge_delta_position. unfold bind at 1. unfold call.
  destruct (get_positions x) as [[positions | e] x1]; cbv beta iota.
  2:{ exists (Raise e), []. split; [reflexivity | constructor]. }
  unfold bind at 1.
  destruct (hedge_loop_quiet positions options x1) as (r & es & -> & Hes).
  destruct r as [[] | e]; cbv beta iota.
  2:{ exists (Raise e), es. split; [reflexivity | exact Hes]. }
  unfold bind, lift, print, emit.
  destruct (dict_get positions stock_id) as [stock_position | e]; simpl.
  - eexists. eexists. split; [reflexivity |].
    apply Forall_app. split; [exact Hes | repeat constructor].
  - eexists. eexists. split; [reflexivity |].
    rewrite app_nil_r. exact Hes.
Qed.

(** [hedge_delta_position] reads and reports; it does not trade.  Its one
    call to the exchange is [get_positions], everything after it is printed,
    and it leaves the exchange as that call left it. *)
Theorem hedge_delta_position_read_only {X : Type} {E : Exchange X}
    (stock_id : string) (options : list option_entry) (stock_value : float)
    (x : X) :
  let o := hedge_delta_position stock_id options stock_value x in
  state_of o = snd (get_positions x)
  /\ exists prints,
       events_of o = ev_get_positions (fst (get_positions x)) :: prints
       /\ Forall (fun ev => is_print ev = true) prints.
Proof.
  intros o. subst o.
  destruct (hedge_delta_position_quiet stock_id options stock_value x)
    as (r & prints & -> & Hprints).
  split; [reflexivity |]. exists prints. split; [reflexivity | exact Hprints].
Qed.

(** When the exchange reports a position for every option and for the
    stock, [hedge_delta_position] prints them in the order of [options], the
    stock last, says that it does not hedge, and returns. *)
Theorem hedge_delta_position_reports {X : Type} {E : Exchange X}
    (stock_id : string) (options : list option_entry) (stock_value : float)
    (x x1 : X) (positions : dict string Z) (position_of : string -> Z) :
  get_positions x = (Ok positions, x1) ->
  (forall k, In k (stock_id :: map opt_id options) ->
             dict_get positions k = Ok (position_of k)) ->
  hedge_delta_position stock_id options stock_value x
  = (Ok tt, x1,
     ev_get_positions (Ok positions)
     :: option_position_prints position_of (map opt_id options)
        ++ [ev_print (msg_stock_position stock_id (position_of stock_id));
            ev_print msg_hedge_not_implemented]).
Proof.
  intros Hget Hknown.
  unfold hedge_delta_position. unfold bind at 1. unfold call.
  rewrite Hget. unfold bind at 1.
  rewrite (hedge_loop_reports positions position_of options x1)
    by (intros k Hk; apply Hknown; right; exact Hk).
  unfold bind, lift, print, emit.
  rewrite (Hknown stock_id) by (left; reflexivity).
  reflexivity.
Qed.

(** When the exchange reports no position for [k], the first such
    instrument among the options in their order and then the stock,
    [hedge_delta_position] prints the positions of the options before [k]
    and ends in [KeyError]. *)
Theorem hedge_delta_position_missing_key {X : Type} {E : Exchange X}
    (stock_id : string) (options : list option_entry) (stock_value : float)
    (x x1 : X) (positions : dict string Z) (position_of : string -> Z)
    (known : list string) (k : string) (unknown : list string) :
  get_positions x = (Ok positions, x1) ->
  map opt_id options ++ [stock_id] = known ++ k :: unknown ->
  (forall k', In k' known -> dict_get positions k' = Ok (position_of k')) ->
  has_key positions k = false ->
  hedge_delta_position stock_id options stock_value x
  = (Raise (KeyError k), x1,
     ev_get_positions (Ok positions)
     :: option_position_prints position_of known).
Proof.
  intros Hget Hkeys Hknown Hmissing.
  unfold hedge_delta_position. unfold bind at 1. unfold call.
  rewrite Hget. unfold bind at 1.
  apply app_eq_app in Hkeys.
  destruct Hkeys as (l & [[Hids Hrest] | [Hk Hstock]]).
  - destruct l as [| k0 l]; simpl in Hrest.
    + (* the stock is the first instrument without a position *)
      injection Hrest as -> _. rewrite app_nil_r in Hids. subst known.
      rewrite (hedge_loop_reports positions position_of options x1)
        by exact Hknown.
      unfold bind, lift, print, emit.
      rewrite (has_key_false _ _ Hmissing). simpl.
      rewrite app_nil_r. reflexivity.
    + (* an option is *)
      injection Hrest as -> Hunknown.
      rewrite (hedge_loop_missing positions position_of known k0 l options x1
                 Hids Hknown Hmissing).
      reflexivity.
  - destruct l as [| k0 l]; simpl in Hstock.
    2:{ injection Hstock as _ Hstock. destruct l; discriminate. }
    injection Hstock as <- _. rewrite app_nil_r in Hk. subst known.
    rewrite (hedge_loop_reports positions position_of options x1)
      by exact Hknown.
    unfold bind, lift, print, emit.
    rewrite (has_key_false _ _ Hmissing). simpl.
    rewrite app_nil_r. reflexivity.
Qed.

(** Every option and the stock at position 7. *)
Lemma hedge_delta_position_reports_example :
  hedge_delta_position STOCK_ID OPTIONS 75 (sim_all_options 7)
  = (Ok tt, sim_all_options 7,
     [ev_get_positions (Ok (sim_positions (sim_all_options 7)));
      ev_print (msg_option_position "BMW-2021_12_10-075C" 7);
      ev_print (msg_option_position "BMW-2021_12_10-075P" 7);
      ev_print (msg_option_position "BMW-2022_01_14-075C" 7);
      ev_print (msg_option_position "BMW-2022_01_14-075P" 7);
      ev_print (msg_stock_position STOCK_ID 0);
      ev_print msg_hedge_not_implemented]).
Proof.
  apply (hedge_delta_position_reports (E := sim_exchange) STOCK_ID OPTIONS 75
           (sim_all_options 7) (sim_all_options 7)
           (sim_positions (sim_all_options 7))
           (fun k => if String.eqb k STOCK_ID then 0 else 7)).
  - reflexivity.
  - intros k Hk. simpl in Hk.
    repeat (destruct Hk as [<- | Hk]; [reflexivity |]). contradiction.
Defined.

(** The exchange of the examples reports a position for the first option and
    for the stock: the report stops at the second option. *)
Lemma hedge_delta_position_missing_key_example :
  hedge_delta_position STOCK_ID OPTIONS 75 (sim_quoted 7)
  = (Raise (KeyError "BMW-2021_12_10-075P"), sim_quoted 7,
     [ev_get_positions (Ok [(EXAMPLE_OPTION, 7); (STOCK_ID, 0)]);
      ev_print (msg_option_position "BMW-2021_12_10-075C" 7)]).
Proof.
  apply (hedge_delta_position_missing_key (E := sim_exchange) STOCK_ID OPTIONS
           75 (sim_quoted 7) (sim_quoted 7)
           [(EXAMPLE_OPTION, 7); (STOCK_ID, 0)] (fun _ => 7)
           ["BMW-2021_12_10-075C"%string] "BMW-2021_12_10-075P"
           ["BMW-2022_01_14-075C"%string; "BMW-2022_01_14-075P"%string;
            STOCK_ID]).
  - reflexivity.
  - reflexivity.
  - intros k' Hk'. simpl in Hk'.
    destruct Hk' as [<- | []]. reflexivity.
  - reflexivity.
Defined.

(** ** The trade loop *)

(** The exceptions of the two rounding functions on floats. *)
Lemma round_down_to_tick_raises (x t : float) (e : exn) :
  round_down_to_tick x t = Raise e ->
  (is_zero t = true /\ e = ZeroDivisionError)
  \/ (is_zero t = false /\ (e = ValueError \/ e = OverflowError)).
Proof.
  unfold round_down_to_tick, truediv, floor, int_mul, binary64.
  unfold float_truediv, float_floor, float_int_mul, float_of_int, rbind.
  destruct (is_zero t); [intros He; injection He as <-; left; auto |].
  destruct (Prim2SF (x / t)); try (intros He; injection He as <-; right; auto).
  all: destruct (is_infinity _); try discriminate;
    intros He; injection He as <-; right; auto.
Qed.

Lemma round_up_to_tick_raises (x t : float) (e : exn) :
  round_up_to_tick x t = Raise e ->
  (is_zero t = true /\ e = ZeroDivisionError)
  \/ (is_zero t = false /\ (e = ValueError \/ e = OverflowError)).
Proof.
  unfold round_up_to_tick, truediv, ceil, int_mul, binary64.
  unfold float_truediv, float_ceil, float_int_mul, float_of_int, rbind.
  destruct (is_zero t); [intros He; injection He as <-; left; auto |].
  destruct (Prim2SF (x / t)); try (intros He; injection He as <-; right; auto).
  all: destruct (is_infinity _); try discriminate;
    intros He; injection He as <-; right; auto.
Qed.

Lemma price_error_raises (theoretical_price credit tick_size : float)
    (e : exn) :
  price_error theoretical_price credit tick_size = Some e ->
  (is_zero tick_size = true /\ e = ZeroDivisionError)
  \/ (is_zero tick_size = false /\ (e = ValueError \/ e = OverflowError)).
Proof.
  unfold price_error.
  destruct (round_down_to_tick _ tick_size) as [bid | e1] eqn:Hbid.
  - destruct (round_up_to_tick _ tick_size) as [ask | e2] eqn:Hask;
      [discriminate |].
    intros He. injection He as <-. exact (round_up_to_tick_raises _ _ _ Hask).
  - intros He. injection He as <-. exact (round_down_to_tick_raises _ _ _ Hbid).
Qed.

Lemma sleeps_app (es1 es2 : list event) :
  sleeps (es1 ++ es2) = sleeps es1 ++ sleeps es2.
Proof.
  induction es1 as [| e es1 IH]; simpl; [reflexivity |].
  destruct e; simpl; rewrite ?IH; reflexivity.
Qed.

Lemma no_sleep_sleeps (Q : event -> Prop) (es : list event) :
  (forall seconds, ~ Q (ev_sleep seconds)) -> Forall Q es -> sleeps es = [].
Proof.
  intros HQ. induction 1 as [| e es He _ IH]; simpl; [reflexivity |].
  destruct e; try exact IH. contradiction (HQ _ He).
Qed.

Lemma quoting_event_loop_event (option_id : string) (ev : event) :
  In option_id (map opt_id OPTIONS) ->
  quoting_event option_id 3 ev -> loop_event ev.
Proof.
  intros Hin.
  assert (Hstock : option_id <> STOCK_ID).
  { simpl in Hin.
    repeat (destruct Hin as [<- | Hin]; [discriminate |]). contradiction. }
  destruct ev; simpl; try tauto.
  - intros ->. auto.
  - intros ->. auto.
  - intros ->. auto.
  - intros (-> & Hv & Ht & Hs). auto.
Qed.

Section LoopInvariants.
Context {X : Type} `{Exchange X}.
Variable calculate_current_time_to_date : datetime -> float.
Variables call_value put_value :
  float -> number -> float -> float -> float -> float.

Lemma sleeps_none {A : Type} (Q : event -> Prop) (m : M (X := X) A) :
  (forall seconds, ~ Q (ev_sleep seconds)) -> always Q m ->
  sleeps_when_done (eq []) m.
Proof.
  intros HQ Hm. eapply emits_weaken; [exact Hm |].
  intros r es Hes a _. symmetry. exact (no_sleep_sleeps Q es HQ Hes).
Qed.

Lemma sleeps_bind {A B : Type} (L1 L2 : list number -> Prop)
    (m : M (X := X) A) (f : A -> M (X := X) B) :
  sleeps_when_done L1 m -> (forall a, sleeps_when_done L2 (f a)) ->
  sleeps_when_done (fun l => exists l1 l2, l = l1 ++ l2 /\ L1 l1 /\ L2 l2)
    (bind m f).
Proof.
  intros Hm Hf. apply emits_bind.
  eapply emits_weaken; [exact Hm |].
  intros [a | e] es Hes; [| discriminate].
  eapply emits_weaken; [apply Hf |].
  intros r es' Hes' b ->. exists (sleeps es), (sleeps es').
  split; [apply sleeps_app |]. split; [eapply Hes | eapply Hes']; reflexivity.
Qed.

(** A step that does not sleep, before the rest. *)
Lemma sleeps_after {A B : Type} (L : list number -> Prop)
    (m : M (X := X) A) (f : A -> M (X := X) B) :
  sleeps_when_done (eq []) m -> (forall a, sleeps_when_done L (f a)) ->
  sleeps_when_done L (bind m f).
Proof.
  intros Hm Hf.
  eapply emits_weaken; [exact (sleeps_bind _ _ m f Hm Hf) |].
  intros r es Hes b Hr.
  destruct (Hes b Hr) as (l1 & l2 & -> & <- & HL). exact HL.
Qed.

Lemma sleeps_print (m : message) : sleeps_when_done (X := X) (eq []) (print m).
Proof. apply emits_emit. reflexivity. Qed.

Lemma sleeps_sleep (seconds : number) :
  sleeps_when_done (X := X) (eq [seconds]) (sleep seconds).
Proof. apply emits_emit. reflexivity. Qed.

Lemma sleeps_lift {A : Type} (r : result A) :
  sleeps_when_done (X := X) (eq []) (lift r).
Proof. apply emits_lift. reflexivity. Qed.

Lemma get_midpoint_value_always (Q : event -> Prop) (instrument_id : string) :
  (forall r, Q (ev_get_last_price_book instrument_id r)) ->
  always (X := X) Q (get_midpoint_value instrument_id).
Proof.
  intros HQ. unfold get_midpoint_value.
  apply always_bind; [apply always_call, HQ |].
  intros [book |]; [| apply always_ret].
  destruct (negb _); [apply always_ret |].
  apply always_bind; [apply always_lift |]. intros best_bid.
  apply always_bind; [apply always_lift |]. intros best_ask.
  apply always_ret.
Qed.

(** [get_midpoint_value] raises only when the exchange does: the first level
    of a side is read only when the side is not empty. *)
Lemma get_midpoint_value_fails_only (own : exn -> Prop)
    (instrument_id : string) :
  fails_only (X := X) own (get_midpoint_value instrument_id).
Proof.
  unfold get_midpoint_value.
  apply fails_only_bind; [apply fails_only_call; reflexivity |].
  intros [book |]; [| apply fails_only_ret].
  destruct (bids book) as [| b bs]; [apply fails_only_ret |].
  destruct (asks book) as [| a aa]; [apply fails_only_ret |].
  simpl.
  apply fails_only_bind; [apply fails_only_lift; discriminate |].
  intros best_bid.
  apply fails_only_bind; [apply fails_only_lift; discriminate |].
  intros best_ask. apply fails_only_ret.
Qed.

Lemma hedge_delta_position_always (Q : event -> Prop) (stock_id : string)
    (options : list option_entry) (stock_value : float) :
  (forall r, Q (ev_get_positions r)) -> (forall m, Q (ev_print m)) ->
  always (X := X) Q (hedge_delta_position stock_id options stock_value).
Proof.
  intros Hcall Hprint. unfold hedge_delta_position.
  apply always_bind; [apply always_call, Hcall |]. intros positions.
  apply always_bind.
  { apply always_for_each. intros o _.
    apply always_bind; [apply always_lift |].
    intros position. apply always_print, Hprint. }
  intros _. apply always_bind; [apply always_lift |]. intros stock_position.
  apply always_bind; [apply always_print, Hprint |].
  intros _. apply always_print, Hprint.
Qed.

Lemma hedge_delta_position_fails_only (stock_id : string)
    (options : list option_entry) (stock_value : float) :
  fails_only (X := X)
    (fun e => exists k, e = KeyError k
                        /\ (k = stock_id \/ In k (map opt_id options)))
    (hedge_delta_position stock_id options stock_value).
Proof.
  unfold hedge_delta_position.
  apply fails_only_bind; [apply fails_only_call; reflexivity |].
  intros positions.
  apply fails_only_bind.
  { apply fails_only_for_each. intros o Ho.
    apply fails_only_bind; [| intros position; apply fails_only_emit].
    apply fails_only_lift. intros e He.
    exists (opt_id o). split; [exact (dict_get_raises _ _ _ He) |].
    right. apply in_map, Ho. }
  intros _. apply fails_only_bind.
  { apply fails_only_lift. intros e He.
    exists stock_id. split; [exact (dict_get_raises _ _ _ He) | left; auto]. }
  intros stock_position.
  apply fails_only_bind; [apply fails_only_emit |].
  intros _. apply fails_only_emit.
Qed.

(** An exception of [update_quotes] is the exchange's, that of a price, or
    the [KeyError] of the option. *)
Lemma update_quotes_fails_only (option_id : string)
    (theoretical_price credit : float) (volume position_limit : Z)
    (tick_size : float) :
  fails_only (X := X)
    (fun e => price_error theoretical_price credit tick_size = Some e
              \/ e = KeyError option_id)
    (update_quotes option_id theoretical_price credit volume position_limit
       tick_size).
Proof.
  eapply emits_weaken; [apply update_quotes_traces |].
  intros r es Htrace e ->.
  inversion Htrace as [e' es' Hx Hc | trades orders e' He'
                      | trades orders e' He' | trades orders positions e' He' Hget
                      | trades orders bid ask positions position r ins
                          Hbid Hask Hget Hphase]; subst.
  - left. exact Hx.
  - right. left. exact He'.
  - left. apply exchange_raised_last. reflexivity.
  - right. right. reflexivity.
  - left. apply exchange_raised_app, exchange_raised_cons.
    exact (insert_phase_raised _ _ _ _ _ _ _ Hphase).
Qed.

Lemma options_priced (option : option_entry) (stock_value : float) :
  In option OPTIONS ->
  exists value,
    calculate_theoretical_option_value calculate_current_time_to_date
      call_value put_value (opt_expiry_date option) (opt_strike option)
      (opt_callput option) stock_value 0.0%float 3.0%float = Ok value.
Proof.
  intros Hin. simpl in Hin.
  repeat (destruct Hin as [<- | Hin]; [eexists; reflexivity |]).
  contradiction.
Qed.

Lemma trade_loop_iteration_always :
  always (X := X) loop_event
    (trade_loop_iteration calculate_current_time_to_date call_value put_value).
Proof.
  unfold trade_loop_iteration.
  do 4 (apply always_bind; [apply always_print; exact I | intros _]).
  apply always_bind.
  { apply get_midpoint_value_always. intros r. reflexivity. }
  intros [stock_value |].
  - apply always_bind.
    { apply always_for_each. intros o Ho.
      apply always_bind; [apply always_print; exact I | intros _].
      apply always_bind; [apply always_lift |]. intros theoretical_value.
      apply always_bind; [| intros _; apply always_emit; exact I].
      eapply always_weaken; [| apply update_quotes_always_quoting].
      intros ev. apply quoting_event_loop_event, in_map, Ho. }
    intros _.
    apply always_bind; [apply always_print; exact I | intros _].
    apply always_bind.
    { apply hedge_delta_position_always; intros; exact I. }
    intros _.
    apply always_bind; [apply always_print; exact I | intros _].
    apply always_emit. exact I.
  - apply always_bind; [apply always_print; exact I | intros _].
    apply always_emit. exact I.
Qed.

Lemma trade_loop_iteration_fails_only :
  fails_only (X := X) own_exception
    (trade_loop_iteration calculate_current_time_to_date call_value put_value).
Proof.
  unfold trade_loop_iteration.
  do 4 (apply fails_only_bind; [apply fails_only_emit | intros _]).
  apply fails_only_bind; [apply get_midpoint_value_fails_only |].
  intros [stock_value |].
  - apply fails_only_bind.
    { apply fails_only_for_each. intros o Ho.
      apply fails_only_bind; [apply fails_only_emit | intros _].
      apply fails_only_bind.
      { apply fails_only_lift. intros e He.
        destruct (options_priced o stock_value Ho) as [value Hvalue].
        congruence. }
      intros theoretical_value.
      apply fails_only_bind; [| intros _; apply fails_only_emit].
      eapply fails_only_weaken; [| apply update_quotes_fails_only].
      intros e [Hprice | ->].
      - destruct (price_error_raises _ _ _ _ Hprice) as [[Hz _] | [_ He]].
        + discriminate Hz.
        + destruct He as [-> | ->]; [left | right; left]; reflexivity.
      - right. right. exists (opt_id o). split; [reflexivity |].
        right. apply in_map, Ho. }
    intros _.
    apply fails_only_bind; [apply fails_only_emit | intros _].
    apply fails_only_bind.
    { eapply fails_only_weaken; [| apply hedge_delta_position_fails_only].
      intros e He. right. right. exact He. }
    intros _.
    apply fails_only_bind; [apply fails_only_emit | intros _].
    apply fails_only_emit.
  - apply fails_only_bind; [apply fails_only_emit | intros _].
    apply fails_only_emit.
Qed.

Lemma quoting_sleeps (options : list option_entry) (stock_value : float) :
  sleeps_when_done (X := X) (eq (map (fun _ => PyFloat 0.10%float) options))
    (for_each options (fun option =>
       bind (print (msg_updating (opt_id option))) (fun _ =>
       bind (lift (calculate_theoretical_option_value
                     calculate_current_time_to_date call_value put_value
                     (opt_expiry_date option) (opt_strike option)
                     (opt_callput option) stock_value 0.0%float 3.0%float))
         (fun theoretical_value =>
       bind (update_quotes (opt_id option) theoretical_value 0.15%float 3 100
               0.10%float) (fun _ =>
       sleep (PyFloat 0.10%float)))))).
Proof.
  induction options as [| o options IH]; simpl.
  - apply emits_ret. reflexivity.
  - eapply emits_weaken.
    { apply (sleeps_bind (eq [PyFloat 0.10%float])
               (eq (map (fun _ => PyFloat 0.10%float) options))).
      - apply sleeps_after; [apply sleeps_print | intros _].
        apply sleeps_after; [apply sleeps_lift | intros theoretical_value].
        apply sleeps_after; [| intros _; apply sleeps_sleep].
        apply (sleeps_none (quoting_event (opt_id o) 3)).
        + intros seconds Hs. exact Hs.
        + apply update_quotes_always_quoting.
      - intros _. exact IH. }
    intros r es Hes a Hr.
    destruct (Hes a Hr) as (l1 & l2 & -> & <- & <-). reflexivity.
Qed.

Lemma trade_loop_iteration_sleeps :
  sleeps_when_done (X := X) iteration_sleeps
    (trade_loop_iteration calculate_current_time_to_date call_value put_value).
Proof.
  unfold trade_loop_iteration.
  do 4 (apply sleeps_after; [apply sleeps_print | intros _]).
  apply sleeps_after.
  { apply (sleeps_none (fun ev => is_trading_call ev = false /\ sleeps [ev] = [])).
    - intros seconds [_ Hs]. discriminate.
    - apply get_midpoint_value_always. intros r. split; reflexivity. }
  intros [stock_value |].
  - eapply emits_weaken.
    { apply (sleeps_bind (eq (map (fun _ => PyFloat 0.10%float) OPTIONS))
               (eq [PyInt 4])).
      - apply quoting_sleeps.
      - intros _.
        apply sleeps_after; [apply sleeps_print | intros _].
        apply sleeps_after.
        { apply (sleeps_none (fun ev => is_get_positions ev = true
                                        \/ is_print ev = true)).
          - intros seconds [Hs | Hs]; discriminate.
          - apply hedge_delta_position_always; intros; [left | right];
              reflexivity. }
        intros _.
        apply sleeps_after; [apply sleeps_print | intros _].
        apply sleeps_sleep. }
    intros r es Hes a Hr.
    destruct (Hes a Hr) as (l1 & l2 & -> & <- & <-). right. reflexivity.
  - apply sleeps_after; [apply sleeps_print | intros _].
    eapply emits_weaken; [apply sleeps_sleep |].
    intros r es Hes a Hr. left. symmetry. exact (Hes a Hr).
Qed.

Lemma trade_loop_always (n : nat) :
  always (X := X) loop_event
    (trade_loop calculate_current_time_to_date call_value put_value n).
Proof.
  induction n as [| n IH]; simpl.
  - apply always_ret.
  - apply always_bind; [apply trade_loop_iteration_always | intros _; exact IH].
Qed.

Lemma trade_loop_fails_only (n : nat) :
  fails_only (X := X) own_exception
    (trade_loop calculate_current_time_to_date call_value put_value n).
Proof.
  induction n as [| n IH]; simpl.
  - apply fails_only_ret.
  - apply fails_only_bind;
      [apply trade_loop_iteration_fails_only | intros _; exact IH].
Qed.

Lemma trade_loop_sleeps_blocks (n : nat) :
  sleeps_when_done (X := X)
    (fun l => exists blocks,
                length blocks = n /\ Forall iteration_sleeps blocks
                /\ l = concat blocks)
    (trade_loop calculate_current_time_to_date call_value put_value n).
Proof.
  induction n as [| n IH]; simpl.
  - apply emits_ret. intros _ _. exists []. repeat split. constructor.
  - eapply emits_weaken.
    { apply (sleeps_bind iteration_sleeps
               (fun l => exists blocks,
                           length blocks = n /\ Forall iteration_sleeps blocks
                           /\ l = concat blocks)).
      - apply trade_loop_iteration_sleeps.
      - intros _. exact IH. }
    intros r es Hes a Hr.
    destruct (Hes a Hr) as (l1 & l2 & Hl & Hl1 & blocks & Hn & Hall & ->).
    exists (l1 :: blocks). split; [simpl; congruence |].
    split; [constructor; assumption | exact Hl].
Qed.

End LoopInvariants.

(** However long the loop runs and whatever the exchange answers, the only
    book it queries is the stock's, and it polls trades, reads, deletes and
    inserts orders for the options of [OPTIONS] only, never for the stock;
    every order it inserts is a limit order, bid or ask, of 1 to 3 lots. *)
Theorem trade_loop_trades_options_only {X : Type} {E : Exchange X}
    (calculate_current_time_to_date : datetime -> float)
    (call_value put_value : float -> number -> float -> float -> float -> float)
    (n : nat) (x : X) :
  Forall loop_event
    (events_of (trade_loop calculate_current_time_to_date call_value put_value
                  n x)).
Proof. apply trade_loop_always. Qed.

(** An exception that ends the loop was raised by the exchange call made
    last, or is [ValueError] or [OverflowError] (a theoretical price that is
    NaN or infinite), or the [KeyError] of an option or of the stock missing
    from the positions.  The loop does not end in [ZeroDivisionError],
    [IndexError] or the exception of the pricing functions of its own. *)
Theorem trade_loop_exceptions {X : Type} {E : Exchange X}
    (calculate_current_time_to_date : datetime -> float)
    (call_value put_value : float -> number -> float -> float -> float -> float)
    (n : nat) (x : X) (e : exn) :
  let o := trade_loop calculate_current_time_to_date call_value put_value n x in
  result_of o = Raise e ->
  exchange_raised e (events_of o) \/ own_exception e.
Proof.
  intros o Hr.
  exact (trade_loop_fails_only calculate_current_time_to_date call_value
           put_value n x e Hr).
Qed.

(** When the loop has completed [n] iterations, it has slept in each of
    them: 4 seconds in an iteration without a midpoint of the stock, and
    otherwise 0.10 seconds after each option and 4 seconds at the end. *)
Theorem trade_loop_sleeps {X : Type} {E : Exchange X}
    (calculate_current_time_to_date : datetime -> float)
    (call_value put_value : float -> number -> float -> float -> float -> float)
    (n : nat) (x : X) :
  let o := trade_loop calculate_current_time_to_date call_value put_value n x in
  result_of o = Ok tt ->
  exists blocks,
    length blocks = n /\ Forall iteration_sleeps blocks
    /\ sleeps (events_of o) = concat blocks.
Proof.
  intros o Hr.
  exact (trade_loop_sleeps_blocks calculate_current_time_to_date call_value
           put_value n x tt Hr).
Qed.

Section LoopExamples.
Local Open Scope float_scope.

(** The exchange of the examples reports no position for the second option:
    the first iteration ends in its [KeyError]. *)
Lemma trade_loop_exceptions_example :
  let o := trade_loop (fun _ => 0.05) (fun _ _ _ _ _ => 10)
             (fun _ _ _ _ _ => 10) 3 (sim_quoted 0) in
  exchange_raised (KeyError "BMW-2021_12_10-075P") (events_of o)
  \/ own_exception (KeyError "BMW-2021_12_10-075P").
Proof.
  apply (trade_loop_exceptions (E := sim_exchange) (fun _ => 0.05)
           (fun _ _ _ _ _ => 10) (fun _ _ _ _ _ => 10) 3 (sim_quoted 0)).
  vm_compute. reflexivity.
Defined.

(** Two iterations on an exchange that knows every option. *)
Lemma trade_loop_sleeps_example :
  let o := trade_loop (fun _ => 0.05) (fun _ _ _ _ _ => 10)
             (fun _ _ _ _ _ => 10) 2 (sim_all_options 0) in
  exists blocks,
    length blocks = 2%nat /\ Forall iteration_sleeps blocks
    /\ sleeps (events_of o) = concat blocks.
Proof.
  apply (trade_loop_sleeps (E := sim_exchange) (fun _ => 0.05)
           (fun _ _ _ _ _ => 10) (fun _ _ _ _ _ => 10) 2 (sim_all_options 0)).
  vm_compute. reflexivity.
Defined.

End LoopExamples.

(** ** Floats and their values *)

Section FloatValues.
Local Open Scope R_scope.

(** A number of the format rounds to itself only. *)
Lemma nearest_fmt_eq (f u : R) : fmt u -> nearest f u -> f = u.
Proof.
  intros Hu [_ Hn]. specialize (Hn u Hu).
  replace (u - u) with 0 in Hn by ring. rewrite Rabs_R0 in Hn.
  destruct (Req_dec (f - u) 0) as [Heq | Hne]; [lra |].
  pose proof (Rabs_pos_lt _ Hne). lra.
Qed.

(** Rounding does not cross a number of the format. *)
Lemma nearest_ge_fmt (f u g : R) : nearest f u -> fmt g -> g <= u -> g <= f.
Proof.
  intros [_ Hn] Hg Hgu. specialize (Hn g Hg).
  destruct (Rle_or_lt g f) as [Hle | Hlt]; [exact Hle | exfalso].
  revert Hn. unfold Rabs. repeat destruct Rcase_abs; lra.
Qed.

Lemma nearest_le_fmt (f u g : R) : nearest f u -> fmt g -> u <= g -> f <= g.
Proof.
  intros [_ Hn] Hg Hgu. specialize (Hn g Hg).
  destruct (Rle_or_lt f g) as [Hle | Hlt]; [exact Hle | exfalso].
  revert Hn. unfold Rabs. repeat destruct Rcase_abs; lra.
Qed.

(** [Z.shiftl v e] is the floor of [v * 2^e]. *)
Lemma F2R_lt_shiftl_succ (v e : Z) : F2R v e < IZR (Z.shiftl v e) + 1.
Proof.
  unfold F2R. destruct (Z_le_gt_dec 0 e) as [He | He].
  - rewrite Z.shiftl_mul_pow2, mult_IZR, <- pow2_IZR by lia. lra.
  - replace e with (- - e)%Z at 2 by lia.
    change (Z.shiftl v (- - e)) with (Z.shiftr v (- e)).
    rewrite Z.shiftr_div_pow2 by lia.
    assert (Hp : (0 < 2 ^ (- e))%Z) by (apply Z.pow_pos_nonneg; lia).
    pose proof (Z.mod_pos_bound v (2 ^ (- e)) Hp) as Hrem.
    pose proof (Z.div_mod v (2 ^ (- e)) ltac:(lia)) as Hdiv.
    assert (Hlt : (v < 2 ^ (- e) * (v / 2 ^ (- e) + 1))%Z) by lia.
    apply IZR_lt in Hlt. rewrite mult_IZR, plus_IZR, <- pow2_IZR in Hlt by lia.
    assert (Hinv : pow2 (- e) * pow2 e = 1).
    { rewrite <- pow2_add. replace (- e + e)%Z with 0%Z by lia. reflexivity. }
    pose proof (pow2_pos e). pose proof (pow2_pos (- e)).
    apply Rmult_lt_reg_r with (pow2 (- e)); [assumption |].
    replace (IZR v * pow2 e * pow2 (- e)) with (IZR v * (pow2 (- e) * pow2 e))
      by ring.
    rewrite Hinv. lra.
Qed.

Lemma float_floor_bounds (x : float) (k : Z) :
  float_floor x = Ok k ->
  IZR k <= B2R (Prim2SF x) < IZR k + 1.
Proof.
  unfold float_floor.
  destruct (Prim2SF x) as [s | s | | s m e]; try discriminate;
    intros Hk; injection Hk as <-.
  - simpl. lra.
  - rewrite B2R_signed. split; [apply shiftl_le_F2R | apply F2R_lt_shiftl_succ].
Qed.

Lemma float_ceil_bounds (x : float) (k : Z) :
  float_ceil x = Ok k ->
  IZR k - 1 < B2R (Prim2SF x) <= IZR k.
Proof.
  unfold float_ceil.
  destruct (Prim2SF x) as [s | s | | s m e]; try discriminate;
    intros Hk; injection Hk as <-.
  - simpl. lra.
  - rewrite B2R_signed.
    replace (if s then Z.pos m else Z.neg m)
      with (- (if s then Z.neg m else Z.pos m))%Z by (destruct s; reflexivity).
    set (v := if s then Z.neg m else Z.pos m).
    split; [| apply F2R_le_opp_shiftl].
    pose proof (F2R_lt_shiftl_succ (- v) e) as Hlt.
    unfold F2R in *. rewrite !opp_IZR in *. lra.
Qed.

(** Comparison of finite floats is comparison of their values. *)
Lemma SFleb_B2R (z1 z2 : spec_float) :
  valid z1 -> valid z2 -> is_fin z1 -> is_fin z2 ->
  SFleb z1 z2 = true -> B2R z1 <= B2R z2.
Proof.
  intros Hv1 Hv2 Hf1 Hf2.
  destruct z1 as [s1 | s1 | | s1 m1 e1]; try contradiction;
    destruct z2 as [s2 | s2 | | s2 m2 e2]; try contradiction.
  - intros _. simpl. lra.
  - pose proof (F2R_pos m2 e2). unfold SFleb, SFcompare. simpl B2R.
    destruct s2; [discriminate | intros _; lra].
  - pose proof (F2R_pos m1 e1). unfold SFleb, SFcompare. simpl B2R.
    destruct s1; [intros _; lra | discriminate].
  - pose proof (F2R_pos m1 e1). pose proof (F2R_pos m2 e2).
    unfold SFleb, SFcompare. simpl B2R.
    destruct s1, s2; try discriminate; try (intros _; lra).
    + destruct (Z.compare_spec e1 e2) as [He | He | He].
      * subst e2. fold (Pos.compare m1 m2).
        destruct (Pos.compare_spec m1 m2) as [Hm | Hm | Hm]; simpl;
          try discriminate; intros _.
        -- subst m2. lra.
        -- assert (IZR (Z.pos m2) < IZR (Z.pos m1)) by (apply IZR_lt; lia).
           pose proof (pow2_pos e1). unfold F2R. nra.
      * discriminate.
      * intros _. pose proof (valid_exp_lt _ _ _ _ _ _ Hv2 Hv1 He). lra.
    + destruct (Z.compare_spec e1 e2) as [He | He | He].
      * subst e2. fold (Pos.compare m1 m2).
        destruct (Pos.compare_spec m1 m2) as [Hm | Hm | Hm]; simpl;
          try discriminate; intros _.
        -- subst m2. lra.
        -- assert (IZR (Z.pos m1) < IZR (Z.pos m2)) by (apply IZR_lt; lia).
           pose proof (pow2_pos e1). unfold F2R. nra.
      * intros _. pose proof (valid_exp_lt _ _ _ _ _ _ Hv1 Hv2 He). lra.
      * discriminate.
Qed.

Lemma float_le_B2R (x y : float) :
  is_fin (Prim2SF x) -> is_fin (Prim2SF y) -> float_le x y ->
  B2R (Prim2SF x) <= B2R (Prim2SF y).
Proof.
  intros Hx Hy Hle. unfold float_le in Hle. rewrite leb_spec in Hle.
  apply SFleb_B2R; try assumption; apply Prim2SF_valid'.
Qed.

Lemma B2R_float_le (x y : float) :
  is_fin (Prim2SF x) -> is_fin (Prim2SF y) ->
  B2R (Prim2SF x) <= B2R (Prim2SF y) -> float_le x y.
Proof.
  intros Hx Hy Hle. unfold float_le. rewrite leb_spec.
  apply SFleb_le; try assumption; apply Prim2SF_valid'.
Qed.

(** What [is_nan], [is_infinity] and [is_finite] say of a float. *)
Lemma SFeqb_refl (z : spec_float) : z <> S754_nan -> SFeqb z z = true.
Proof.
  unfold SFeqb, SFcompare.
  destruct z as [s | s | | s m e]; try reflexivity.
  - destruct s; reflexivity.
  - intros Hn. contradiction Hn. reflexivity.
  - intros _. rewrite Z.compare_refl. fold (Pos.compare m m).
    rewrite Pos.compare_refl. destruct s; reflexivity.
Qed.

Lemma float_classes (x : float) :
  match Prim2SF x with
  | S754_nan => is_nan x = true /\ is_infinity x = false
  | S754_infinity _ => is_nan x = false /\ is_infinity x = true
  | _ => is_nan x = false /\ is_infinity x = false /\ is_finite x = true
  end.
Proof.
  unfold is_finite, is_nan, is_infinity.
  rewrite !FloatAxioms.eqb_spec, FloatAxioms.abs_spec.
  change (Prim2SF infinity) with (S754_infinity false).
  destruct (Prim2SF x) as [s | s | | s m e] eqn:Hx.
  - repeat split; destruct s; reflexivity.
  - split; destruct s; reflexivity.
  - split; reflexivity.
  - rewrite SFeqb_refl by discriminate. repeat split.
Qed.

End FloatValues.

(** ** The integer of [floor] and [ceil] converts back exactly *)

Section IntegerOfFloat.
Local Open Scope R_scope.

Lemma shiftl_fmt (v e : Z) :
  (Z.abs v < 2 ^ 53)%Z -> (-1074 <= e)%Z -> Rabs (F2R v e) < pow2 1024 ->
  fmt (IZR (Z.shiftl v e)) /\ Rabs (IZR (Z.shiftl v e)) < pow2 1024.
Proof.
  intros Hv He Hbound. destruct (Z_le_gt_dec 0 e) as [Hpos | Hneg].
  - assert (Heq : IZR (Z.shiftl v e) = F2R v e).
    { unfold F2R. rewrite Z.shiftl_mul_pow2, mult_IZR, <- pow2_IZR by lia.
      reflexivity. }
    rewrite Heq. split; [| exact Hbound].
    exists v, e. split; [reflexivity | split; assumption].
  - replace e with (- - e)%Z by lia.
    change (Z.shiftl v (- - e)) with (Z.shiftr v (- e)).
    rewrite Z.shiftr_div_pow2 by lia.
    assert (Hp : (0 < 2 ^ (- e))%Z) by (apply Z.pow_pos_nonneg; lia).
    assert (Hk : (Z.abs (v / 2 ^ (- e)) <= Z.abs v)%Z).
    { pose proof (Z.mul_div_le v (2 ^ (- e)) Hp) as Hle.
      pose proof (Z.mod_pos_bound v (2 ^ (- e)) Hp) as Hrem.
      pose proof (Z.div_mod v (2 ^ (- e)) ltac:(lia)) as Hdiv.
      destruct (Z_le_gt_dec 0 v) as [Hv0 | Hv0].
      - assert (0 <= v / 2 ^ (- e))%Z by (apply Z.div_pos; lia). nia.
      - assert (v / 2 ^ (- e) < 0)%Z by (apply Z.div_lt_upper_bound; lia).
        nia. }
    split.
    + exists (v / 2 ^ (- e))%Z, 0%Z. split; [| split; lia].
      unfold F2R, pow2. simpl. ring.
    + rewrite <- abs_IZR.
      apply Rlt_le_trans with (IZR (2 ^ 53)); [apply IZR_lt; lia |].
      rewrite <- pow2_IZR by lia. apply pow2_le. lia.
Qed.

Lemma float_of_int_exact (k : Z) :
  fmt (IZR k) -> Rabs (IZR k) < pow2 1024 ->
  exists f, float_of_int k = Ok f /\ is_fin (Prim2SF f)
            /\ B2R (Prim2SF f) = IZR k.
Proof.
  intros Hfmt Hbound. unfold float_of_int.
  destruct (binary_normalize_rounds k 0) as [Hr Hv].
  set (z := binary_normalize prec emax k 0 false) in *.
  assert (Hz : Prim2SF (SF2Prim z) = z) by (apply Prim2SF_SF2Prim, Hv).
  assert (Hk : F2R k 0 = IZR k) by (unfold F2R, pow2; simpl; ring).
  rewrite Hk in Hr.
  pose proof (float_classes (SF2Prim z)) as Hclass. rewrite Hz in Hclass.
  destruct z as [s | s | | s m e] eqn:Hzeq.
  - destruct Hclass as (_ & -> & _). exists (SF2Prim (S754_zero s)).
    rewrite Hz. split; [reflexivity |]. split; [exact I |].
    simpl in Hr. simpl. exact (nearest_fmt_eq _ _ Hfmt Hr).
  - exfalso. destruct Hr as (f & Hn & Hf).
    rewrite (nearest_fmt_eq _ _ Hfmt Hn) in Hf.
    revert Hbound. unfold Rabs. destruct Rcase_abs; destruct s; lra.
  - contradiction.
  - destruct Hclass as (_ & -> & _). exists (SF2Prim (S754_finite s m e)).
    rewrite Hz. split; [reflexivity |]. split; [exact I |].
    exact (nearest_fmt_eq _ _ Hfmt Hr).
Qed.

Lemma finite_mantissa (s : bool) (m : positive) (e : Z) :
  valid (S754_finite s m e) ->
  (Z.abs (if s then Z.neg m else Z.pos m) < 2 ^ 53)%Z /\ (-1074 <= e)%Z
  /\ Rabs (F2R (if s then Z.neg m else Z.pos m) e) < pow2 1024.
Proof.
  intros Hv. destruct (valid_finite s m e Hv) as (He & Hd & _ & _).
  pose proof (Zdigits2_bounds (Z.pos m) ltac:(lia)) as [_ Hhi].
  assert (Hm : (Z.pos m < 2 ^ 53)%Z).
  { apply Z.lt_le_trans with (2 ^ Zdigits2 (Z.pos m))%Z; [exact Hhi |].
    apply Z.pow_le_mono_r; lia. }
  split; [destruct s; simpl; lia |]. split; [lia |].
  pose proof (valid_below_overflow _ Hv) as Hb. rewrite B2R_signed in Hb.
  unfold Rabs. destruct Rcase_abs; lra.
Qed.

(** [floor] of a float is an integer that the format holds: converting it
    back to a float neither rounds nor overflows. *)
Lemma float_floor_converts (x : float) (k : Z) :
  float_floor x = Ok k ->
  exists f, float_of_int k = Ok f /\ is_fin (Prim2SF f)
            /\ B2R (Prim2SF f) = IZR k.
Proof.
  unfold float_floor. pose proof (Prim2SF_valid' x) as Hv.
  destruct (Prim2SF x) as [s | s | | s m e]; try discriminate;
    intros Hk; injection Hk as <-.
  - apply float_of_int_exact; [apply fmt_0 |].
    rewrite Rabs_R0. apply pow2_pos.
  - destruct (finite_mantissa s m e Hv) as (Hm & He & Hb).
    destruct (shiftl_fmt _ e Hm He Hb) as [Hfmt Hbound].
    apply float_of_int_exact; assumption.
Qed.

Lemma float_ceil_converts (x : float) (k : Z) :
  float_ceil x = Ok k ->
  exists f, float_of_int k = Ok f /\ is_fin (Prim2SF f)
            /\ B2R (Prim2SF f) = IZR k.
Proof.
  unfold float_ceil. pose proof (Prim2SF_valid' x) as Hv.
  destruct (Prim2SF x) as [s | s | | s m e]; try discriminate;
    intros Hk; injection Hk as <-.
  - apply float_of_int_exact; [apply fmt_0 |].
    rewrite Rabs_R0. apply pow2_pos.
  - destruct (finite_mantissa (negb s) m e) as (Hm & He & Hb).
    { revert Hv. unfold valid. simpl. exact (fun H => H). }
    replace (if negb s then Z.neg m else Z.pos m)
      with (if s then Z.pos m else Z.neg m) in * by (destruct s; reflexivity).
    destruct (shiftl_fmt _ e Hm He Hb) as [Hfmt Hbound].
    apply float_of_int_exact.
    + rewrite opp_IZR. apply fmt_opp, Hfmt.
    + rewrite opp_IZR, Rabs_Ropp. exact Hbound.
Qed.

End IntegerOfFloat.

(** ** The exceptions of the rounding functions on floats *)

(** On floats, rounding to a tick raises [ZeroDivisionError] when the tick is
    zero (of either sign), [ValueError] when the quotient of price and tick is
    NaN, [OverflowError] when it is infinite, and returns in every other
    case: the integer that [floor] or [ceil] returns is never too large to be
    multiplied with the tick. *)
Theorem round_to_tick_exceptions_binary64 (price tick_size : float) :
  let quotient := (price / tick_size)%float in
  (is_zero tick_size = true ->
     round_down_to_tick price tick_size = Raise ZeroDivisionError
     /\ round_up_to_tick price tick_size = Raise ZeroDivisionError)
  /\ (is_zero tick_size = false -> is_nan quotient = true ->
        round_down_to_tick price tick_size = Raise ValueError
        /\ round_up_to_tick price tick_size = Raise ValueError)
  /\ (is_zero tick_size = false -> is_infinity quotient = true ->
        round_down_to_tick price tick_size = Raise OverflowError
        /\ round_up_to_tick price tick_size = Raise OverflowError)
  /\ (is_zero tick_size = false -> is_finite quotient = true ->
        exists down up,
          round_down_to_tick price tick_size = Ok down
          /\ round_up_to_tick price tick_size = Ok up).
Proof.
  intros quotient. subst quotient.
  unfold round_down_to_tick, round_up_to_tick, truediv, floor, ceil, int_mul,
    binary64, float_truediv, float_int_mul.
  destruct (is_zero tick_size).
  { repeat split; try discriminate. }
  cbn [rbind].
  pose proof (float_classes (price / tick_size)) as Hclass.
  pose proof (float_floor_converts (price / tick_size)) as Hfloor.
  pose proof (float_ceil_converts (price / tick_size)) as Hceil.
  unfold float_floor, float_ceil in *. unfold is_finite.
  destruct (Prim2SF (price / tick_size)) as [s | s | | s m e].
  - destruct Hclass as (Hnan & Hinf & _).
    destruct (Hfloor _ eq_refl) as (f1 & Hf1 & _).
    destruct (Hceil _ eq_refl) as (f2 & Hf2 & _).
    cbn [rbind]. rewrite ?Hf1, ?Hf2, Hnan, Hinf. cbn [rbind].
    repeat split; intros; try discriminate. eauto.
  - destruct Hclass as (Hnan & Hinf).
    rewrite Hnan, Hinf. repeat split; intros; try discriminate; reflexivity.
  - destruct Hclass as (Hnan & Hinf).
    rewrite Hnan, Hinf. repeat split; intros; try discriminate; reflexivity.
  - destruct Hclass as (Hnan & Hinf & _).
    destruct (Hfloor _ eq_refl) as (f1 & Hf1 & _).
    destruct (Hceil _ eq_refl) as (f2 & Hf2 & _).
    cbn [rbind]. rewrite ?Hf1, ?Hf2, Hnan, Hinf. cbn [rbind].
    repeat split; intros; try discriminate. eauto.
Qed.

(** ** The two roundings behind a price on the tick grid *)

Section TickValues.
Local Open Scope R_scope.

(** A finite float is finite as [is_finite] says it. *)
Lemma is_finite_is_fin (x : float) :
  is_finite x = true -> is_fin (Prim2SF x).
Proof.
  intros Hfin. pose proof (float_classes x) as Hclass.
  unfold is_finite in Hfin.
  destruct (Prim2SF x) as [s | s | | s m e]; try exact I.
  - destruct Hclass as [Hn Hi]. rewrite Hn, Hi in Hfin. discriminate.
  - destruct Hclass as [Hn Hi]. rewrite Hn in Hfin. discriminate.
Qed.

(** [round_down_to_tick] on a positive finite tick: the quotient is rounded
    to a float, its floor [k] is exact, and the product of [k] and the tick
    is rounded again. *)
Lemma round_down_to_tick_value (x t d : float) (mt : positive) (et : Z) :
  Prim2SF t = S754_finite false mt et ->
  round_down_to_tick x t = Ok d ->
  exists k,
    is_fin (Prim2SF x) /\ is_fin (Prim2SF (x / t))
    /\ nearest (B2R (Prim2SF (x / t))) (B2R (Prim2SF x) / B2R (Prim2SF t))
    /\ IZR k <= B2R (Prim2SF (x / t)) < IZR k + 1
    /\ rounds (Prim2SF d) (IZR k * B2R (Prim2SF t)).
Proof.
  intros HT Hdown.
  destruct (round_down_to_tick_inv _ _ _ Hdown) as (k & f & Hk & Hf & ->).
  exists k.
  destruct (float_floor_spec _ _ Hk) as [Hq _].
  pose proof (float_floor_bounds _ _ Hk) as Hbounds.
  pose proof Hq as Hx. rewrite div_spec in Hx.
  apply (is_fin_div _ _ _ _ _ HT) in Hx.
  assert (HTfin : exists s m e, Prim2SF t = S754_finite s m e) by eauto.
  pose proof (SFdiv_rounds _ _ (Prim2SF_valid' x) (Prim2SF_valid' t) Hx HTfin)
    as Hdiv.
  fold SF64div in Hdiv. rewrite <- div_spec in Hdiv.
  destruct (float_floor_converts _ _ Hk) as (f' & Hf' & Hfin & Hval).
  rewrite Hf in Hf'. injection Hf' as <-.
  assert (HTf : is_fin (Prim2SF t)) by (rewrite HT; exact I).
  pose proof (SFmul_rounds _ _ (Prim2SF_valid' f) (Prim2SF_valid' t) Hfin HTf)
    as Hmul.
  fold SF64mul in Hmul. rewrite <- mul_spec, Hval in Hmul.
  split; [exact Hx |]. split; [exact Hq |].
  split; [exact (rounds_fin _ _ Hdiv Hq) |].
  split; [exact Hbounds | exact Hmul].
Qed.

Lemma round_up_to_tick_value (x t u : float) (mt : positive) (et : Z) :
  Prim2SF t = S754_finite false mt et ->
  round_up_to_tick x t = Ok u ->
  exists k,
    is_fin (Prim2SF x) /\ is_fin (Prim2SF (x / t))
    /\ nearest (B2R (Prim2SF (x / t))) (B2R (Prim2SF x) / B2R (Prim2SF t))
    /\ IZR k - 1 < B2R (Prim2SF (x / t)) <= IZR k
    /\ rounds (Prim2SF u) (IZR k * B2R (Prim2SF t)).
Proof.
  intros HT Hup.
  destruct (round_up_to_tick_inv _ _ _ Hup) as (k & f & Hk & Hf & ->).
  exists k.
  destruct (float_ceil_spec _ _ Hk) as [Hq _].
  pose proof (float_ceil_bounds _ _ Hk) as Hbounds.
  pose proof Hq as Hx. rewrite div_spec in Hx.
  apply (is_fin_div _ _ _ _ _ HT) in Hx.
  assert (HTfin : exists s m e, Prim2SF t = S754_finite s m e) by eauto.
  pose proof (SFdiv_rounds _ _ (Prim2SF_valid' x) (Prim2SF_valid' t) Hx HTfin)
    as Hdiv.
  fold SF64div in Hdiv. rewrite <- div_spec in Hdiv.
  destruct (float_ceil_converts _ _ Hk) as (f' & Hf' & Hfin & Hval).
  rewrite Hf in Hf'. injection Hf' as <-.
  assert (HTf : is_fin (Prim2SF t)) by (rewrite HT; exact I).
  pose proof (SFmul_rounds _ _ (Prim2SF_valid' f) (Prim2SF_valid' t) Hfin HTf)
    as Hmul.
  fold SF64mul in Hmul. rewrite <- mul_spec, Hval in Hmul.
  split; [exact Hx |]. split; [exact Hq |].
  split; [exact (rounds_fin _ _ Hdiv Hq) |].
  split; [exact Hbounds | exact Hmul].
Qed.

(** The multiples of a positive finite tick are ordered as the integers. *)
Lemma tick_multiples_ordered (k1 k2 : Z) (f1 f2 t : float) (mt : positive)
    (et : Z) :
  (k1 <= k2)%Z -> float_of_int k1 = Ok f1 -> float_of_int k2 = Ok f2 ->
  Prim2SF t = S754_finite false mt et ->
  float_le (f1 * t) (f2 * t).
Proof.
  intros Hk Hf1 Hf2 HT.
  destruct (float_of_int_spec _ _ Hf1) as (_ & Hfin1 & Hn1).
  destruct (float_of_int_spec _ _ Hf2) as (_ & Hfin2 & Hn2).
  apply (mul_monotone _ _ _ _ _ HT Hfin1 Hfin2).
  destruct (Z.eq_dec k1 k2) as [Heq | Hne].
  - subst k2. rewrite Hf1 in Hf2. injection Hf2 as ->. lra.
  - apply (nearest_mono _ _ _ _ Hn1 Hn2). apply IZR_lt. lia.
Qed.

(** The quotients by a positive finite tick of two ordered prices. *)
Lemma quotients_ordered (p1 p2 t : float) (mt : positive) (et : Z) :
  Prim2SF t = S754_finite false mt et ->
  is_fin (Prim2SF (p1 / t)) -> is_fin (Prim2SF (p2 / t)) ->
  float_le p1 p2 ->
  B2R (Prim2SF (p1 / t)) <= B2R (Prim2SF (p2 / t)).
Proof.
  intros HT Hq1 Hq2 Hle.
  pose proof Hq1 as Hx1. rewrite div_spec in Hx1.
  apply (is_fin_div _ _ _ _ _ HT) in Hx1.
  pose proof Hq2 as Hx2. rewrite div_spec in Hx2.
  apply (is_fin_div _ _ _ _ _ HT) in Hx2.
  apply (div_monotone _ _ _ _ _ HT Hq1 Hq2).
  apply float_le_B2R; assumption.
Qed.

Lemma rounds_nonneg (z : spec_float) (u : R) :
  rounds z u -> 0 <= u -> SFleb (S754_zero false) z = true.
Proof.
  destruct z as [s | s | | s m e]; cbn [rounds]; try contradiction.
  - intros _ _. reflexivity.
  - intros (f & Hn & Hf) Hu.
    pose proof (nearest_ge_fmt _ _ 0 Hn fmt_0 Hu). pose proof (pow2_pos 1024).
    destruct s; [lra | reflexivity].
  - intros Hn Hu. pose proof (nearest_ge_fmt _ _ 0 Hn fmt_0 Hu) as Hz.
    pose proof (F2R_pos m e). simpl in Hz.
    destruct s; [lra | reflexivity].
Qed.

Lemma rounds_nonpos (z : spec_float) (u : R) :
  rounds z u -> u <= 0 -> SFleb z (S754_zero false) = true.
Proof.
  destruct z as [s | s | | s m e]; cbn [rounds]; try contradiction.
  - intros _ _. reflexivity.
  - intros (f & Hn & Hf) Hu.
    pose proof (nearest_le_fmt _ _ 0 Hn fmt_0 Hu). pose proof (pow2_pos 1024).
    destruct s; [reflexivity | lra].
  - intros Hn Hu. pose proof (nearest_le_fmt _ _ 0 Hn fmt_0 Hu) as Hz.
    pose proof (F2R_pos m e). simpl in Hz.
    destruct s; [reflexivity | lra].
Qed.

End TickValues.

(** ** Rounding to a tick keeps the order and the sign of prices *)

(** On floats, for a positive finite tick, [round_down_to_tick] and
    [round_up_to_tick] are monotone: of two prices, the larger one is not
    rounded to the smaller result. *)
Theorem round_to_tick_monotone_binary64 (price1 price2 tick_size : float) :
  (0 <? tick_size)%float = true ->
  is_finite tick_size = true ->
  float_le price1 price2 ->
  (forall down1 down2,
      round_down_to_tick price1 tick_size = Ok down1 ->
      round_down_to_tick price2 tick_size = Ok down2 ->
      float_le down1 down2)
  /\ (forall up1 up2,
        round_up_to_tick price1 tick_size = Ok up1 ->
        round_up_to_tick price2 tick_size = Ok up2 ->
        float_le up1 up2).
Proof.
  intros Ht Hfin Hle.
  destruct (positive_float tick_size Ht) as [Hinf | (mt & et & HT)].
  { contradiction (finite_float tick_size Hfin). }
  split.
  - intros down1 down2 H1 H2.
    destruct (round_down_to_tick_inv _ _ _ H1) as (k1 & f1 & Hk1 & Hf1 & ->).
    destruct (round_down_to_tick_inv _ _ _ H2) as (k2 & f2 & Hk2 & Hf2 & ->).
    destruct (float_floor_spec _ _ Hk1) as [Hq1 _].
    destruct (float_floor_spec _ _ Hk2) as [Hq2 _].
    pose proof (float_floor_bounds _ _ Hk1) as Hb1.
    pose proof (float_floor_bounds _ _ Hk2) as Hb2.
    pose proof (quotients_ordered _ _ _ _ _ HT Hq1 Hq2 Hle) as HQ.
    apply (tick_multiples_ordered k1 k2 f1 f2 tick_size mt et);
      try assumption.
    assert (Hlt : (IZR k1 < IZR (k2 + 1))%R) by (rewrite plus_IZR; lra).
    apply lt_IZR in Hlt. lia.
  - intros up1 up2 H1 H2.
    destruct (round_up_to_tick_inv _ _ _ H1) as (k1 & f1 & Hk1 & Hf1 & ->).
    destruct (round_up_to_tick_inv _ _ _ H2) as (k2 & f2 & Hk2 & Hf2 & ->).
    destruct (float_ceil_spec _ _ Hk1) as [Hq1 _].
    destruct (float_ceil_spec _ _ Hk2) as [Hq2 _].
    pose proof (float_ceil_bounds _ _ Hk1) as Hb1.
    pose proof (float_ceil_bounds _ _ Hk2) as Hb2.
    pose proof (quotients_ordered _ _ _ _ _ HT Hq1 Hq2 Hle) as HQ.
    apply (tick_multiples_ordered k1 k2 f1 f2 tick_size mt et);
      try assumption.
    assert (Hlt : (IZR (k1 - 1) < IZR k2)%R) by (rewrite minus_IZR; lra).
    apply lt_IZR in Hlt. lia.
Qed.

Lemma round_down_to_tick_sign (price tick_size down : float) :
  (0 <? tick_size)%float = true ->
  is_finite tick_size = true ->
  round_down_to_tick price tick_size = Ok down ->
  (float_le 0 price -> float_le 0 down)
  /\ (float_le price 0 -> float_le down 0).
Proof.
  intros Ht Hfin Hdown.
  destruct (positive_float tick_size Ht) as [Hinf | (mt & et & HT)].
  { contradiction (finite_float tick_size Hfin). }
  destruct (round_down_to_tick_value _ _ _ _ _ HT Hdown)
    as (k & Hx & Hq & Hn & Hb & Hr).
  assert (HTpos : (0 < B2R (Prim2SF tick_size))%R)
    by (rewrite HT; apply F2R_pos).
  assert (Hzero : is_fin (Prim2SF 0%float)) by exact I.
  unfold float_le at 2 4. rewrite !leb_spec.
  change (Prim2SF 0%float) with (S754_zero false).
  split; intros Hsign.
  - pose proof (float_le_B2R 0 price Hzero Hx Hsign) as HX.
    change (Prim2SF 0%float) with (S754_zero false) in HX. simpl in HX.
    assert (HQ : (0 <= B2R (Prim2SF price) / B2R (Prim2SF tick_size))%R).
    { apply Rmult_le_pos; [exact HX |].
      apply Rlt_le, Rinv_0_lt_compat, HTpos. }
    pose proof (nearest_ge_fmt _ _ 0%R Hn fmt_0 HQ) as Hq0.
    assert (Hk : (0 <= k)%Z).
    { assert (Hlt : (IZR (-1) < IZR k)%R) by lra. apply lt_IZR in Hlt. lia. }
    apply IZR_le in Hk.
    apply (rounds_nonneg _ _ Hr). apply Rmult_le_pos; lra.
  - pose proof (float_le_B2R price 0 Hx Hzero Hsign) as HX.
    change (Prim2SF 0%float) with (S754_zero false) in HX. simpl in HX.
    assert (HQ : (B2R (Prim2SF price) / B2R (Prim2SF tick_size) <= 0)%R).
    { pose proof (Rinv_0_lt_compat _ HTpos). unfold Rdiv. nra. }
    pose proof (nearest_le_fmt _ _ 0%R Hn fmt_0 HQ) as Hq0.
    assert (Hk : (k <= 0)%Z) by (apply le_IZR; lra).
    apply IZR_le in Hk.
    apply (rounds_nonpos _ _ Hr). nra.
Qed.

Lemma round_up_to_tick_sign (price tick_size up : float) :
  (0 <? tick_size)%float = true ->
  is_finite tick_size = true ->
  round_up_to_tick price tick_size = Ok up ->
  (float_le 0 price -> float_le 0 up)
  /\ (float_le price 0 -> float_le up 0).
Proof.
  intros Ht Hfin Hup.
  destruct (positive_float tick_size Ht) as [Hinf | (mt & et & HT)].
  { contradiction (finite_float tick_size Hfin). }
  destruct (round_up_to_tick_value _ _ _ _ _ HT Hup)
    as (k & Hx & Hq & Hn & Hb & Hr).
  assert (HTpos : (0 < B2R (Prim2SF tick_size))%R)
    by (rewrite HT; apply F2R_pos).
  assert (Hzero : is_fin (Prim2SF 0%float)) by exact I.
  unfold float_le at 2 4. rewrite !leb_spec.
  change (Prim2SF 0%float) with (S754_zero false).
  split; intros Hsign.
  - pose proof (float_le_B2R 0 price Hzero Hx Hsign) as HX.
    change (Prim2SF 0%float) with (S754_zero false) in HX. simpl in HX.
    assert (HQ : (0 <= B2R (Prim2SF price) / B2R (Prim2SF tick_size))%R).
    { apply Rmult_le_pos; [exact HX |].
      apply Rlt_le, Rinv_0_lt_compat, HTpos. }
    pose proof (nearest_ge_fmt _ _ 0%R Hn fmt_0 HQ) as Hq0.
    assert (Hk : (0 <= k)%Z) by (apply le_IZR; lra).
    apply IZR_le in Hk.
    apply (rounds_nonneg _ _ Hr). apply Rmult_le_pos; lra.
  - pose proof (float_le_B2R price 0 Hx Hzero Hsign) as HX.
    change (Prim2SF 0%float) with (S754_zero false) in HX. simpl in HX.
    assert (HQ : (B2R (Prim2SF price) / B2R (Prim2SF tick_size) <= 0)%R).
    { pose proof (Rinv_0_lt_compat _ HTpos). unfold Rdiv. nra. }
    pose proof (nearest_le_fmt _ _ 0%R Hn fmt_0 HQ) as Hq0.
    assert (Hk : (k <= 0)%Z).
    { assert (Hlt : (IZR k < IZR 1)%R) by lra. apply lt_IZR in Hlt. lia. }
    apply IZR_le in Hk.
    apply (rounds_nonpos _ _ Hr). nra.
Qed.

(** On floats, for a positive finite tick, a price that is not negative is
    rounded, down or up, to a result that is not negative, and a price that
    is not positive to a result that is not positive. *)
Theorem round_to_tick_sign_binary64 (price tick_size down up : float) :
  (0 <? tick_size)%float = true ->
  is_finite tick_size = true ->
  round_down_to_tick price tick_size = Ok down ->
  round_up_to_tick price tick_size = Ok up ->
  (float_le 0 price -> float_le 0 down /\ float_le 0 up)
  /\ (float_le price 0 -> float_le down 0 /\ float_le up 0).
Proof.
  intros Ht Hfin Hdown Hup.
  destruct (round_down_to_tick_sign _ _ _ Ht Hfin Hdown) as [Hd1 Hd2].
  destruct (round_up_to_tick_sign _ _ _ Ht Hfin Hup) as [Hu1 Hu2].
  split; intros Hsign; split; auto.
Qed.

Section TickOrderExamples.
Local Open Scope float_scope.

(** The prices 8.1 and 8.2 on a tick of 0.1: down to 8.0 and 8.1, up to 8.1
    and 8.200000000000001. *)
Lemma round_to_tick_monotone_binary64_example :
  float_le 8.0 8.1 /\ float_le 8.1 8.200000000000001.
Proof.
  destruct (round_to_tick_monotone_binary64 8.1 8.2 0.1) as [Hdown Hup];
    try (vm_compute; reflexivity).
  split.
  - apply Hdown; vm_compute; reflexivity.
  - apply Hup; vm_compute; reflexivity.
Defined.

(** The price 0.05 on a tick of 0.1 is rounded to 0.0 and 0.1, the price
    -0.05 to -0.1 and 0.0. *)
Lemma round_to_tick_sign_binary64_example :
  (float_le 0 0.0 /\ float_le 0 0.1) /\ (float_le (-0.1) 0 /\ float_le 0.0 0).
Proof.
  split.
  - apply (round_to_tick_sign_binary64 0.05 0.1 0.0 0.1);
      vm_compute; reflexivity.
  - apply (round_to_tick_sign_binary64 (-0.05) 0.1 (-0.1) 0.0);
      vm_compute; reflexivity.
Defined.

End TickOrderExamples.

(** ** The midpoint lies between the two prices *)

Section Midpoint.
Local Open Scope R_scope.

Lemma fmt_double (x : R) : fmt x -> fmt (2 * x).
Proof.
  intros (m & e & -> & Hm & He). exists m, (e + 1)%Z.
  split; [| split; [exact Hm | lia]].
  unfold F2R. rewrite pow2_add.
  replace (pow2 1) with 2 by (unfold pow2; simpl; lra). ring.
Qed.

(** The mean of two floats, when it is finite, is between any two numbers of
    the format that enclose the two floats. *)
Lemma mean_between (p q : float) (lo hi : R) :
  is_fin (Prim2SF ((p + q) / 2)%float) ->
  fmt lo -> fmt hi ->
  2 * lo <= B2R (Prim2SF p) + B2R (Prim2SF q) <= 2 * hi ->
  lo <= B2R (Prim2SF ((p + q) / 2)%float) <= hi.
Proof.
  intros Hm Hlo Hhi Hsum.
  assert (H2 : Prim2SF 2%float = S754_finite false 4503599627370496 (-51))
    by reflexivity.
  assert (H2v : B2R (Prim2SF 2%float) = 2).
  { rewrite H2. unfold B2R, F2R, pow2. simpl. lra. }
  pose proof Hm as Hs. rewrite div_spec in Hs.
  apply (is_fin_div _ _ _ _ _ H2) in Hs.
  pose proof Hs as Hpq. rewrite add_spec in Hpq.
  apply is_fin_add in Hpq. destruct Hpq as [Hp Hq].
  pose proof (SFadd_rounds _ _ (Prim2SF_valid' p) (Prim2SF_valid' q) Hp Hq)
    as Hadd.
  fold SF64add in Hadd. rewrite <- add_spec in Hadd.
  apply rounds_fin in Hadd; [| exact Hs].
  assert (H2fin : exists s m e, Prim2SF 2%float = S754_finite s m e)
    by (rewrite H2; eauto).
  pose proof (SFdiv_rounds _ _ (Prim2SF_valid' (p + q)%float)
                (Prim2SF_valid' 2%float) Hs H2fin) as Hdiv.
  fold SF64div in Hdiv. rewrite <- div_spec, H2v in Hdiv.
  apply rounds_fin in Hdiv; [| exact Hm].
  pose proof (nearest_ge_fmt _ _ _ Hadd (fmt_double _ Hlo) (proj1 Hsum)).
  pose proof (nearest_le_fmt _ _ _ Hadd (fmt_double _ Hhi) (proj2 Hsum)).
  split.
  - apply (nearest_ge_fmt _ _ _ Hdiv Hlo). lra.
  - apply (nearest_le_fmt _ _ _ Hdiv Hhi). lra.
Qed.

Lemma mean_operands_finite (p q : float) :
  is_fin (Prim2SF ((p + q) / 2)%float) ->
  is_fin (Prim2SF p) /\ is_fin (Prim2SF q).
Proof.
  intros Hm.
  assert (H2 : Prim2SF 2%float = S754_finite false 4503599627370496 (-51))
    by reflexivity.
  rewrite div_spec in Hm. apply (is_fin_div _ _ _ _ _ H2) in Hm.
  rewrite add_spec in Hm. apply is_fin_add in Hm. exact Hm.
Qed.

(** The mean of two floats in either order. *)
Lemma mean_of_ordered (p q : float) :
  is_finite ((p + q) / 2)%float = true ->
  float_le p q ->
  float_le p ((p + q) / 2)%float /\ float_le ((p + q) / 2)%float q.
Proof.
  intros Hfin Hle. apply is_finite_is_fin in Hfin.
  destruct (mean_operands_finite p q Hfin) as [Hp Hq].
  pose proof (float_le_B2R p q Hp Hq Hle) as HR.
  destruct (mean_between p q (B2R (Prim2SF p)) (B2R (Prim2SF q)) Hfin)
    as [Hlo Hhi]; try (apply valid_fmt, Prim2SF_valid'); [lra |].
  split; apply B2R_float_le; assumption.
Qed.

Lemma mean_of_reversed (p q : float) :
  is_finite ((p + q) / 2)%float = true ->
  float_le q p ->
  float_le q ((p + q) / 2)%float /\ float_le ((p + q) / 2)%float p.
Proof.
  intros Hfin Hle. apply is_finite_is_fin in Hfin.
  destruct (mean_operands_finite p q Hfin) as [Hp Hq].
  pose proof (float_le_B2R q p Hq Hp Hle) as HR.
  destruct (mean_between p q (B2R (Prim2SF q)) (B2R (Prim2SF p)) Hfin)
    as [Hlo Hhi]; try (apply valid_fmt, Prim2SF_valid'); [lra |].
  split; apply B2R_float_le; assumption.
Qed.

End Midpoint.

(** When the book of the instrument has both sides, [get_midpoint_value]
    returns a midpoint that, if it is finite, is not below the smaller and not
    above the larger of the best bid and the best ask: rounding does not take
    the midpoint outside the spread. *)
Theorem get_midpoint_value_between {X : Type} {E : Exchange X}
    (instrument_id : string) (x x1 : X) (b a : price_volume)
    (bs aa : list price_volume) :
  get_last_price_book instrument_id x
  = (Ok (Some {| bids := b :: bs; asks := a :: aa |}), x1) ->
  exists midpoint,
    result_of (get_midpoint_value instrument_id x) = Ok (Some midpoint)
    /\ (is_finite midpoint = true ->
        (float_le (pv_price b) (pv_price a) ->
         float_le (pv_price b) midpoint /\ float_le midpoint (pv_price a))
        /\ (float_le (pv_price a) (pv_price b) ->
            float_le (pv_price a) midpoint
            /\ float_le midpoint (pv_price b))).
Proof.
  intros Hbook.
  exists ((pv_price b + pv_price a) / 2)%float. split.
  - unfold get_midpoint_value, bind, call, result_of. rewrite Hbook.
    reflexivity.
  - intros Hfin. split; intros Hle.
    + apply mean_of_ordered; assumption.
    + apply mean_of_reversed; assumption.
Qed.

Section MidpointExample.
Local Open Scope float_scope.

(** Best bid 74.90 and best ask 75.10. *)
Lemma get_midpoint_value_between_example :
  exists midpoint,
    result_of (get_midpoint_value STOCK_ID (sim_quoted 0)) = Ok (Some midpoint)
    /\ (is_finite midpoint = true ->
        (float_le 74.90 75.10 ->
         float_le 74.90 midpoint /\ float_le midpoint 75.10)
        /\ (float_le 75.10 74.90 ->
            float_le 75.10 midpoint /\ float_le midpoint 74.90)).
Proof.
  exact (get_midpoint_value_between (E := sim_exchange) STOCK_ID (sim_quoted 0)
           (sim_quoted 0) (level 74.90 10) (level 75.10 12)
           [level 74.80 25] [] eq_refl).
Defined.

End MidpointExample.

(** ** At the position limit, and beyond *)


Section AtTheLimitExample.
Local Open Scope float_scope.


End AtTheLimitExample.

(** ** [get_midpoint_value] only reads *)

(** [get_midpoint_value] makes one call to the exchange, the query of the
    book of the instrument, and leaves the exchange as that call left it; it
    raises when that call raises and only then. *)
Theorem get_midpoint_value_read_only {X : Type} {E : Exchange X}
    (instrument_id : string) (x : X) :
  let o := get_midpoint_value instrument_id x in
  let answer := fst (get_last_price_book instrument_id x) in
  events_of o = [ev_get_last_price_book instrument_id answer]
  /\ state_of o = snd (get_last_price_book instrument_id x)
  /\ (forall e, result_of o = Raise e <-> answer = Raise e).
Proof.
  unfold get_midpoint_value, bind, call, result_of, state_of, events_of.
  destruct (get_last_price_book instrument_id x) as [[[book |] | e'] x1];
    simpl.
  - destruct (bids book) as [| b bs]; simpl.
    { repeat split; intros; discriminate. }
    destruct (asks book) as [| a aa]; simpl;
      repeat split; intros; discriminate.
  - repeat split; intros; discriminate.
  - repeat split; intros He; injection He as <-; reflexivity.
Qed.

(** ** How far rounding moves a number *)

Section RoundingError.
Local Open Scope R_scope.

Lemma real_floor (r : R) : exists n : Z, IZR n <= r < IZR n + 1.
Proof.
  destruct (archimed r) as [Hup Hlow].
  exists (up r - 1)%Z. rewrite minus_IZR. lra.
Qed.

Lemma pow2_opp (e : Z) : pow2 e * pow2 (- e) = 1.
Proof.
  rewrite <- pow2_add. replace (e + - e)%Z with 0%Z by lia. reflexivity.
Qed.

(** Below [2^(E+53)] the format has a number every [2^E]. *)
Lemma nearest_error_nonneg (f u : R) (E : Z) :
  nearest f u -> (-1074 <= E)%Z -> 0 <= u < pow2 (E + 53) ->
  Rabs (f - u) < pow2 E.
Proof.
  intros [_ Hn] HE [Hu0 Hu].
  destruct (real_floor (u * pow2 (- E))) as (n & Hlo & Hhi).
  pose proof (pow2_pos E) as HpE. pose proof (pow2_pos (- E)) as HpE'.
  pose proof (pow2_opp E) as Hinv.
  assert (Hu' : u * pow2 (- E) < IZR (2 ^ 53)).
  { rewrite <- pow2_IZR by lia.
    replace (pow2 53) with (pow2 (E + 53) * pow2 (- E)).
    - apply Rmult_lt_compat_r; assumption.
    - rewrite <- pow2_add. f_equal. lia. }
  assert (Hn0 : (0 <= n)%Z).
  { assert (Hlt : IZR (-1) < IZR n).
    { assert (0 <= u * pow2 (- E)) by (apply Rmult_le_pos; lra). lra. }
    apply lt_IZR in Hlt. lia. }
  assert (Hn53 : (n < 2 ^ 53)%Z) by (apply lt_IZR; lra).
  assert (Hg : fmt (F2R n E)).
  { exists n, E. split; [reflexivity | split; lia]. }
  specialize (Hn _ Hg).
  assert (Hgu : F2R n E <= u < F2R n E + pow2 E).
  { unfold F2R.
    replace u with (u * pow2 (- E) * pow2 E)
      by (rewrite Rmult_assoc, (Rmult_comm (pow2 (- E))), Hinv; ring).
    split; nra. }
  apply Rle_lt_trans with (Rabs (F2R n E - u)); [exact Hn |].
  unfold Rabs. destruct Rcase_abs; lra.
Qed.

Lemma nearest_error (f u : R) (E : Z) :
  nearest f u -> (-1074 <= E)%Z -> Rabs u < pow2 (E + 53) ->
  Rabs (f - u) < pow2 E.
Proof.
  intros Hn HE Hu. destruct (Rle_or_lt 0 u) as [Hpos | Hneg].
  - apply nearest_error_nonneg; try assumption.
    rewrite Rabs_pos_eq in Hu by exact Hpos. lra.
  - replace (f - u) with (- (- f - - u)) by ring. rewrite Rabs_Ropp.
    apply nearest_error_nonneg; [apply nearest_opp, Hn | exact HE |].
    rewrite Rabs_left in Hu by exact Hneg. lra.
Qed.

(** A float operation whose exact result is below [2^(E+53)] in magnitude
    returns a finite float at less than [2^E] from it. *)
Lemma rounds_error (z : spec_float) (u : R) (E : Z) :
  rounds z u -> (-1074 <= E <= 970)%Z -> Rabs u < pow2 (E + 53) ->
  is_fin z /\ Rabs (B2R z - u) < pow2 E.
Proof.
  intros Hr HE Hu.
  destruct z as [s | s | | s m e]; cbn [rounds] in Hr; try contradiction.
  - split; [exact I |]. apply nearest_error; [exact Hr | lia | exact Hu].
  - exfalso. destruct Hr as (f & Hn & Hf).
    pose proof (nearest_error f u E Hn ltac:(lia) Hu) as Herr.
    assert (Hle : pow2 (E + 53) + pow2 E <= pow2 1024).
    { assert (pow2 E <= pow2 (E + 53)) by (apply pow2_le; lia).
      assert (pow2 (E + 53 + 1) <= pow2 1024) by (apply pow2_le; lia).
      rewrite pow2_add in H0.
      replace (pow2 1) with 2 in H0 by (unfold pow2; simpl; lra). lra. }
    revert Herr Hu. unfold Rabs.
    repeat destruct Rcase_abs; destruct s; lra.
  - split; [exact I |]. apply nearest_error; [exact Hr | lia | exact Hu].
Qed.

(** Strict comparison of finite floats is that of their values. *)
Lemma SFltb_lt (z1 z2 : spec_float) :
  valid z1 -> valid z2 -> is_fin z1 -> is_fin z2 -> B2R z1 < B2R z2 ->
  SFltb z1 z2 = true.
Proof.
  intros Hv1 Hv2 Hf1 Hf2 Hlt.
  destruct z1 as [s1 | s1 | | s1 m1 e1]; try contradiction;
    destruct z2 as [s2 | s2 | | s2 m2 e2]; try contradiction.
  - simpl in Hlt. lra.
  - pose proof (F2R_pos m2 e2). simpl in Hlt.
    destruct s2; [lra | reflexivity].
  - pose proof (F2R_pos m1 e1). simpl in Hlt.
    destruct s1; [reflexivity | lra].
  - pose proof (F2R_pos m1 e1). pose proof (F2R_pos m2 e2).
    unfold SFltb, SFcompare. simpl in Hlt.
    destruct s1, s2; try reflexivity; try lra.
    + destruct (Z.compare_spec e1 e2) as [He | He | He].
      * subst e2. fold (Pos.compare m1 m2).
        assert (Z.pos m2 < Z.pos m1)%Z
          by (apply (F2R_lt_mantissa _ _ e1); lra).
        destruct (Pos.compare_spec m1 m2); simpl; try reflexivity; lia.
      * pose proof (valid_exp_lt _ _ _ _ _ _ Hv1 Hv2 He). lra.
      * reflexivity.
    + destruct (Z.compare_spec e1 e2) as [He | He | He].
      * subst e2. fold (Pos.compare m1 m2).
        assert (Z.pos m1 < Z.pos m2)%Z
          by (apply (F2R_lt_mantissa _ _ e1); lra).
        destruct (Pos.compare_spec m1 m2); try reflexivity; lia.
      * reflexivity.
      * pose proof (valid_exp_lt _ _ _ _ _ _ Hv2 Hv1 He). lra.
Qed.

Lemma B2R_float_lt (x y : float) :
  is_fin (Prim2SF x) -> is_fin (Prim2SF y) ->
  B2R (Prim2SF x) < B2R (Prim2SF y) -> (x <? y)%float = true.
Proof.
  intros Hx Hy Hlt. rewrite ltb_spec.
  apply SFltb_lt; try assumption; apply Prim2SF_valid'.
Qed.

(** A float between two finite floats is finite. *)
Lemma is_fin_between (a x b : float) :
  is_fin (Prim2SF a) -> is_fin (Prim2SF b) ->
  float_le a x -> float_le x b -> is_fin (Prim2SF x).
Proof.
  unfold float_le. rewrite !leb_spec. unfold SFleb, SFcompare.
  destruct (Prim2SF a) as [sa | sa | | sa ma ea]; try contradiction;
    destruct (Prim2SF b) as [sb | sb | | sb mb eb]; try contradiction;
    destruct (Prim2SF x) as [s | s | | s m e]; try (intros; exact I);
    try discriminate; destruct s; try discriminate;
    try destruct sa; try destruct sb; discriminate.
Qed.

End RoundingError.

(** ** A credit of a tick or more keeps the bid strictly below the ask *)

Section SpreadArithmetic.
Local Open Scope R_scope.

Lemma pow2_neg (k : Z) : pow2 (- k) = / pow2 k.
Proof.
  pose proof (pow2_opp k) as Hinv. pose proof (pow2_pos k) as Hpos.
  apply Rmult_eq_reg_l with (pow2 k); [| lra].
  rewrite Hinv. field. lra.
Qed.

Lemma pow2_values :
  pow2 31 = 2147483648 /\ pow2 37 = 137438953472 /\ pow2 32 = 4294967296
  /\ pow2 (-22) = / 4194304 /\ pow2 (-16) = / 65536
  /\ pow2 (-21) = / 2097152 /\ pow2 (-6) = / 64 /\ pow2 10 = 1024
  /\ pow2 30 = 1073741824.
Proof.
  change (-22)%Z with (Z.opp 22). change (-16)%Z with (Z.opp 16).
  change (-21)%Z with (Z.opp 21). change (-6)%Z with (Z.opp 6).
  rewrite !pow2_neg. rewrite !pow2_IZR by lia.
  repeat split; reflexivity.
Qed.

(** The magnitudes of the intermediate results, for a tick from 1/64, a
    credit up to 1024 and a price up to [2^30]. *)
Lemma shifted_price_bound (V C : R) :
  -1073741824 <= V <= 1073741824 -> 0 <= C <= 1024 ->
  Rabs (V - C) < 2147483648 /\ Rabs (V + C) < 2147483648.
Proof. intros HV HC. unfold Rabs. repeat destruct Rcase_abs; lra. Qed.

Lemma shifted_price_rounded (V C A : R) :
  -1073741824 <= V <= 1073741824 -> 0 <= C <= 1024 ->
  (Rabs (A - (V - C)) < / 4194304 \/ Rabs (A - (V + C)) < / 4194304) ->
  Rabs A < 2147483648.
Proof.
  intros HV HC. unfold Rabs. repeat destruct Rcase_abs; lra.
Qed.

Lemma quotient_bound (A T : R) :
  / 64 <= T -> Rabs A < 2147483648 -> Rabs (A / T) < 137438953472.
Proof.
  intros HT HA.
  assert (HTpos : 0 < T) by lra.
  assert (HiT : 0 < / T <= 64).
  { split; [apply Rinv_0_lt_compat, HTpos |].
    replace 64 with (/ / 64) by lra.
    apply Rinv_le_contravar; lra. }
  unfold Rdiv. rewrite Rabs_mult, (Rabs_pos_eq (/ T)) by lra.
  pose proof (Rabs_pos A). nra.
Qed.

Lemma multiple_bound (A T Q : R) (k : Z) :
  / 64 <= T <= 1024 -> Rabs A < 2147483648 ->
  Rabs (Q - A / T) < / 65536 ->
  IZR k - 1 < Q < IZR k + 1 ->
  Rabs (IZR k * T) < 4294967296.
Proof.
  intros HT HA HQ Hk.
  assert (HTpos : 0 < T) by lra.
  assert (Hinv : A / T * T = A) by (field; lra).
  assert (Hq : - / 65536 < Q - A / T < / 65536).
  { revert HQ. unfold Rabs. destruct Rcase_abs; lra. }
  assert (Ha : - 2147483648 < A < 2147483648).
  { revert HA. unfold Rabs. destruct Rcase_abs; lra. }
  assert (Hup : IZR k * T < (A / T + / 65536 + 1) * T)
    by (apply Rmult_lt_compat_r; lra).
  assert (Hlow : (A / T - / 65536 - 1) * T < IZR k * T)
    by (apply Rmult_lt_compat_r; lra).
  replace ((A / T + / 65536 + 1) * T) with (A / T * T + (/ 65536 + 1) * T)
    in Hup by ring.
  replace ((A / T - / 65536 - 1) * T) with (A / T * T - (/ 65536 + 1) * T)
    in Hlow by ring.
  rewrite Hinv in Hup, Hlow.
  unfold Rabs. destruct Rcase_abs; nra.
Qed.

(** The integers of the two quotients are two apart or more, and so are the
    prices, less what the last rounding moves them. *)
Lemma spread_survives (V C T A B QA QB D U : R) (ka kb : Z) :
  / 64 <= T -> T <= C ->
  Rabs (A - (V - C)) < / 4194304 -> Rabs (B - (V + C)) < / 4194304 ->
  Rabs (QA - A / T) < / 65536 -> Rabs (QB - B / T) < / 65536 ->
  IZR ka <= QA -> QB <= IZR kb ->
  Rabs (D - IZR ka * T) < / 2097152 -> Rabs (U - IZR kb * T) < / 2097152 ->
  D < U.
Proof.
  intros HT HC HA HB HQA HQB Hka Hkb HD HU.
  assert (HTpos : 0 < T) by lra.
  assert (Ha : - / 4194304 < A - (V - C) < / 4194304)
    by (revert HA; unfold Rabs; destruct Rcase_abs; lra).
  assert (Hb : - / 4194304 < B - (V + C) < / 4194304)
    by (revert HB; unfold Rabs; destruct Rcase_abs; lra).
  assert (Hqa : - / 65536 < QA - A / T < / 65536)
    by (revert HQA; unfold Rabs; destruct Rcase_abs; lra).
  assert (Hqb : - / 65536 < QB - B / T < / 65536)
    by (revert HQB; unfold Rabs; destruct Rcase_abs; lra).
  assert (Hd : - / 2097152 < D - IZR ka * T < / 2097152)
    by (revert HD; unfold Rabs; destruct Rcase_abs; lra).
  assert (Hu : - / 2097152 < U - IZR kb * T < / 2097152)
    by (revert HU; unfold Rabs; destruct Rcase_abs; lra).
  assert (HinvA : A / T * T = A) by (field; lra).
  assert (HinvB : B / T * T = B) by (field; lra).
  (* the quotients are more than 2 - 2^-14 apart *)
  assert (Hgap : (IZR kb - IZR ka) * T > 2 * T - / 32768 * T - / 2097152).
  { assert (H1 : (IZR kb - IZR ka) * T >= (QB - QA) * T)
      by (apply Rle_ge, Rmult_le_compat_r; lra).
    assert (H2 : (QB - QA) * T > (B / T - A / T - / 32768) * T)
      by (apply Rmult_gt_compat_r; lra).
    replace ((B / T - A / T - / 32768) * T)
      with (B / T * T - A / T * T - / 32768 * T) in H2 by ring.
    rewrite HinvA, HinvB in H2. lra. }
  assert (Hk : (ka + 2 <= kb)%Z).
  { assert (Hlt : IZR (ka + 1) < IZR kb).
    { rewrite plus_IZR.
      apply Rmult_lt_reg_r with T; [exact HTpos |]. nra. }
    apply lt_IZR in Hlt. lia. }
  apply IZR_le in Hk. rewrite plus_IZR in Hk.
  assert (Hmul : (IZR ka + 2) * T <= IZR kb * T)
    by (apply Rmult_le_compat_r; lra).
  lra.
Qed.

End SpreadArithmetic.

Section StrictSpread.
Local Open Scope R_scope.

Lemma B2R_power_of_two (s : bool) (e : Z) :
  B2R (S754_finite s 4503599627370496 e)
  = if s then - pow2 (e + 52) else pow2 (e + 52).
Proof.
  assert (Hv : F2R (Z.pos 4503599627370496) e = pow2 (e + 52)).
  { unfold F2R. rewrite pow2_add, (pow2_IZR 52) by lia.
    change (2 ^ 52)%Z with 4503599627370496%Z. ring. }
  unfold B2R. rewrite Hv. reflexivity.
Qed.

(** Floats in a chain between two finite floats are finite. *)
Lemma is_fin_chain (a x y b : float) :
  is_fin (Prim2SF a) -> is_fin (Prim2SF b) ->
  float_le a x -> float_le x y -> float_le y b ->
  is_fin (Prim2SF x) /\ is_fin (Prim2SF y).
Proof.
  unfold float_le. rewrite !leb_spec. unfold SFleb, SFcompare.
  destruct (Prim2SF a) as [sa | sa | | sa ma ea]; try contradiction;
    destruct (Prim2SF b) as [sb | sb | | sb mb eb]; try contradiction;
    destruct (Prim2SF x) as [sx | sx | | sx mx ex];
    destruct (Prim2SF y) as [sy | sy | | sy my ey];
    intros _ _; try (intros; split; exact I); try discriminate;
    repeat match goal with s : bool |- _ => destruct s end;
    try discriminate; intros; discriminate.
Qed.

Lemma round_down_to_tick_returns (x t : float) (mt : positive) (et : Z) :
  Prim2SF t = S754_finite false mt et ->
  is_fin (Prim2SF (x / t)) ->
  exists d, round_down_to_tick x t = Ok d.
Proof.
  intros HT Hq.
  unfold round_down_to_tick, truediv, floor, int_mul, binary64.
  unfold float_truediv, float_int_mul.
  assert (Hz : is_zero t = false).
  { unfold is_zero. rewrite FloatAxioms.eqb_spec, HT. reflexivity. }
  rewrite Hz. cbn [rbind].
  assert (Hk : exists k, float_floor (x / t) = Ok k).
  { unfold float_floor.
    destruct (Prim2SF (x / t)); try contradiction; eauto. }
  destruct Hk as [k Hk]. rewrite Hk. cbn [rbind].
  destruct (float_floor_converts _ _ Hk) as (f & Hf & _).
  rewrite Hf. cbn [rbind]. eauto.
Qed.

Lemma round_up_to_tick_returns (x t : float) (mt : positive) (et : Z) :
  Prim2SF t = S754_finite false mt et ->
  is_fin (Prim2SF (x / t)) ->
  exists u, round_up_to_tick x t = Ok u.
Proof.
  intros HT Hq.
  unfold round_up_to_tick, truediv, ceil, int_mul, binary64.
  unfold float_truediv, float_int_mul.
  assert (Hz : is_zero t = false).
  { unfold is_zero. rewrite FloatAxioms.eqb_spec, HT. reflexivity. }
  rewrite Hz. cbn [rbind].
  assert (Hk : exists k, float_ceil (x / t) = Ok k).
  { unfold float_ceil.
    destruct (Prim2SF (x / t)); try contradiction; eauto. }
  destruct Hk as [k Hk]. rewrite Hk. cbn [rbind].
  destruct (float_ceil_converts _ _ Hk) as (f & Hf & _).
  rewrite Hf. cbn [rbind]. eauto.
Qed.

(** The quotient of a price below [2^31] in magnitude by a tick from 1/64 is
    finite and at less than [2^-16] from the exact quotient. *)
Lemma quotient_rounded (a t : float) (mt : positive) (et : Z) :
  Prim2SF t = S754_finite false mt et ->
  / 64 <= B2R (Prim2SF t) ->
  is_fin (Prim2SF a) -> Rabs (B2R (Prim2SF a)) < 2147483648 ->
  is_fin (Prim2SF (a / t))
  /\ Rabs (B2R (Prim2SF (a / t)) - B2R (Prim2SF a) / B2R (Prim2SF t))
     < / 65536.
Proof.
  intros HT HTlow Ha HA.
  destruct pow2_values as (_ & H37 & _ & _ & H16 & _).
  assert (HTfin : exists s m e, Prim2SF t = S754_finite s m e) by eauto.
  pose proof (SFdiv_rounds _ _ (Prim2SF_valid' a) (Prim2SF_valid' t) Ha HTfin)
    as Hdiv.
  fold SF64div in Hdiv. rewrite <- div_spec in Hdiv.
  rewrite <- H16. apply (rounds_error _ _ (-16) Hdiv); [lia |].
  change (-16 + 53)%Z with 37%Z. rewrite H37.
  apply quotient_bound; assumption.
Qed.

(** The product of an integer next to such a quotient with the tick is
    finite and at less than [2^-21] from the exact product. *)
Lemma multiple_rounded (a t d : float) (k : Z) :
  / 64 <= B2R (Prim2SF t) <= 1024 ->
  Rabs (B2R (Prim2SF a)) < 2147483648 ->
  Rabs (B2R (Prim2SF (a / t)) - B2R (Prim2SF a) / B2R (Prim2SF t))
  < / 65536 ->
  IZR k - 1 < B2R (Prim2SF (a / t)) < IZR k + 1 ->
  rounds (Prim2SF d) (IZR k * B2R (Prim2SF t)) ->
  is_fin (Prim2SF d)
  /\ Rabs (B2R (Prim2SF d) - IZR k * B2R (Prim2SF t)) < / 2097152.
Proof.
  intros HT HA HQ Hk Hr.
  destruct pow2_values as (_ & _ & H32 & _ & _ & H21 & _).
  rewrite <- H21. apply (rounds_error _ _ (-21) Hr); [lia |].
  change (-21 + 53)%Z with 32%Z. rewrite H32.
  exact (multiple_bound _ _ _ _ HT HA HQ Hk).
Qed.

End StrictSpread.

(** Both prices are computed, and the roundings leave the bid price below
    the ask price. *)
Lemma spread_stays_open (theoretical_price credit tick_size : float) :
  float_le 0.015625 tick_size ->
  float_le tick_size credit ->
  float_le credit 1024 ->
  float_le (-1073741824) theoretical_price ->
  float_le theoretical_price 1073741824 ->
  exists bid_price ask_price,
    round_down_to_tick (theoretical_price - credit)%float tick_size
    = Ok bid_price
    /\ round_up_to_tick (theoretical_price + credit)%float tick_size
       = Ok ask_price
    /\ (bid_price <? ask_price)%float = true.
Proof.
  intros Htick Hcredit Hcap Hlow Hhigh.
  destruct pow2_values
    as (H31 & H37 & H32 & H22 & H16 & H21 & H6 & H10 & H30).
  (* the three floats are finite, and their values are in range *)
  destruct (is_fin_chain 0.015625 tick_size credit 1024 I I Htick Hcredit Hcap)
    as [Ht Hc].
  pose proof (is_fin_between (-1073741824) theoretical_price 1073741824 I I
                Hlow Hhigh) as Hp.
  pose proof (float_le_B2R 0.015625 tick_size I Ht Htick) as HT1.
  pose proof (float_le_B2R _ _ Ht Hc Hcredit) as HT2.
  pose proof (float_le_B2R credit 1024 Hc I Hcap) as HC.
  pose proof (float_le_B2R (-1073741824) theoretical_price I Hp Hlow) as HV1.
  pose proof (float_le_B2R theoretical_price 1073741824 Hp I Hhigh) as HV2.
  change (Prim2SF 0.015625) with (S754_finite false 4503599627370496 (-58))
    in HT1.
  change (Prim2SF 1024) with (S754_finite false 4503599627370496 (-42)) in HC.
  change (Prim2SF (-1073741824))
    with (S754_finite true 4503599627370496 (-22)) in HV1.
  change (Prim2SF 1073741824)
    with (S754_finite false 4503599627370496 (-22)) in HV2.
  rewrite B2R_power_of_two in HT1, HC, HV1, HV2.
  change (-58 + 52)%Z with (-6)%Z in HT1. change (-42 + 52)%Z with 10%Z in HC.
  change (-22 + 52)%Z with 30%Z in HV1, HV2.
  rewrite H6 in HT1. rewrite H10 in HC. rewrite H30 in HV1, HV2.
  set (V := B2R (Prim2SF theoretical_price)) in *.
  set (C := B2R (Prim2SF credit)) in *.
  set (T := B2R (Prim2SF tick_size)) in *.
  assert (HT : exists mt et, Prim2SF tick_size = S754_finite false mt et).
  { subst T. destruct (Prim2SF tick_size) as [s | s | | s m e];
      try contradiction.
    - simpl in HT1. lra.
    - pose proof (F2R_pos m e). simpl in HT1.
      destruct s; [lra | eauto]. }
  destruct HT as (mt & et & HT).
  assert (HCrange : (0 <= C <= 1024)%R) by lra.
  assert (HVrange : (-1073741824 <= V <= 1073741824)%R) by lra.
  destruct (shifted_price_bound V C HVrange HCrange) as [Hsub Hadd].
  (* the two prices before rounding to the tick *)
  pose proof (SFsub_rounds _ _ (Prim2SF_valid' theoretical_price)
                (Prim2SF_valid' credit) Hp Hc) as Hra.
  fold SF64sub in Hra. rewrite <- sub_spec in Hra.
  pose proof (SFadd_rounds _ _ (Prim2SF_valid' theoretical_price)
                (Prim2SF_valid' credit) Hp Hc) as Hrb.
  fold SF64add in Hrb. rewrite <- add_spec in Hrb.
  fold V C in Hra, Hrb.
  destruct (rounds_error _ _ (-22) Hra ltac:(lia)) as [Ha HA].
  { change (-22 + 53)%Z with 31%Z. rewrite H31. exact Hsub. }
  destruct (rounds_error _ _ (-22) Hrb ltac:(lia)) as [Hb HB].
  { change (-22 + 53)%Z with 31%Z. rewrite H31. exact Hadd. }
  rewrite H22 in HA, HB.
  set (a := (theoretical_price - credit)%float) in *.
  set (b := (theoretical_price + credit)%float) in *.
  pose proof (shifted_price_rounded V C _ HVrange HCrange (or_introl HA))
    as HAabs.
  pose proof (shifted_price_rounded V C _ HVrange HCrange (or_intror HB))
    as HBabs.
  (* the quotients *)
  destruct (quotient_rounded a tick_size mt et HT HT1 Ha HAabs) as [Hqa HQA].
  destruct (quotient_rounded b tick_size mt et HT HT1 Hb HBabs) as [Hqb HQB].
  (* the prices on the grid *)
  destruct (round_down_to_tick_returns a tick_size mt et HT Hqa)
    as [bid Hbid].
  destruct (round_up_to_tick_returns b tick_size mt et HT Hqb) as [ask Hask].
  exists bid, ask. split; [exact Hbid |]. split; [exact Hask |].
  destruct (round_down_to_tick_value _ _ _ _ _ HT Hbid)
    as (ka & _ & _ & _ & Hka & Hrd).
  destruct (round_up_to_tick_value _ _ _ _ _ HT Hask)
    as (kb & _ & _ & _ & Hkb & Hru).
  fold T in HQA, HQB, Hrd, Hru.
  assert (HTrange : (/ 64 <= T <= 1024)%R) by lra.
  destruct (multiple_rounded a tick_size bid ka HTrange HAabs HQA
              ltac:(lra) Hrd) as [Hbid_fin HD].
  destruct (multiple_rounded b tick_size ask kb HTrange HBabs HQB
              ltac:(lra) Hru) as [Hask_fin HU].
  apply B2R_float_lt; try assumption.
  apply (spread_survives V C T _ _ _ _ _ _ ka kb HT1 HT2 HA HB HQA HQB);
    try assumption; lra.
Qed.

(** On floats, for a tick from 1/64, a credit from the tick up to 1024 and a
    theoretical price up to [2^30] in magnitude, both prices are computed and
    the bid price is strictly below the ask price: the roundings of the
    floats do not close the spread. *)
Theorem bid_lt_ask_binary64
    (theoretical_price credit tick_size : float) :
  float_le 0.015625 tick_size ->
  float_le tick_size credit ->
  float_le credit 1024 ->
  float_le (-1073741824) theoretical_price ->
  float_le theoretical_price 1073741824 ->
  exists bid_price ask_price,
    round_down_to_tick (theoretical_price - credit)%float tick_size
    = Ok bid_price
    /\ round_up_to_tick (theoretical_price + credit)%float tick_size
       = Ok ask_price
    /\ (bid_price <? ask_price)%float = true.
Proof. apply spread_stays_open. Qed.

(** In a run of [update_quotes] that inserts a bid and an ask, with such a
    tick, credit and theoretical price, the bid is priced strictly below the
    ask. *)
Theorem update_quotes_bid_strictly_below_ask {X : Type} {E : Exchange X}
    (option_id : string) (theoretical_price credit : float)
    (volume position_limit : Z) (tick_size : float) (x : X)
    (bid_volume ask_volume : Z) (bid_price ask_price : float) :
  float_le 0.015625 tick_size ->
  float_le tick_size credit ->
  float_le credit 1024 ->
  float_le (-1073741824) theoretical_price ->
  float_le theoretical_price 1073741824 ->
  inserted (events_of (update_quotes option_id theoretical_price credit volume
                         position_limit tick_size x))
  = [("bid"%string, bid_volume, bid_price);
     ("ask"%string, ask_volume, ask_price)] ->
  (bid_price <? ask_price)%float = true.
Proof.
  intros Htick Hcredit Hcap Hlow Hhigh Hins.
  destruct (spread_stays_open theoretical_price credit tick_size
              Htick Hcredit Hcap Hlow Hhigh)
    as (bid' & ask' & Hbid' & Hask' & Hlt).
  pose proof (update_quotes_shape option_id theoretical_price credit volume
                position_limit tick_size x) as Hrun.
  destruct Hrun as [e es Hno Hnone
                   | trades orders bid ask positions p r ins
                       Hbid Hask Hposition Hphase].
  - rewrite (no_insert_inserted _ Hno) in Hins. discriminate.
  - rewrite inserted_app in Hins.
    rewrite (no_insert_inserted _ (pull_events_no_insert _ _ _)) in Hins.
    assert (Hprices : bid_price = bid /\ ask_price = ask).
    { destruct Hphase; simpl in Hins; try discriminate.
      injection Hins as _ <- _ <-. split; reflexivity. }
    destruct Hprices as [-> ->].
    rewrite Hbid in Hbid'. rewrite Hask in Hask'.
    injection Hbid' as <-. injection Hask' as <-. exact Hlt.
Qed.

Section StrictSpreadExample.
Local Open Scope float_scope.

(** The quotes of the trade loop around a theoretical price of 10. *)
Lemma bid_lt_ask_binary64_example :
  exists bid_price ask_price,
    round_down_to_tick (10 - 0.15) 0.10 = Ok bid_price
    /\ round_up_to_tick (10 + 0.15) 0.10 = Ok ask_price
    /\ (bid_price <? ask_price) = true.
Proof.
  apply (bid_lt_ask_binary64 10 0.15 0.10); vm_compute; reflexivity.
Defined.

(** The quotes of a run at position 0. *)
Lemma update_quotes_bid_strictly_below_ask_example :
  (9.8 <? 10.200000000000001) = true.
Proof.
  apply (update_quotes_bid_strictly_below_ask (E := sim_exchange)
           EXAMPLE_OPTION 10 0.15 3 100 0.10 (sim_quoted 0) 3 3
           9.8 10.200000000000001);
    vm_compute; reflexivity.
Defined.

End StrictSpreadExample.

(** ** A theoretical price that the credit eats up *)

(** Taking off a credit that is not below the price leaves nothing
    positive. *)
Lemma credit_not_covered (theoretical_price credit : float) :
  float_le theoretical_price credit ->
  is_fin (Prim2SF (theoretical_price - credit)) ->
  float_le (theoretical_price - credit) 0.
Proof.
  intros Hle Hfin.
  pose proof Hfin as Hpc. rewrite sub_spec in Hpc.
  apply is_fin_sub in Hpc. destruct Hpc as [Hp Hc].
  pose proof (float_le_B2R _ _ Hp Hc Hle) as HR.
  pose proof (SFsub_rounds _ _ (Prim2SF_valid' theoretical_price)
                (Prim2SF_valid' credit) Hp Hc) as Hr.
  fold SF64sub in Hr. rewrite <- sub_spec in Hr.
  apply rounds_fin in Hr; [| exact Hfin].
  apply B2R_float_le; [exact Hfin | exact I |].
  change (Prim2SF 0%float) with (S754_zero false). simpl.
  apply (nearest_le_fmt _ _ 0%R Hr fmt_0). lra.
Qed.

(** [update_quotes] does not look at the sign of its prices: for a positive
    finite tick and a theoretical price that does not exceed the credit, the
    bid it inserts, if it inserts one, has a price that is zero or
    negative. *)
Theorem update_quotes_nonpositive_bid {X : Type} {E : Exchange X}
    (option_id : string) (theoretical_price credit : float)
    (volume position_limit : Z) (tick_size : float) (x : X)
    (bid_volume : Z) (bid_price : float) :
  (0 <? tick_size)%float = true ->
  is_finite tick_size = true ->
  float_le theoretical_price credit ->
  In ("bid"%string, bid_volume, bid_price)
    (inserted (events_of (update_quotes option_id theoretical_price credit
                            volume position_limit tick_size x))) ->
  float_le bid_price 0.
Proof.
  intros Ht Hfin Hle Hin.
  pose proof (update_quotes_shape option_id theoretical_price credit volume
                position_limit tick_size x) as Hrun.
  destruct Hrun as [e es Hno Hnone
                   | trades orders bid ask positions p r ins
                       Hbid Hask Hposition Hphase].
  - rewrite (no_insert_inserted _ Hno) in Hin. contradiction.
  - rewrite inserted_app in Hin.
    rewrite (no_insert_inserted _ (pull_events_no_insert _ _ _)) in Hin.
    assert (Hprice : bid_price = bid).
    { destruct Hphase; simpl in Hin;
        repeat match goal with
        | Hor : _ \/ _ |- _ => destruct Hor as [Hor | Hor]
        | Heq : (_, _, _) = (_, _, _) |- _ => injection Heq as Hs Hv Hp
        end; try contradiction; try discriminate; congruence. }
    subst bid_price.
    destruct (positive_float tick_size Ht) as [Hinf | (mt & et & HT)].
    { contradiction (finite_float tick_size Hfin). }
    destruct (round_down_to_tick_value _ _ _ _ _ HT Hbid)
      as (k & Hx & _).
    apply (round_down_to_tick_sign _ _ _ Ht Hfin Hbid).
    apply credit_not_covered; assumption.
Qed.

Section NonpositiveBidExample.
Local Open Scope float_scope.

(** A theoretical price of 0.1 with the credit of 0.15 and the tick of 0.10
    of the trade loop: the bid is inserted at -0.1. *)
Lemma update_quotes_nonpositive_bid_example :
  float_le (-0.1) 0.
Proof.
  apply (update_quotes_nonpositive_bid (E := sim_exchange) EXAMPLE_OPTION
           0.1 0.15 3 100 0.10 (sim_quoted 0) 3 (-0.1));
    try (vm_compute; reflexivity).
  vm_compute. left. reflexivity.
Defined.

End NonpositiveBidExample.

(** ** The volume of an iteration, instrument by instrument *)

Lemma placed_volume_in_app (instrument_id side : string)
    (es1 es2 : list event) :
  placed_volume_in instrument_id side (es1 ++ es2)
  = placed_volume_in instrument_id side es1
    + placed_volume_in instrument_id side es2.
Proof.
  induction es1 as [| e es1 IH]; simpl; [reflexivity |].
  destruct e; simpl; rewrite ?IH; lia.
Qed.

Lemma no_insert_placed_in (instrument_id side : string) (es : list event) :
  Forall (fun ev => is_insert ev = false) es ->
  placed_volume_in instrument_id side es = 0.
Proof.
  induction 1 as [| e es He _ IH]; simpl; [reflexivity |].
  destruct e; simpl in *; try exact IH; discriminate.
Qed.

(** The bid and the ask of a run count for different sides. *)
Lemma insert_phase_placed_in (option_id : string) (bv av : Z)
    (bid ask : float) (r : result unit) (ins : list event) (volume : Z)
    (instrument_id side : string) :
  insert_phase option_id bv av bid ask r ins ->
  bv <= volume -> av <= volume ->
  0 <= placed_volume_in instrument_id side ins
    <= (if String.eqb option_id instrument_id then Z.max 0 volume else 0).
Proof.
  intros Hphase Hbv Hav.
  destruct Hphase; cbn [placed_volume_in bid_events ask_events app];
    destruct (String.eqb option_id instrument_id); cbn [andb];
    destruct (String.eqb_spec "bid" side) as [Hb | Hb];
    destruct (String.eqb_spec "ask" side) as [Ha | Ha];
    try (rewrite <- Hb in Ha; discriminate Ha); lia.
Qed.

Lemma quota_OPTIONS (instrument_id : string) :
  0 <= quota OPTIONS instrument_id <= 3.
Proof.
  unfold OPTIONS. cbn [quota opt_id].
  repeat match goal with
  | |- context [String.eqb ?s instrument_id] =>
      destruct (String.eqb_spec s instrument_id) as [? | ?]
  end; try lia; exfalso; congruence.
Qed.

Section VolumeRules.
Context {X : Type} `{Exchange X}.
Variable calculate_current_time_to_date : datetime -> float.
Variables call_value put_value :
  float -> number -> float -> float -> float -> float.

Lemma places_none {A : Type} (Q : event -> Prop) (m : M (X := X) A) :
  (forall ev, Q ev -> is_insert ev = false) -> always Q m ->
  places_at_most (fun _ => 0) m.
Proof.
  intros HQ Hm. eapply emits_weaken; [exact Hm |].
  intros r es Hes instrument_id side.
  rewrite no_insert_placed_in; [lia |].
  revert Hes. apply Forall_impl. exact HQ.
Qed.

Lemma places_print (m : message) :
  places_at_most (X := X) (fun _ => 0) (print m).
Proof. apply emits_emit. intros instrument_id side. simpl. lia. Qed.

Lemma places_sleep (seconds : number) :
  places_at_most (X := X) (fun _ => 0) (sleep seconds).
Proof. apply emits_emit. intros instrument_id side. simpl. lia. Qed.

Lemma places_lift {A : Type} (r : result A) :
  places_at_most (X := X) (fun _ => 0) (lift r).
Proof. apply emits_lift. intros instrument_id side. simpl. lia. Qed.

Lemma places_bind {A B : Type} (b1 b2 : string -> Z) (m : M (X := X) A)
    (f : A -> M (X := X) B) :
  (forall i, 0 <= b2 i) ->
  places_at_most b1 m -> (forall a, places_at_most b2 (f a)) ->
  places_at_most (fun i => b1 i + b2 i) (bind m f).
Proof.
  intros Hb2 Hm Hf. apply emits_bind.
  eapply emits_weaken; [exact Hm |].
  intros [a | e] es Hes.
  - eapply emits_weaken; [apply Hf |].
    intros r es' Hes' instrument_id side.
    rewrite placed_volume_in_app.
    specialize (Hes instrument_id side). specialize (Hes' instrument_id side).
    lia.
  - intros instrument_id side. specialize (Hes instrument_id side).
    specialize (Hb2 instrument_id). lia.
Qed.

(** A step that inserts nothing, before the rest. *)
Lemma places_after {A B : Type} (b : string -> Z) (m : M (X := X) A)
    (f : A -> M (X := X) B) :
  (forall i, 0 <= b i) ->
  places_at_most (fun _ => 0) m -> (forall a, places_at_most b (f a)) ->
  places_at_most b (bind m f).
Proof.
  intros Hb Hm Hf.
  eapply emits_weaken; [exact (places_bind _ _ m f Hb Hm Hf) |].
  intros r es Hes instrument_id side. exact (Hes instrument_id side).
Qed.

(** A step that inserts nothing, after the rest. *)
Lemma places_before {A B : Type} (b : string -> Z) (m : M (X := X) A)
    (f : A -> M (X := X) B) :
  places_at_most b m -> (forall a, places_at_most (fun _ => 0) (f a)) ->
  places_at_most b (bind m f).
Proof.
  intros Hm Hf.
  eapply emits_weaken;
    [exact (places_bind _ _ m f (fun _ => Z.le_refl 0) Hm Hf) |].
  intros r es Hes instrument_id side.
  specialize (Hes instrument_id side). lia.
Qed.

Lemma update_quotes_places (option_id : string)
    (theoretical_price credit : float) (volume position_limit : Z)
    (tick_size : float) :
  places_at_most (X := X)
    (fun i => if String.eqb option_id i then Z.max 0 volume else 0)
    (update_quotes option_id theoretical_price credit volume position_limit
       tick_size).
Proof.
  eapply emits_weaken; [apply update_quotes_runs |].
  intros r es Hrun instrument_id side.
  destruct Hrun as [e es Hno Hnone
                   | trades orders bid ask positions p r ins
                       Hbid Hask Hposition Hphase].
  - rewrite (no_insert_placed_in _ _ _ Hno).
    destruct (String.eqb option_id instrument_id); lia.
  - rewrite placed_volume_in_app.
    rewrite (no_insert_placed_in _ _ _ (pull_events_no_insert _ _ _)).
    simpl.
    apply (insert_phase_placed_in _ _ _ _ _ _ _ volume _ _ Hphase); lia.
Qed.

Lemma quota_nonneg (options : list option_entry) (instrument_id : string) :
  0 <= quota options instrument_id.
Proof.
  induction options as [| o options IH]; simpl; [lia |].
  destruct (String.eqb (opt_id o) instrument_id); lia.
Qed.

Lemma quoting_places (options : list option_entry) (stock_value : float) :
  places_at_most (X := X) (quota options)
    (for_each options (fun option =>
       bind (print (msg_updating (opt_id option))) (fun _ =>
       bind (lift (calculate_theoretical_option_value
                     calculate_current_time_to_date call_value put_value
                     (opt_expiry_date option) (opt_strike option)
                     (opt_callput option) stock_value 0.0%float 3.0%float))
         (fun theoretical_value =>
       bind (update_quotes (opt_id option) theoretical_value 0.15%float 3 100
               0.10%float) (fun _ =>
       sleep (PyFloat 0.10%float)))))).
Proof.
  induction options as [| o options IH]; simpl.
  - apply emits_ret. intros instrument_id side. simpl. lia.
  - apply (places_bind
             (fun i => if String.eqb (opt_id o) i then 3 else 0)
             (quota options)).
    + apply quota_nonneg.
    + assert (Hb : forall i, 0 <= (if String.eqb (opt_id o) i then 3 else 0))
        by (intros i; destruct (String.eqb (opt_id o) i); lia).
      apply places_after; [exact Hb | apply places_print | intros _].
      apply places_after; [exact Hb | apply places_lift |].
      intros theoretical_value.
      apply places_before; [| intros _; apply places_sleep].
      apply update_quotes_places.
    + intros _. exact IH.
Qed.

Lemma trade_loop_iteration_places :
  places_at_most (X := X) (fun _ => 3)
    (trade_loop_iteration calculate_current_time_to_date call_value put_value).
Proof.
  assert (Hb : forall i : string, 0 <= 3) by (intros; lia).
  unfold trade_loop_iteration.
  do 4 (apply places_after; [exact Hb | apply places_print | intros _]).
  apply places_after; [exact Hb | |].
  { apply (places_none (fun ev => is_insert ev = false)); [auto |].
    apply get_midpoint_value_always. intros r. reflexivity. }
  intros [stock_value |].
  - apply places_before.
    + eapply emits_weaken; [apply quoting_places |].
      intros r es Hes instrument_id side.
      specialize (Hes instrument_id side).
      pose proof (quota_OPTIONS instrument_id). lia.
    + intros _.
      assert (Hz : forall i : string, 0 <= 0) by (intros; lia).
      apply places_after; [exact Hz | apply places_print | intros _].
      apply places_after; [exact Hz | | intros _].
      { apply (places_none (fun ev => is_insert ev = false)); [auto |].
        apply hedge_delta_position_always; intros; reflexivity. }
      apply places_after; [exact Hz | apply places_print | intros _].
      apply places_sleep.
  - eapply emits_weaken.
    { apply (places_after (fun _ => 0)); [intros; lia | apply places_print |].
      intros _. apply places_sleep. }
    intros r es Hes instrument_id side.
    specialize (Hes instrument_id side). lia.
Qed.

Lemma trade_loop_places (n : nat) :
  places_at_most (X := X) (fun _ => 3 * Z.of_nat n)
    (trade_loop calculate_current_time_to_date call_value put_value n).
Proof.
  induction n as [| n IH]; simpl trade_loop.
  - apply emits_ret. intros instrument_id side. simpl. lia.
  - eapply emits_weaken.
    { apply (places_bind (fun _ => 3) (fun _ => 3 * Z.of_nat n)).
      - intros _. lia.
      - apply trade_loop_iteration_places.
      - intros _. exact IH. }
    intros r es Hes instrument_id side.
    specialize (Hes instrument_id side). lia.
Qed.

End VolumeRules.

(** In [n] iterations, whatever the exchange answers, the trade loop inserts
    at most [3 * n] lots on the bid side and as many on the ask side of any
    one instrument: 3 lots per side, option and iteration. *)
Theorem trade_loop_volume_per_instrument {X : Type} {E : Exchange X}
    (calculate_current_time_to_date : datetime -> float)
    (call_value put_value : float -> number -> float -> float -> float -> float)
    (n : nat) (x : X) (instrument_id side : string) :
  0 <= placed_volume_in instrument_id side
         (events_of (trade_loop calculate_current_time_to_date call_value
                       put_value n x))
    <= 3 * Z.of_nat n.
Proof.
  exact (trade_loop_places calculate_current_time_to_date call_value put_value
           n x instrument_id side).
Qed.
